(** * Diagnostic extraction of the Perl 6 language server

    A shallow embedding of the error-message parser of
    vscode-languageserver-perl6.  The repository carries the parser twice:

    - [src/server/src/server.ts]: [parse_undeclared], [parse_missing_libs],
      [parse_generic_single], [parse_generics], [parseErrorMessage]
      (module [ServerTs] below);
    - the server source appended to [src/client/package.json]:
      [parseUndeclared], [parseMissingLibs], [parseGenerics],
      [parseErrorMessage] (module [Packaged] below).

    Strings are JavaScript strings, that is lists of UTF-16 code units.
    The line of a diagnostic, [+m[2] - 1] in the source, is a double: an
    integer rounded to 53 bits, or [Infinity]. *)

From Stdlib Require Import String Ascii Bool Arith ZArith NArith Lia List.
Import ListNotations.

(** ** JavaScript strings *)

Definition code := N.
Definition jsstring := list code.

(** The code units of an ASCII literal of the source. *)
Definition js (s : string) : jsstring :=
  List.map N_of_ascii (list_ascii_of_string s).

(** [s.slice(n)] for a non-negative [n]. *)
Definition slice (s : jsstring) (n : nat) : jsstring := skipn n s.

(** ** Character classes of the regular expressions in the source *)

Inductive cls : Type :=
| Dot                 (* the dot *)
| Space               (* \s *)
| NonSpace            (* \S *)
| Digit               (* \d *)
| Any                 (* [\s\S] *)
| CrLf                (* [\r\n] *)
| Chr (c : code).     (* a literal character *)

Definition is_line_terminator (a : code) : bool :=
  ((a =? 10) || (a =? 13) || (a =? 8232) || (a =? 8233))%N.

(** ECMAScript WhiteSpace and LineTerminator code points. *)
Definition is_space (a : code) : bool :=
  ((a =? 9) || (a =? 10) || (a =? 11) || (a =? 12) || (a =? 13) || (a =? 32)
   || (a =? 160) || (a =? 5760) || ((8192 <=? a) && (a <=? 8202))
   || (a =? 8232) || (a =? 8233) || (a =? 8239) || (a =? 8287)
   || (a =? 12288) || (a =? 65279))%N.

Definition is_digit (a : code) : bool := ((48 <=? a) && (a <=? 57))%N.

Definition in_cls (c : cls) (a : code) : bool :=
  match c with
  | Dot => negb (is_line_terminator a)
  | Space => is_space a
  | NonSpace => negb (is_space a)
  | Digit => is_digit a
  | Any => true
  | CrLf => ((a =? 13) || (a =? 10))%N
  | Chr b => (a =? b)%N
  end.

(** ** A backtracking matcher for the fragment of regular expressions used

    Every quantifier of the source applies to a single character class and
    capture groups are neither nested nor quantified, so a pattern is a
    sequence of atoms.  Alternatives are tried in the order of the ECMAScript
    matcher: a greedy quantifier tries the longest repetition first, a lazy
    one the shortest. *)

Inductive atom : Type :=
| One (c : cls)        (* c, once *)
| Opt (c : cls)        (* c?, greedy *)
| Star (c : cls)       (* c star, greedy *)
| Plus (c : cls)       (* c+, greedy *)
| StarLazy (c : cls)   (* c star ?, lazy *)
| Open                 (* a capture group opens *)
| Close                (* a capture group closes *)
| Bol                  (* ^ *)
| Eol.                 (* $ *)

Definition regex := list atom.

(** State of one match attempt: the text matched so far ([m[0]]), the text
    consumed since the last group opened, and the groups already closed. *)
Record mstate : Type := {
  matched : jsstring;
  cur : jsstring;
  caps : list jsstring
}.

Definition mstate0 : mstate := {| matched := []; cur := []; caps := [] |}.

(** Consume the code units [x]. *)
Definition adv (x : jsstring) (st : mstate) : mstate :=
  {| matched := matched st ++ x; cur := cur st ++ x; caps := caps st |}.

Definition open_group (st : mstate) : mstate :=
  {| matched := matched st; cur := []; caps := caps st |}.

Definition close_group (st : mstate) : mstate :=
  {| matched := matched st; cur := cur st; caps := caps st ++ [cur st] |}.

Definition kont := jsstring -> mstate -> option mstate.

Definition orelse (x y : option mstate) : option mstate :=
  match x with
  | Some r => Some r
  | None => y
  end.

Fixpoint greedy (c : cls) (k : kont) (s : jsstring) (st : mstate) : option mstate :=
  match s with
  | a :: s' =>
      if in_cls c a then orelse (greedy c k s' (adv [a] st)) (k s st)
      else k s st
  | [] => k s st
  end.

Fixpoint lazy (c : cls) (k : kont) (s : jsstring) (st : mstate) : option mstate :=
  match k s st with
  | Some r => Some r
  | None =>
      match s with
      | a :: s' => if in_cls c a then lazy c k s' (adv [a] st) else None
      | [] => None
      end
  end.

(** [run r p0 s st]: match [r] against the rest [s] of the input, in a match
    attempt that started at index [p0] of the input. *)
Fixpoint run (r : regex) (p0 : nat) (s : jsstring) (st : mstate) : option mstate :=
  match r with
  | [] => Some st
  | One c :: r' =>
      match s with
      | a :: s' => if in_cls c a then run r' p0 s' (adv [a] st) else None
      | [] => None
      end
  | Opt c :: r' =>
      match s with
      | a :: s' =>
          if in_cls c a then orelse (run r' p0 s' (adv [a] st)) (run r' p0 s st)
          else run r' p0 s st
      | [] => run r' p0 s st
      end
  | Star c :: r' => greedy c (run r' p0) s st
  | Plus c :: r' =>
      match s with
      | a :: s' => if in_cls c a then greedy c (run r' p0) s' (adv [a] st) else None
      | [] => None
      end
  | StarLazy c :: r' => lazy c (run r' p0) s st
  | Open :: r' => run r' p0 s (open_group st)
  | Close :: r' => run r' p0 s (close_group st)
  | Bol :: r' =>
      match p0, matched st with
      | O, [] => run r' p0 s st
      | _, _ => None
      end
  | Eol :: r' =>
      match s with
      | [] => run r' p0 s st
      | _ :: _ => None
      end
  end.

(** Leftmost match: [search r s p] tries every start index from [p] on,
    [s] being the input from index [p]. *)
Fixpoint search (r : regex) (s : jsstring) (p : nat) : option (nat * mstate) :=
  match run r p s mstate0 with
  | Some st => Some (p, st)
  | None =>
      match s with
      | _ :: s' => search r s' (S p)
      | [] => None
      end
  end.

(** The array returned by [RegExp.prototype.exec]: [index], and the matched
    text followed by the captured groups. *)
Record RegExpExecArray : Type := {
  index : nat;
  groups : list jsstring
}.

Definition exec (r : regex) (s : jsstring) : option RegExpExecArray :=
  match search r s 0 with
  | Some (p, st) => Some {| index := p; groups := matched st :: caps st |}
  | None => None
  end.

(** [m[k]] *)
Definition grp (m : RegExpExecArray) (k : nat) : jsstring := nth k (groups m) [].

(** [s.replace(r, e)] with [e] the empty string, for a pattern without the
    [g] flag: the first match is removed. *)
Definition replace_empty (r : regex) (s : jsstring) : jsstring :=
  match search r s 0 with
  | Some (p, st) => firstn p s ++ skipn (p + length (matched st)) s
  | None => s
  end.

(** [s.split] on the pattern "/\r?\n/g". *)
Fixpoint split_lines_aux (cur : jsstring) (s : jsstring) : list jsstring :=
  match s with
  | [] => [rev cur]
  | a :: s' =>
      if (a =? 10)%N then rev cur :: split_lines_aux [] s'
      else
        match s' with
        | b :: s'' =>
            if ((a =? 13) && (b =? 10))%N then rev cur :: split_lines_aux [] s''
            else split_lines_aux (a :: cur) s'
        | [] => split_lines_aux (a :: cur) s'
        end
  end.

Definition split_lines (s : jsstring) : list jsstring := split_lines_aux [] s.

(** ** Numbers

    A JavaScript number is an IEEE 754 double.  The source computes two
    numbers: [+m[2]], where [m[2]] is a string of decimal digits, and that
    number minus 1.  Both are integers or [Infinity]; an integer below 2^53
    is held exactly, a larger one is rounded to the nearest double, ties to
    the even significand, and becomes [Infinity] from 2^1024 on.  (The
    language lets an engine round a literal of more than 20 significant
    digits less exactly; V8, on which the server runs, rounds to the
    nearest double throughout.) *)

Inductive number : Type :=
| Fin (z : Z)        (* the double whose value is the integer [z] *)
| Infinity.

Coercion Fin : Z >-> number.
Bind Scope Z_scope with number.

(** The integer that the decimal digits [s] denote. *)
Definition decimal (s : jsstring) : Z :=
  fold_left (fun acc d => (acc * 10 + (Z.of_N d - 48))%Z) s 0%Z.

(** The double nearest to the integer [z], for [z] from -2^53 on: the
    significand holds 53 bits, so that [z] is kept as it is below 2^53 and
    loses its [e] low bits otherwise. *)
Definition to_double (z : Z) : number :=
  if (z <? 2 ^ 53)%Z then Fin z
  else
    let e := (Z.log2 z - 52)%Z in
    let q := (z / 2 ^ e)%Z in
    let r := (z mod 2 ^ e)%Z in
    let half := (2 ^ (e - 1))%Z in
    let up := (half <? r)%Z || ((r =? half)%Z && Z.odd q) in
    let v := ((if up then q + 1 else q) * 2 ^ e)%Z in
    if (v <? 2 ^ 1024)%Z then Fin v else Infinity.

(** Unary plus on a string of decimal digits. *)
Definition to_number (s : jsstring) : number := to_double (decimal s).

(** [x - 1], for the numbers above. *)
Definition minus_one (x : number) : number :=
  match x with
  | Fin z => to_double (z - 1)
  | Infinity => Infinity
  end.

(** [+digits - 1]: the line of a diagnostic. *)
Definition line_number (digits : jsstring) : number :=
  minus_one (to_number digits).

(** [z <= x] *)
Definition at_least (z : Z) (x : number) : Prop :=
  match x with
  | Fin y => (z <= y)%Z
  | Infinity => True
  end.

(** ** The regular expression literals of the source *)

Definition lit (s : string) : regex := List.map (fun a => One (Chr a)) (js s).

(** The pattern [^\s+(\S+) used at line (\d+)(REST)$], REST being the dot
    starred. *)
Definition re_used_at : regex :=
  [Bol; Plus Space; Open; Plus NonSpace; Close] ++ lit " used at line "
  ++ [Open; Plus Digit; Close; Open; Star Dot; Close; Eol].

(** The pattern "/Could not find (\S+) at line (\d+) in:[\r\n]([\s\S]+)/". *)
Definition re_missing : regex :=
  lit "Could not find " ++ [Open; Plus NonSpace; Close] ++ lit " at line "
  ++ [Open; Plus Digit; Close] ++ lit " in:"
  ++ [One CrLf; Open; Plus Any; Close].

(** The pattern "/Undeclared names?:\r?\n([\s\S]+)/". *)
Definition re_names : regex :=
  lit "Undeclared name" ++ [Opt (Chr 115%N)] ++ lit ":"
  ++ [Opt (Chr 13%N); One (Chr 10%N); Open; Plus Any; Close].

(** The pattern "/Undeclared routines?:\r?\n([\s\S]+)/". *)
Definition re_routines : regex :=
  lit "Undeclared routine" ++ [Opt (Chr 115%N)] ++ lit ":"
  ++ [Opt (Chr 13%N); One (Chr 10%N); Open; Plus Any; Close].

(** The pattern "/===SORRY.*\r?\n/". *)
Definition re_sorry : regex :=
  lit "===SORRY" ++ [Star Dot; Opt (Chr 13%N); One (Chr 10%N)].

(** The pattern "/.*\r?\nat .*?:\d+\r?\n------> .*/" of [parse_generics]. *)
Definition re_generic : regex :=
  [Star Dot; Opt (Chr 13%N); One (Chr 10%N)] ++ lit "at "
  ++ [StarLazy Dot] ++ lit ":" ++ [Plus Digit; Opt (Chr 13%N); One (Chr 10%N)]
  ++ lit "------> " ++ [Star Dot].

(** The pattern of [parse_generic_single]: the one of [parse_generics] with
    groups around the first dot-star, the digits and the last dot-star. *)
Definition re_generic_single : regex :=
  [Open; Star Dot; Close; Opt (Chr 13%N); One (Chr 10%N)] ++ lit "at "
  ++ [StarLazy Dot] ++ lit ":"
  ++ [Open; Plus Digit; Close; Opt (Chr 13%N); One (Chr 10%N)]
  ++ lit "------> " ++ [Open; Star Dot; Close].

(** The pattern of [parseGenerics]: the one of [parse_generics] with groups
    around the first dot-star and the digits. *)
Definition re_generic_first : regex :=
  [Open; Star Dot; Close; Opt (Chr 13%N); One (Chr 10%N)] ++ lit "at "
  ++ [StarLazy Dot] ++ lit ":"
  ++ [Open; Plus Digit; Close; Opt (Chr 13%N); One (Chr 10%N)]
  ++ lit "------> " ++ [Star Dot].

(** ** Diagnostics (vscode-languageserver) *)

Module DiagnosticSeverity.
Inductive t : Type := Error | Warning | Information | HintLevel.
End DiagnosticSeverity.

Record Position : Type := { line : number; character : Z }.
Record Range : Type := { start : Position; end_ : Position }.
Record Diagnostic : Type := {
  severity : DiagnosticSeverity.t;
  range : Range;
  message : jsstring;
  source : jsstring
}.

(** The object literal pushed by every parser function. *)
Definition error_at (line_num : number) (msg : jsstring) : Diagnostic :=
  {| severity := DiagnosticSeverity.Error;
     range := {| start := {| line := line_num; character := 0 |};
                 end_ := {| line := line_num; character := 1000 |} |};
     message := msg;
     source := js "perl6" |}.

(** [diagnostics.push(d)] *)
Definition push (diagnostics : list Diagnostic) (d : Diagnostic) : list Diagnostic :=
  diagnostics ++ [d].

(** ** Outcome of code that may throw *)

Inductive outcome (A : Type) : Type :=
| Ok (a : A)
| TypeError          (* a property of [null] was read *)
| OutOfFuel.         (* the loop bound of the model was reached *)

Arguments Ok {A} a.
Arguments TypeError {A}.
Arguments OutOfFuel {A}.

Definition bind {A B : Type} (x : outcome A) (f : A -> outcome B) : outcome B :=
  match x with
  | Ok a => f a
  | TypeError => TypeError
  | OutOfFuel => OutOfFuel
  end.

Notation "x <- c ;; k" := (bind c (fun x => k))
  (at level 61, c at next level, right associativity).

(** ** The parser functions shared, word for word, by the two copies *)

(** Loop body of [parse_undeclared] / [parseUndeclared] over the split lines. *)
Fixpoint undeclared_lines (type : jsstring) (next_lines : list jsstring)
         (diagnostics : list Diagnostic) : list Diagnostic :=
  match next_lines with
  | [] => diagnostics
  | line :: rest =>
      match exec re_used_at line with
      | Some m2 =>
          let name := grp m2 1 in
          let line_num := minus_one (to_number (grp m2 2)) in
          let advice := grp m2 3 in
          undeclared_lines type rest
            (push diagnostics
               (error_at line_num
                  (type ++ js " " ++ name ++ js " is not declared" ++ advice)))
      | None => diagnostics          (* break *)
      end
  end.

Definition missing_libs (m : RegExpExecArray) (diagnostics : list Diagnostic)
  : list Diagnostic :=
  let missing_lib := grp m 1 in
  let line_num := minus_one (to_number (grp m 2)) in
  let lib_paths := grp m 3 in
  push diagnostics
    (error_at line_num
       (js "Could not find " ++ missing_lib ++ js " in:" ++ [10%N] ++ lib_paths)).

(** ** src/server/src/server.ts *)

Module ServerTs.

Definition parse_undeclared (type lines : jsstring) (diagnostics : list Diagnostic)
  : list Diagnostic :=
  undeclared_lines type (split_lines lines) diagnostics.

Definition parse_missing_libs := missing_libs.

Definition parse_generic_single (msg : jsstring) (diagnostics : list Diagnostic)
  : outcome (list Diagnostic) :=
  match exec re_generic_single msg with
  | None => TypeError               (* m[1] of null *)
  | Some m =>
      let finding := grp m 1 in
      let line_num := minus_one (to_number (grp m 2)) in
      Ok (push diagnostics (error_at line_num finding))
  end.

(** The [while] loop of [parse_generics]. *)
Fixpoint generics_loop (fuel : nat) (text : jsstring) (diagnostics : list Diagnostic)
  : outcome (list Diagnostic) :=
  match exec re_generic text with
  | None => Ok diagnostics
  | Some reea =>
      match fuel with
      | O => OutOfFuel
      | S fuel' =>
          let single := grp reea 0 in
          diagnostics' <- parse_generic_single single diagnostics ;;
          generics_loop fuel' (slice text (length single)) diagnostics'
      end
  end.

Definition parse_generics (msg : jsstring) (diagnostics : list Diagnostic)
  : outcome (list Diagnostic) :=
  let text := replace_empty re_sorry msg in
  generics_loop (length text) text diagnostics.

Definition parseErrorMessage (msg : jsstring) (diagnostics : list Diagnostic)
  : outcome (list Diagnostic) :=
  match exec re_missing msg with
  | Some m => Ok (parse_missing_libs m diagnostics)
  | None =>
      let diagnostics1 :=
        match exec re_names msg with
        | Some m => parse_undeclared (js "name") (grp m 1) diagnostics
        | None => diagnostics
        end in
      match exec re_routines msg with
      | Some m => Ok (parse_undeclared (js "routine") (grp m 1) diagnostics1)
      | None => parse_generics msg diagnostics1
      end
  end.

End ServerTs.

(** ** The server source appended to src/client/package.json *)

Module Packaged.

Definition parseUndeclared (type lines : jsstring) (diagnostics : list Diagnostic)
  : list Diagnostic :=
  undeclared_lines type (split_lines lines) diagnostics.

Definition parseMissingLibs := missing_libs.

Definition parseGenerics (msg : jsstring) (diagnostics : list Diagnostic)
  : list Diagnostic :=
  let text := replace_empty re_sorry msg in
  let '(finding, line_num) :=
    match exec re_generic_first text with
    | Some m => (grp m 1, minus_one (to_number (grp m 2)))
    | None => (text, Fin 0)
    end in
  push diagnostics (error_at line_num finding).

Definition parseErrorMessage (msg : jsstring) (diagnostics : list Diagnostic)
  : list Diagnostic :=
  match exec re_missing msg with
  | Some m => parseMissingLibs m diagnostics
  | None =>
      let diagnostics1 :=
        match exec re_names msg with
        | Some m => parseUndeclared (js "name") (grp m 1) diagnostics
        | None => diagnostics
        end in
      match exec re_routines msg with
      | Some m => parseUndeclared (js "routine") (grp m 1) diagnostics1
      | None => parseGenerics msg diagnostics1
      end
  end.

End Packaged.

(** ** Declarative reading of a pattern

    [sem r p0 s st st']: some way of matching [r] against a prefix of [s]
    leads from [st] to [st'], whatever the order in which the matcher tries
    the alternatives. *)
Fixpoint sem (r : regex) (p0 : nat) (s : jsstring) (st st' : mstate) : Prop :=
  match r with
  | [] => st' = st
  | One c :: r' =>
      exists a s', s = a :: s' /\ in_cls c a = true /\ sem r' p0 s' (adv [a] st) st'
  | Opt c :: r' =>
      (exists a s', s = a :: s' /\ in_cls c a = true /\ sem r' p0 s' (adv [a] st) st')
      \/ sem r' p0 s st st'
  | Star c :: r' | StarLazy c :: r' =>
      exists x s', s = x ++ s' /\ forallb (in_cls c) x = true
                   /\ sem r' p0 s' (adv x st) st'
  | Plus c :: r' =>
      exists x s', s = x ++ s' /\ x <> [] /\ forallb (in_cls c) x = true
                   /\ sem r' p0 s' (adv x st) st'
  | Open :: r' => sem r' p0 s (open_group st) st'
  | Close :: r' => sem r' p0 s (close_group st) st'
  | Bol :: r' => p0 = 0 /\ matched st = [] /\ sem r' p0 s st st'
  | Eol :: r' => s = [] /\ sem r' p0 s st st'
  end.

(** A pattern without [^] and [$]. *)
Definition anchor_free (r : regex) : bool :=
  forallb (fun a => match a with Bol | Eol => false | _ => true end) r.

(** The pattern with its capture groups made non-capturing. *)
Definition ungroup (r : regex) : regex :=
  filter (fun a => match a with Open | Close => false | _ => true end) r.

(** The text matched, if any. *)
Definition ends (x : option mstate) : option jsstring := option_map matched x.

(** ** Properties of continuations and of diagnostics used in the statements *)

(** More input never turns a match of [k] into a failure. *)
Definition extends (k : kont) : Prop :=
  forall s t st st1, k s st = Some st1 -> exists st2, k (s ++ t) st = Some st2.

(** A match of [k] depends only on the text it consumed. *)
Definition truncates (k : kont) : Prop :=
  forall s st st', k s st = Some st' ->
    exists x rest, s = x ++ rest /\ matched st' = matched st ++ x /\ k x st = Some st'.

(** [k1] and [k2] match the same text. *)
Definition same_ends (k1 k2 : kont) : Prop :=
  forall s st1 st2, matched st1 = matched st2 -> ends (k1 s st1) = ends (k2 s st2).

(** What every parser function pushes: an error on one line, from column 0 to
    column 1000, the line being a parsed line number minus one. *)
Definition emitted (d : Diagnostic) : Prop :=
  exists line_num msg, d = error_at line_num msg /\ at_least (-1) line_num.

(** The input left after a repetition of [c] does not start with a [c]. *)
Definition stops (c : cls) (s : jsstring) : Prop :=
  match s with
  | [] => True
  | a :: _ => in_cls c a = false
  end.

(** ** The shapes of compiler output *)

(** A generic error block: the finding, the line "at file:digits" and the
    line of the pointer to the place in the source. *)
Definition generic_block (finding file digits context : jsstring) : jsstring :=
  finding ++ 10%N :: js "at " ++ file ++ js ":" ++ digits
          ++ 10%N :: js "------> " ++ context.

(** The same block followed by [rest]. *)
Definition block_then (finding file digits context rest : jsstring) : jsstring :=
  finding ++ 10%N :: js "at " ++ file ++ js ":" ++ digits
          ++ 10%N :: js "------> " ++ context ++ rest.

(** What the generic patterns hold after the lazy file name, [tl] being what
    follows the pointer. *)
Definition after_file (tl : regex) : regex :=
  lit ":" ++ [Open; Plus Digit; Close; Opt (Chr 13%N); One (Chr 10%N)]
  ++ lit "------> " ++ tl.

(** The optional "s" of a header. *)
Definition plural_s (plural : bool) : jsstring :=
  if plural then [115%N] else [].

(** The header of a list of undeclared names or routines. *)
Definition list_header (what : string) (plural : bool) : jsstring :=
  js what ++ plural_s plural ++ js ":" ++ [10%N].

(** The patterns of the two list headers, as one. *)
Definition re_header (what : string) : regex :=
  lit what ++ [Opt (Chr 115%N)] ++ lit ":"
  ++ [Opt (Chr 13%N); One (Chr 10%N); Open; Plus Any; Close].

(** An entry of a list of undeclared names: its line is the indentation,
    the name, " used at line ", the digits and the advice. *)
Record list_entry : Type := {
  e_indent : jsstring;
  e_name : jsstring;
  e_digits : jsstring;
  e_advice : jsstring
}.

Definition entry_line (e : list_entry) : jsstring :=
  e_indent e ++ e_name e ++ js " used at line " ++ e_digits e ++ e_advice e.

Definition entry_ok (e : list_entry) : Prop :=
  e_indent e <> [] /\ forallb (in_cls Space) (e_indent e) = true
  /\ forallb (in_cls Dot) (e_indent e) = true
  /\ e_name e <> [] /\ forallb (in_cls NonSpace) (e_name e) = true
  /\ e_digits e <> [] /\ forallb is_digit (e_digits e) = true
  /\ forallb (in_cls Dot) (e_advice e) = true /\ stops Digit (e_advice e).

Definition entry_diagnostic (type : jsstring) (e : list_entry) : Diagnostic :=
  error_at (line_number (e_digits e))
    (type ++ js " " ++ e_name e ++ js " is not declared" ++ e_advice e).

Definition entry_match (e : list_entry) : RegExpExecArray :=
  {| index := 0;
     groups := [entry_line e; e_name e; e_digits e; e_advice e] |}.

(** The text of a list: one line per entry. *)
Definition list_text (es : list list_entry) : jsstring :=
  concat (List.map (fun e => entry_line e ++ [10%N]) es).

(** The diagnostic pushed for a list line matched as [m2]. *)
Definition undeclared_entry (type : jsstring) (m2 : RegExpExecArray) : Diagnostic :=
  error_at (line_number (grp m2 2))
    (type ++ js " " ++ grp m2 1 ++ js " is not declared" ++ grp m2 3).


(** The list lines after the entries: none, or a first line that is not an
    entry. *)
Definition list_ends (rest : list jsstring) : Prop :=
  match rest with
  | [] => True
  | stop :: _ => exec re_used_at stop = None
  end.

(** The whole of one line is marked. *)
Definition full_line (d : Diagnostic) : Prop :=
  character (start (range d)) = 0%Z
  /\ character (end_ (range d)) = 1000%Z
  /\ line (start (range d)) = line (end_ (range d)).

Definition compiler_error (d : Diagnostic) : Prop :=
  severity d = DiagnosticSeverity.Error
  /\ source d = js "perl6"
  /\ at_least (-1) (line (start (range d))).

(** ** Compiler output used in the examples *)

Definition LF : string := String "010"%char EmptyString.

Definition undeclared_names_text : jsstring :=
  js ("Undeclared names:" ++ LF ++ "  foo used at line 5" ++ LF
      ++ "  bar used at line 9 (did you mean 'baz'?)" ++ LF)%string.

Definition generic_block_text : jsstring :=
  js ("Variable '$x' is not declared" ++ LF ++ "at /tmp/f.p6:12" ++ LF
      ++ "------> my $y = $x;")%string.

Definition two_blocks_text : jsstring :=
  js ("Variable '$x' is not declared" ++ LF ++ "at /tmp/f.p6:12" ++ LF
      ++ "------> my $y = $x;" ++ LF
      ++ "Two terms in a row" ++ LF ++ "at /tmp/f.p6:20" ++ LF
      ++ "------> say 1 2")%string.

Definition long_finding_text : jsstring :=
  js ("Variable '$x' is not declared" ++ LF ++ "at /tmp/f.p6:12" ++ LF
      ++ "------> my $y = $x;" ++ LF
      ++ "Unable to parse expression in block; couldn't find final '}'" ++ LF
      ++ "Missing block" ++ LF ++ "at /tmp/f.p6:20" ++ LF
      ++ "------> say 1 2")%string.

Definition free_text : jsstring :=
  js ("===SORRY!=== Error while compiling /tmp/f.p6" ++ LF
      ++ "Something went wrong")%string.

Definition missing_lib_prefix : jsstring :=
  js ("===SORRY!=== Error while compiling /tmp/f.p6" ++ LF)%string.

Definition missing_lib_paths : jsstring :=
  js ("    /home/u/.perl6" ++ LF ++ "    /usr/share/perl6" ++ LF)%string.

Definition line_zero_text : jsstring :=
  js ("Could not find Foo at line 0 in:" ++ LF ++ "    /home/u/.perl6")%string.

Definition names_and_routines_text : jsstring :=
  js ("===SORRY!=== Error while compiling /tmp/f.p6" ++ LF
      ++ "Undeclared name:" ++ LF ++ "    Foo used at line 1" ++ LF
      ++ "Undeclared routine:" ++ LF
      ++ "    bar used at line 2. Did you mean 'VAR', 'bag'?" ++ LF)%string.

Definition interrupted_list : jsstring :=
  js ("    foo used at line 1" ++ LF ++ "oops" ++ LF
      ++ "    bar used at line 2" ++ LF)%string.

(** A missing library reported at a line from 2^53 on: 2^53 + 1. *)
Definition large_line_text : jsstring :=
  js ("Could not find Foo at line 9007199254740993 in:" ++ LF
      ++ "    /home/u/.perl6")%string.


(** ** Further shapes used in the statements *)

(** What the generic patterns push when they match: the line is the number
    read minus one and the finding holds no line break. *)
Definition generic_diagnostic (d : Diagnostic) : Prop :=
  exists finding digits,
    d = error_at (line_number digits) finding
    /\ forallb (in_cls Dot) finding = true
    /\ digits <> [] /\ forallb is_digit digits = true.

(** The text of a list whose lines end with [br]. *)
Definition list_text_with (br : jsstring) (es : list list_entry) : jsstring :=
  concat (List.map (fun e => entry_line e ++ br) es).

(** A line feed, or a carriage return and a line feed. *)
Definition line_break (br : jsstring) : Prop :=
  br = [10%N] \/ br = [13%N; 10%N].

(** A block whose finding, file name and pointer line hold no line break and
    whose line number is written in digits. *)
Definition block_ok (f file n c : jsstring) : Prop :=
  forallb (in_cls Dot) f = true /\ forallb (in_cls Dot) file = true
  /\ n <> [] /\ forallb is_digit n = true /\ forallb (in_cls Dot) c = true.

(** None of the first three shapes. *)
Definition no_list_shape (msg : jsstring) : Prop :=
  exec re_missing msg = None /\ exec re_names msg = None
  /\ exec re_routines msg = None.

(** Two entries used in the examples. *)
Definition foo_entry : list_entry :=
  {| e_indent := js "    "; e_name := js "foo"; e_digits := js "5"; e_advice := [] |}.

Definition bar_entry : list_entry :=
  {| e_indent := js "    "; e_name := js "bar"; e_digits := js "9";
     e_advice := js " (did you mean 'baz'?)" |}.

(** The number of line feeds of a text. *)
Definition line_feeds (s : jsstring) : nat := count_occ N.eq_dec s 10%N.

(** What the loop of [parse_generics] reports once more when its slice has
    left a block without its first [cut] code units: the rest of the finding,
    if the cut fell within the finding. *)
Definition cut_report (f n : jsstring) (cut : nat) : list Diagnostic :=
  if cut <=? length f then [error_at (line_number n) (skipn cut f)] else [].

(** A line of compiler output before a block. *)
Definition expression_line : jsstring := js "Unable to parse expression in block;".

(** Nothing, or one line and its line feed. *)
Definition line_before (pre : jsstring) : Prop :=
  pre = [] \/ exists l, forallb (in_cls Dot) l = true /\ pre = l ++ [10%N].

(** ** The world around the extractor: files, processes, the connection

    The handlers of the server run one at a time, each to its end.  A
    handler that validates a document writes the text to a temporary file
    and starts the compiler; the end of the compiler is a later event, for
    which the callback given to [exec] runs.  The handlers are modelled as
    functions on the state they read and change; the name that
    [tmp.tmpNameSync] returns and what the compiler process hands to the
    callback are arguments.  [ServerTsRun] holds the handlers of
    [src/server/src/server.ts], [PackagedRun] those of the source appended to
    [src/client/package.json]. *)

(** A document of the text document manager. *)
Record TextDocument : Type := { uri : jsstring; getText : jsstring }.

(** The file system: the files that exist, with their content. *)
Definition file_system := list (jsstring * jsstring).

Definition same_path (a b : jsstring) : bool :=
  if list_eq_dec N.eq_dec a b then true else false.

(** [fs.existsSync(path)] *)
Definition existsSync (path : jsstring) (fs : file_system) : bool :=
  existsb (fun e => same_path (fst e) path) fs.

Definition without (path : jsstring) (fs : file_system) : file_system :=
  filter (fun e => negb (same_path (fst e) path)) fs.

(** [fs.writeFileSync(path, data)]: the file is created or replaced. *)
Definition writeFileSync (path data : jsstring) (fs : file_system) : file_system :=
  (path, data) :: without path fs.

(** [fs.unlinkSync(path)]: [None] when it throws, the file not being there. *)
Definition unlinkSync (path : jsstring) (fs : file_system) : option file_system :=
  if existsSync path fs then Some (without path fs) else None.

(** What the handlers read and change. *)
Record World : Type := {
  files : file_system;
  RAKUDO_ERROR_COLOR : option jsstring;  (* process.env.RAKUDO_ERROR_COLOR *)
  perl6Path : option jsstring;           (* the variable of that name, undefined at first *)
  maxNumberOfProblems : option Z;        (* the variable of that name, undefined at first *)
  spawned : list jsstring;               (* the command lines given to exec, oldest first *)
  sent : list (jsstring * list Diagnostic);   (* connection.sendDiagnostics *)
  shown : list jsstring;                 (* connection.window.showErrorMessage *)
  logged : list jsstring                 (* connection.console.log *)
}.

Definition set_files (fs : file_system) (w : World) : World :=
  {| files := fs; RAKUDO_ERROR_COLOR := RAKUDO_ERROR_COLOR w;
     perl6Path := perl6Path w;
     maxNumberOfProblems := maxNumberOfProblems w; spawned := spawned w; sent := sent w;
     shown := shown w; logged := logged w |}.

(** [process.env.RAKUDO_ERROR_COLOR = 0]: the environment holds strings. *)
Definition set_color (w : World) : World :=
  {| files := files w; RAKUDO_ERROR_COLOR := Some (js "0");
     perl6Path := perl6Path w;
     maxNumberOfProblems := maxNumberOfProblems w; spawned := spawned w; sent := sent w;
     shown := shown w; logged := logged w |}.

Definition set_maxNumberOfProblems (n : Z) (w : World) : World :=
  {| files := files w; RAKUDO_ERROR_COLOR := RAKUDO_ERROR_COLOR w;
     perl6Path := perl6Path w; maxNumberOfProblems := Some n;
     spawned := spawned w; sent := sent w;
     shown := shown w; logged := logged w |}.

Definition set_perl6Path (p : jsstring) (w : World) : World :=
  {| files := files w; RAKUDO_ERROR_COLOR := RAKUDO_ERROR_COLOR w;
     perl6Path := Some p;
     maxNumberOfProblems := maxNumberOfProblems w; spawned := spawned w; sent := sent w;
     shown := shown w; logged := logged w |}.

(** [exec(command, ...)]: the process is started; its end is an event of its
    own, see the callbacks. *)
Definition exec_command (command : jsstring) (w : World) : World :=
  {| files := files w; RAKUDO_ERROR_COLOR := RAKUDO_ERROR_COLOR w;
     perl6Path := perl6Path w;
     maxNumberOfProblems := maxNumberOfProblems w;
     spawned := spawned w ++ [command]; sent := sent w;
     shown := shown w; logged := logged w |}.

Definition sendDiagnostics (u : jsstring) (diagnostics : list Diagnostic)
           (w : World) : World :=
  {| files := files w; RAKUDO_ERROR_COLOR := RAKUDO_ERROR_COLOR w;
     perl6Path := perl6Path w;
     maxNumberOfProblems := maxNumberOfProblems w; spawned := spawned w;
     sent := sent w ++ [(u, diagnostics)];
     shown := shown w; logged := logged w |}.

Definition showErrorMessage (text : jsstring) (w : World) : World :=
  {| files := files w; RAKUDO_ERROR_COLOR := RAKUDO_ERROR_COLOR w;
     perl6Path := perl6Path w;
     maxNumberOfProblems := maxNumberOfProblems w; spawned := spawned w; sent := sent w;
     shown := shown w ++ [text]; logged := logged w |}.

Definition log (text : jsstring) (w : World) : World :=
  {| files := files w; RAKUDO_ERROR_COLOR := RAKUDO_ERROR_COLOR w;
     perl6Path := perl6Path w;
     maxNumberOfProblems := maxNumberOfProblems w; spawned := spawned w; sent := sent w;
     shown := shown w; logged := logged w ++ [text] |}.

(** What a handler leaves behind: the world, and what it threw if it did. *)
Inductive thrown : Type :=
| ENOENT (path : jsstring)     (* unlinkSync on a file that is not there *)
| SettingsTypeError            (* a setting read from an undefined section *)
| ParserTypeError              (* from parse_generic_single *)
| ParserOutOfFuel.             (* the loop bound of the model *)

Inductive handled : Type :=
| Done (w : World)
| Threw (e : thrown) (w : World).

(** What the callback of [exec] in [validateTextDocument] closes over. *)
Record Pending : Type := { p_tmpfile : jsstring; p_uri : jsstring }.

(** [error && stderr], [error] being an object or null. *)
Definition failed_with_output (error : bool) (stderr : jsstring) : bool :=
  error && match stderr with [] => false | _ :: _ => true end.

(** The events of a session the handlers below are called for: a document
    was opened or changed ([documents.onDidChangeContent]), [tmpfile] being the
    name [tmpNameSync] returns in the validation; and a compiler process
    ended, [p] being what its callback closes over. *)
Inductive event : Type :=
| ContentChanged (document : TextDocument) (tmpfile : jsstring)
| ProcessEnded (p : Pending) (error : bool) (stdout stderr : jsstring).

Definition on_world (f : World -> World) (r : handled) : handled :=
  match r with
  | Done w => Done (f w)
  | Threw e w => Threw e (f w)
  end.

Module ServerTsRun.

(** [validateTextDocument] up to the call of [exec]; the array [diagnostics]
    it creates is empty until the callback runs. *)
Definition validateTextDocument (textDocument : TextDocument) (tmpfile : jsstring)
           (w : World) : World * Pending :=
  let w := set_color w in
  let w := set_files (writeFileSync tmpfile (getText textDocument) (files w)) w in
  let w := exec_command (js "perl6 -c " ++ [34%N] ++ tmpfile ++ [34%N]) w in
  (w, {| p_tmpfile := tmpfile; p_uri := uri textDocument |}).

(** The callback given to [exec] in [validateTextDocument]. *)
Definition callback (p : Pending) (error : bool) (stdout stderr : jsstring)
           (w : World) : handled :=
  match unlinkSync (p_tmpfile p) (files w) with
  | None => Threw (ENOENT (p_tmpfile p)) w
  | Some fs =>
      let w := set_files fs w in
      let diagnostics : list Diagnostic := [] in
      match (if failed_with_output error stderr
             then ServerTs.parseErrorMessage stderr diagnostics
             else Ok diagnostics) with
      | Ok diagnostics => Done (sendDiagnostics (p_uri p) diagnostics w)
      | TypeError => Threw ParserTypeError w
      | OutOfFuel => Threw ParserOutOfFuel w
      end
  end.

(** [documents.all().forEach(validateTextDocument)]: each document comes with
    the name [tmpNameSync] returns in its validation. *)
Fixpoint validate_all (docs : list (TextDocument * jsstring)) (w : World)
  : World * list Pending :=
  match docs with
  | [] => (w, [])
  | (d, tmpfile) :: ds =>
      let '(w, p) := validateTextDocument d tmpfile w in
      let '(w, ps) := validate_all ds w in
      (w, p :: ps)
  end.

(** [connection.onDidChangeConfiguration]: [languageServerPerl6] is the
    section of that name in [change.settings], [None] when the settings have
    no such section, and holds [maxNumberOfProblems]; [docs] is
    [documents.all()]. *)
Definition onDidChangeConfiguration (languageServerPerl6 : option (option Z))
           (docs : list (TextDocument * jsstring)) (w : World)
  : handled * list Pending :=
  match languageServerPerl6 with
  | None => (Threw SettingsTypeError w, [])   (* maxNumberOfProblems of undefined *)
  | Some setting =>
      let n :=
        match setting with
        | Some n => if (n =? 0)%Z then 100%Z else n      (* n || 100 *)
        | None => 100%Z
        end in
      let '(w, ps) := validate_all docs (set_maxNumberOfProblems n w) in
      (Done w, ps)
  end.

(** The handlers called for the events in turn; an exception ends the run. *)
Fixpoint run_events (evs : list event) (w : World) : handled :=
  match evs with
  | [] => Done w
  | ContentChanged document tmpfile :: evs =>
      run_events evs (fst (validateTextDocument document tmpfile w))
  | ProcessEnded p error stdout stderr :: evs =>
      match callback p error stdout stderr w with
      | Done w => run_events evs w
      | Threw e w => Threw e w
      end
  end.

End ServerTsRun.

(** [perl6Path + ...]: the variable holds a string or is still undefined. *)
Definition path_text (p : option jsstring) : jsstring :=
  match p with
  | Some s => s
  | None => js "undefined"
  end.

Definition TAB : string := String "009"%char EmptyString.

Module PackagedRun.

Section Libraries.

(** [Uri.parse(uri).fsPath] of vscode-uri and [JSON.stringify]. *)
Variable fsPath : jsstring -> jsstring.
Variable stringify : list Diagnostic -> jsstring.

Definition checkExec (path : option jsstring) (w : World) : World :=
  let w := set_color w in
  let w :=
    match path with
    | Some (a :: p) => set_perl6Path (a :: p) w    (* if (path) *)
    | _ => set_perl6Path (js "perl6") w
    end in
  exec_command (path_text (perl6Path w) ++ js " -v") w.

(** The callback of [exec] in [checkExec]. *)
Definition checkExec_callback (error : bool) (stdout stderr : jsstring)
           (w : World) : World :=
  if failed_with_output error stderr then showErrorMessage stderr w else w.

Definition validateTextDocument (textDocument : TextDocument) (tmpfile : jsstring)
           (w : World) : World * Pending :=
  let w := log (js (TAB ++ "Validating...")) w in
  let path := fsPath (uri textDocument) in
  let w := log (js (TAB ++ TAB ++ "File: ") ++ path) w in
  let w := set_color w in
  let w := log (js (TAB ++ TAB ++ "Temp: ") ++ tmpfile) w in
  let w := set_files (writeFileSync tmpfile (getText textDocument) (files w)) w in
  let w := log (js (TAB ++ TAB ++ "Running perl6...")) w in
  let w := exec_command
             (path_text (perl6Path w) ++ js " -c " ++ [34%N] ++ tmpfile ++ [34%N]) w in
  (w, {| p_tmpfile := tmpfile; p_uri := uri textDocument |}).

Definition callback (p : Pending) (error : bool) (stdout stderr : jsstring)
           (w : World) : handled :=
  match unlinkSync (p_tmpfile p) (files w) with
  | None => Threw (ENOENT (p_tmpfile p)) w
  | Some fs =>
      let w := set_files fs w in
      let diagnostics : list Diagnostic := [] in
      let '(w, diagnostics) :=
        if failed_with_output error stderr
        then (log (js (TAB ++ TAB ++ "stdErr: ") ++ stderr) w,
              Packaged.parseErrorMessage stderr diagnostics)
        else (w, diagnostics) in
      let w := log (js "Diag: " ++ stringify diagnostics) w in
      Done (sendDiagnostics (p_uri p) diagnostics w)
  end.

(** [documents.all().forEach(validateTextDocument)]: each document comes with
    the name [tmpNameSync] returns in its validation. *)
Fixpoint validate_all (docs : list (TextDocument * jsstring)) (w : World)
  : World * list Pending :=
  match docs with
  | [] => (w, [])
  | (d, tmpfile) :: ds =>
      let '(w, p) := validateTextDocument d tmpfile w in
      let '(w, ps) := validate_all ds w in
      (w, p :: ps)
  end.

(** [connection.onDidChangeConfiguration]: [perl6] is [change.settings.perl6],
    [None] when the settings have no such section, and holds [path]; [docs]
    is [documents.all()]. *)
Definition onDidChangeConfiguration (perl6 : option (option jsstring))
           (docs : list (TextDocument * jsstring)) (w : World)
  : handled * list Pending :=
  match perl6 with
  | None => (Threw SettingsTypeError w, [])      (* path of undefined *)
  | Some path =>
      let '(w, ps) := validate_all docs (checkExec path w) in
      (Done w, ps)
  end.

(** The handlers called for the events in turn; an exception ends the run. *)
Fixpoint run_events (evs : list event) (w : World) : handled :=
  match evs with
  | [] => Done w
  | ContentChanged document tmpfile :: evs =>
      run_events evs (fst (validateTextDocument document tmpfile w))
  | ProcessEnded p error stdout stderr :: evs =>
      match callback p error stdout stderr w with
      | Done w => run_events evs w
      | Threw e w => Threw e w
      end
  end.

End Libraries.

End PackagedRun.

(** ** Completion *)

Module CompletionItemKind.
Inductive t : Type := Text | Method | Function | Other (n : Z).
End CompletionItemKind.

(** The values [data] takes in the source and is compared with. *)
Inductive jsvalue : Type :=
| Undefined
| Num (n : Z)
| Str (s : jsstring)
| AnyOther.

Record CompletionItem : Type := {
  label : jsstring;
  kind : CompletionItemKind.t;
  data : jsvalue;
  detail : option jsstring;
  documentation : option jsstring
}.

(** [item.data === n] *)
Definition data_is (n : Z) (item : CompletionItem) : bool :=
  match data item with
  | Num m => (m =? n)%Z
  | _ => false
  end.

(** The handler of [connection.onCompletion]; the position is not read. *)
Definition onCompletion (_textDocumentPosition : jsstring * (Z * Z))
  : list CompletionItem :=
  [ {| label := js "TypeScript"; kind := CompletionItemKind.Text; data := Num 1;
       detail := None; documentation := None |};
    {| label := js "JavaScript"; kind := CompletionItemKind.Text; data := Num 2;
       detail := None; documentation := None |} ].

(** The handler of [connection.onCompletionResolve]. *)
Definition onCompletionResolve (item : CompletionItem) : CompletionItem :=
  if data_is 1 item then
    {| label := label item; kind := kind item; data := data item;
       detail := Some (js "TypeScript details");
       documentation := Some (js "TypeScript documentation") |}
  else if data_is 2 item then
    {| label := label item; kind := kind item; data := data item;
       detail := Some (js "JavaScript details");
       documentation := Some (js "JavaScript documentation") |}
  else item.



(** ** Sessions *)

Definition pending_of (document : TextDocument) (tmpfile : jsstring) : Pending :=
  {| p_tmpfile := tmpfile; p_uri := uri document |}.

Definition changed (d : TextDocument * jsstring) : event :=
  ContentChanged (fst d) (snd d).

Definition remove_pending (p : Pending) (out : list Pending) : list Pending :=
  filter (fun q => negb (same_path (p_tmpfile q) (p_tmpfile p))) out.

(** The validations whose process has not ended, latest first, after the
    events [evs], [out] being those before. *)
Fixpoint outstanding (out : list Pending) (evs : list event) : list Pending :=
  match evs with
  | [] => out
  | ContentChanged d t :: evs => outstanding (pending_of d t :: out) evs
  | ProcessEnded p _ _ _ :: evs => outstanding (remove_pending p out) evs
  end.

(** What the libraries see to: a temporary name is the name of no file,
    neither of [base], the files the server did not write, nor of a
    validation under way; and a process ends once, after it was started. *)
Fixpoint scheduled (base : file_system) (out : list Pending) (evs : list event)
  : Prop :=
  match evs with
  | [] => True
  | ContentChanged d t :: evs =>
      existsSync t base = false /\ ~ In t (List.map p_tmpfile out)
      /\ scheduled base (pending_of d t :: out) evs
  | ProcessEnded p _ _ _ :: evs =>
      In p out /\ scheduled base (remove_pending p out) evs
  end.

(** The diagnostics of a notification of server.ts; by
    [server_parseErrorMessage_total] the extractor returns. *)
Definition server_reported (error : bool) (stderr : jsstring) : list Diagnostic :=
  if failed_with_output error stderr then
    match ServerTs.parseErrorMessage stderr [] with
    | Ok batch => batch
    | _ => []
    end
  else [].

Definition packaged_reported (error : bool) (stderr : jsstring) : list Diagnostic :=
  if failed_with_output error stderr
  then Packaged.parseErrorMessage stderr []
  else [].

(** One notification for each process that ended, in that order. *)
Fixpoint notifications (reported : bool -> jsstring -> list Diagnostic)
         (evs : list event) : list (jsstring * list Diagnostic) :=
  match evs with
  | [] => []
  | ContentChanged _ _ :: evs => notifications reported evs
  | ProcessEnded p error _ stderr :: evs =>
      (p_uri p, reported error stderr) :: notifications reported evs
  end.

(** One command for each validation, run by [interpreter]. *)
Definition compile_command (interpreter tmpfile : jsstring) : jsstring :=
  interpreter ++ js " -c " ++ [34%N] ++ tmpfile ++ [34%N].

Fixpoint commands (interpreter : jsstring) (evs : list event) : list jsstring :=
  match evs with
  | [] => []
  | ContentChanged _ t :: evs => compile_command interpreter t :: commands interpreter evs
  | ProcessEnded _ _ _ _ :: evs => commands interpreter evs
  end.

(** The files a session has written and not removed, over the others. *)
Definition temporaries (base : file_system) (out : list Pending)
           (fs : file_system) : Prop :=
  exists entries,
    fs = entries ++ base
    /\ List.map fst entries = List.map p_tmpfile out
    /\ NoDup (List.map p_tmpfile out)
    /\ Forall (fun t => existsSync t base = false) (List.map p_tmpfile out).

(** [n || 100] *)
Definition or_100 (setting : option Z) : Z :=
  match setting with
  | Some n => if (n =? 0)%Z then 100%Z else n
  | None => 100%Z
  end.

(** [if (path) ... else "perl6"] *)
Definition chosen (path : option jsstring) : jsstring :=
  match path with
  | Some (a :: p) => a :: p
  | _ => js "perl6"
  end.

(** ** A session used in the examples *)

Definition quiet_world : World :=
  {| files := [(js "/home/u/a.p6", js "say 1")];
     RAKUDO_ERROR_COLOR := None; perl6Path := None; maxNumberOfProblems := None;
     spawned := []; sent := []; shown := []; logged := [] |}.

Definition first_text : TextDocument :=
  {| uri := js "file:///home/u/a.p6"; getText := js "my $y = $x;" |}.

Definition second_text : TextDocument :=
  {| uri := js "file:///home/u/a.p6"; getText := js "my $x = 1; my $y = $x;" |}.

(** Stand-ins for the two library functions of the packaged copy. *)
Definition local_path (u : jsstring) : jsstring := skipn 7 u.
Definition no_text (_ : list Diagnostic) : jsstring := js "[...]".

Definition first_tmp : jsstring := js "/tmp/vscode-perl6-1.p6".
Definition second_tmp : jsstring := js "/tmp/vscode-perl6-2.p6".

(** Two validations of one document under way at once, the later one ending
    first. *)
Definition overlapping_runs : list event :=
  [ ContentChanged first_text first_tmp;
    ContentChanged second_text second_tmp;
    ProcessEnded (pending_of second_text second_tmp) false [] [];
    ProcessEnded (pending_of first_text first_tmp) true [] generic_block_text ].

(** ** The objects of a run

    The parser functions above are functions of the text; the source works
    on objects that carry state from one call to the next: the array of
    diagnostics, changed by [push], and the RegExp objects, whose [lastIndex]
    is read and written by [exec] when the object has the [g] flag.  Here the
    same source is embedded over a store of such objects.  A regular
    expression literal creates a new RegExp object each time it is evaluated,
    with [lastIndex] 0.  The legacy static properties of [RegExp], which
    [exec] writes as well, are read nowhere in the source and are left
    out. *)

Record RegExpObject : Type := {
  pattern : regex;
  global : bool;          (* the g flag *)
  lastIndex : nat
}.

(** The objects by address, in the order of their creation. *)
Record Store : Type := {
  regexps : list RegExpObject;
  arrays : list (list Diagnostic)
}.

(** A computation on the store that returns or throws. *)
Definition stateful (A : Type) : Type := Store -> outcome (A * Store).

Definition ret {A : Type} (a : A) : stateful A := fun h => Ok (a, h).

Definition sbind {A B : Type} (c : stateful A) (k : A -> stateful B) : stateful B :=
  fun h =>
    match c h with
    | Ok (a, h') => k a h'
    | TypeError => TypeError
    | OutOfFuel => OutOfFuel
    end.

Notation "x <~ c ;; k" := (sbind c (fun x => k))
  (at level 61, c at next level, right associativity).

(** The list [l] with [x] at index [a]. *)
Fixpoint update {A : Type} (l : list A) (a : nat) (x : A) : list A :=
  match l, a with
  | [], _ => []
  | _ :: l', O => x :: l'
  | y :: l', S a' => y :: update l' a' x
  end.

(** The store with one more RegExp object. *)
Definition with_RegExp (h : Store) (r : regex) (g : bool) : Store :=
  {| regexps := regexps h ++ [{| pattern := r; global := g; lastIndex := 0 |}];
     arrays := arrays h |}.

(** A regular expression literal is evaluated. *)
Definition new_RegExp (r : regex) (g : bool) : stateful nat :=
  fun h => Ok (length (regexps h), with_RegExp h r g).

Definition set_lastIndex (a i : nat) : stateful unit :=
  fun h =>
    match nth_error (regexps h) a with
    | Some o =>
        Ok (tt, {| regexps := update (regexps h) a
                                {| pattern := pattern o; global := global o;
                                   lastIndex := i |};
                   arrays := arrays h |})
    | None => TypeError
    end.

(** [RegExp.prototype.exec]: without the [g] flag the search starts at index
    0 and [lastIndex] is left as it is; with the flag the search starts at
    [lastIndex], which becomes the end of the match, or 0 when there is
    none. *)
Definition RegExp_exec (a : nat) (s : jsstring) : stateful (option RegExpExecArray) :=
  fun h =>
    match nth_error (regexps h) a with
    | None => TypeError
    | Some o =>
        if global o then
          if length s <? lastIndex o then
            (_ <~ set_lastIndex a 0 ;; ret None) h
          else
            match search (pattern o) (skipn (lastIndex o) s) (lastIndex o) with
            | Some (p, st) =>
                (_ <~ set_lastIndex a (p + length (matched st)) ;;
                 ret (Some {| index := p; groups := matched st :: caps st |})) h
            | None => (_ <~ set_lastIndex a 0 ;; ret None) h
            end
        else Ok (exec (pattern o) s, h)
    end.

(** The rounds of [String.prototype.replace] with a RegExp object and the
    empty string: each match found by [exec] is left out; without the [g]
    flag there is one round. *)
Fixpoint replace_rounds (fuel : nat) (a : nat) (g : bool) (s : jsstring)
         (next : nat) : stateful jsstring :=
  m <~ RegExp_exec a s ;;
  match m with
  | None => ret (skipn next s)
  | Some m =>
      let position := index m in
      let len := length (grp m 0) in
      let kept := firstn (position - next) (skipn next s) in
      if g then
        match fuel with
        | O => fun _ => OutOfFuel
        | S fuel' =>
            _ <~ (if len =? 0 then set_lastIndex a (S position) else ret tt) ;;
            rest <~ replace_rounds fuel' a g s (position + len) ;;
            ret (kept ++ rest)
        end
      else ret (kept ++ skipn (position + len) s)
  end.

Definition String_replace (a : nat) (s : jsstring) : stateful jsstring :=
  fun h =>
    match nth_error (regexps h) a with
    | None => TypeError
    | Some o =>
        (_ <~ (if global o then set_lastIndex a 0 else ret tt) ;;
         replace_rounds (S (length s)) a (global o) s 0) h
    end.

(** The separator of the [split] of the source.  [split] matches with a
    matcher of its own and neither reads nor writes the [lastIndex] of its
    separator. *)
Definition re_line_break : regex := [Opt (Chr 13%N); One (Chr 10%N)].

(** [lines.split(separator)], the separator being the literal of the
    source. *)
Definition String_split (lines : jsstring) : stateful (list jsstring) :=
  _ <~ new_RegExp re_line_break true ;;
  ret (split_lines lines).

(** The array literal without elements is evaluated. *)
Definition new_Array : stateful nat :=
  fun h =>
    Ok (length (arrays h),
        {| regexps := regexps h; arrays := arrays h ++ [[]] |}).

(** [diagnostics.push(d)] *)
Definition Array_push (a : nat) (d : Diagnostic) : stateful unit :=
  fun h =>
    match nth_error (arrays h) a with
    | Some l =>
        Ok (tt, {| regexps := regexps h; arrays := update (arrays h) a (push l d) |})
    | None => TypeError
    end.

(** The elements of an array. *)
Definition Array_elements (a : nat) : stateful (list Diagnostic) :=
  fun h =>
    match nth_error (arrays h) a with
    | Some l => Ok (l, h)
    | None => TypeError
    end.

(** The parser functions that the two copies share, the array being given
    by its address. *)
Module OnObjects.

Fixpoint undeclared_lines (type : jsstring) (next_lines : list jsstring)
         (diagnostics : nat) : stateful unit :=
  match next_lines with
  | [] => ret tt
  | line :: rest =>
      re <~ new_RegExp re_used_at false ;;
      m2 <~ RegExp_exec re line ;;
      match m2 with
      | Some m2 =>
          let name := grp m2 1 in
          let line_num := minus_one (to_number (grp m2 2)) in
          let advice := grp m2 3 in
          _ <~ Array_push diagnostics
                 (error_at line_num
                    (type ++ js " " ++ name ++ js " is not declared" ++ advice)) ;;
          undeclared_lines type rest diagnostics
      | None => ret tt               (* break *)
      end
  end.

Definition parse_undeclared (type lines : jsstring) (diagnostics : nat)
  : stateful unit :=
  next_lines <~ String_split lines ;;
  undeclared_lines type next_lines diagnostics.

Definition parse_missing_libs (m : RegExpExecArray) (diagnostics : nat)
  : stateful unit :=
  let missing_lib := grp m 1 in
  let line_num := minus_one (to_number (grp m 2)) in
  let lib_paths := grp m 3 in
  Array_push diagnostics
    (error_at line_num
       (js "Could not find " ++ missing_lib ++ js " in:" ++ [10%N] ++ lib_paths)).

End OnObjects.

(** src/server/src/server.ts *)
Module ServerTsOnObjects.

Definition parse_generic_single (msg : jsstring) (diagnostics : nat)
  : stateful unit :=
  re <~ new_RegExp re_generic_single false ;;
  m <~ RegExp_exec re msg ;;
  match m with
  | None => fun _ => TypeError        (* m[1] of null *)
  | Some m =>
      let finding := grp m 1 in
      let line_num := minus_one (to_number (grp m 2)) in
      Array_push diagnostics (error_at line_num finding)
  end.

Fixpoint generics_loop (fuel : nat) (text : jsstring) (diagnostics : nat)
  : stateful unit :=
  re <~ new_RegExp re_generic false ;;
  reea <~ RegExp_exec re text ;;
  match reea with
  | None => ret tt
  | Some reea =>
      match fuel with
      | O => fun _ => OutOfFuel
      | S fuel' =>
          let single := grp reea 0 in
          _ <~ parse_generic_single single diagnostics ;;
          generics_loop fuel' (slice text (length single)) diagnostics
      end
  end.

Definition parse_generics (msg : jsstring) (diagnostics : nat) : stateful unit :=
  re <~ new_RegExp re_sorry false ;;
  text <~ String_replace re msg ;;
  generics_loop (length text) text diagnostics.

Definition parseErrorMessage (msg : jsstring) (diagnostics : nat) : stateful unit :=
  re <~ new_RegExp re_missing false ;;
  m <~ RegExp_exec re msg ;;
  match m with
  | Some m => OnObjects.parse_missing_libs m diagnostics
  | None =>
      re <~ new_RegExp re_names false ;;
      m <~ RegExp_exec re msg ;;
      _ <~ match m with
           | Some m => OnObjects.parse_undeclared (js "name") (grp m 1) diagnostics
           | None => ret tt
           end ;;
      re <~ new_RegExp re_routines false ;;
      m <~ RegExp_exec re msg ;;
      match m with
      | Some m => OnObjects.parse_undeclared (js "routine") (grp m 1) diagnostics
      | None => parse_generics msg diagnostics
      end
  end.

(** One run of the extractor as [validateTextDocument] and its callback make
    it: on a new, empty array, whose elements are the batch. *)
Definition extract (msg : jsstring) : stateful (list Diagnostic) :=
  diagnostics <~ new_Array ;;
  _ <~ parseErrorMessage msg diagnostics ;;
  Array_elements diagnostics.

End ServerTsOnObjects.

(** The server source appended to src/client/package.json *)
Module PackagedOnObjects.

Definition parseGenerics (msg : jsstring) (diagnostics : nat) : stateful unit :=
  re <~ new_RegExp re_sorry false ;;
  text <~ String_replace re msg ;;
  re <~ new_RegExp re_generic_first false ;;
  m <~ RegExp_exec re text ;;
  let '(finding, line_num) :=
    match m with
    | Some m => (grp m 1, minus_one (to_number (grp m 2)))
    | None => (text, Fin 0)
    end in
  Array_push diagnostics (error_at line_num finding).

Definition parseErrorMessage (msg : jsstring) (diagnostics : nat) : stateful unit :=
  re <~ new_RegExp re_missing false ;;
  m <~ RegExp_exec re msg ;;
  match m with
  | Some m => OnObjects.parse_missing_libs m diagnostics
  | None =>
      re <~ new_RegExp re_names false ;;
      m <~ RegExp_exec re msg ;;
      _ <~ match m with
           | Some m => OnObjects.parse_undeclared (js "name") (grp m 1) diagnostics
           | None => ret tt
           end ;;
      re <~ new_RegExp re_routines false ;;
      m <~ RegExp_exec re msg ;;
      match m with
      | Some m => OnObjects.parse_undeclared (js "routine") (grp m 1) diagnostics
      | None => parseGenerics msg diagnostics
      end
  end.

Definition extract (msg : jsstring) : stateful (list Diagnostic) :=
  diagnostics <~ new_Array ;;
  _ <~ parseErrorMessage msg diagnostics ;;
  Array_elements diagnostics.

End PackagedOnObjects.

(** The array at address [a] holds [l]. *)
Definition holds (h : Store) (a : nat) (l : list Diagnostic) : Prop :=
  nth_error (arrays h) a = Some l.

(** A run on the array at [a] ends as the function of the text does: with
    its result in the array, or with the same exception. *)
Definition agrees (r : outcome (unit * Store)) (a : nat)
           (p : outcome (list Diagnostic)) : Prop :=
  match p with
  | Ok l => exists h', r = Ok (tt, h') /\ holds h' a l
  | TypeError => r = TypeError
  | OutOfFuel => r = OutOfFuel
  end.

(** * Properties of the matcher *)

Lemma adv_nil st : adv [] st = st.
Proof. destruct st; unfold adv; simpl; now rewrite !app_nil_r. Qed.

Lemma adv_adv x y st : adv y (adv x st) = adv (x ++ y) st.
Proof. unfold adv; simpl; now rewrite !app_assoc. Qed.

Lemma adv_cons a x st : adv x (adv [a] st) = adv (a :: x) st.
Proof. now rewrite adv_adv. Qed.

Lemma orelse_some x y st :
  orelse x y = Some st -> x = Some st \/ (x = None /\ y = Some st).
Proof. destruct x; simpl; intros H; [left | right]; auto. Qed.

(** *** Soundness with respect to the declarative reading *)

Lemma greedy_inv c k s : forall st st',
  greedy c k s st = Some st' ->
  exists x s', s = x ++ s' /\ forallb (in_cls c) x = true /\ k s' (adv x st) = Some st'.
Proof.
  induction s as [|a s IH]; intros st st' H; simpl in H.
  - exists [], []. rewrite adv_nil. auto.
  - destruct (in_cls c a) eqn:Ha.
    + apply orelse_some in H. destruct H as [H | [_ H]].
      * apply IH in H. destruct H as (x & s' & -> & Hx & Hk).
        exists (a :: x), s'. simpl. rewrite Ha, Hx. rewrite adv_cons in Hk. auto.
      * exists [], (a :: s). rewrite adv_nil. auto.
    + exists [], (a :: s). rewrite adv_nil. auto.
Qed.

Lemma lazy_inv c k s : forall st st',
  lazy c k s st = Some st' ->
  exists x s', s = x ++ s' /\ forallb (in_cls c) x = true /\ k s' (adv x st) = Some st'.
Proof.
  induction s as [|a s IH]; intros st st' H; simpl in H.
  - destruct (k [] st) eqn:Hk; [|discriminate]. inversion H; subst.
    exists [], []. rewrite adv_nil. auto.
  - destruct (k (a :: s) st) eqn:Hk.
    + inversion H; subst. exists [], (a :: s). rewrite adv_nil. auto.
    + destruct (in_cls c a) eqn:Ha; [|discriminate].
      apply IH in H. destruct H as (x & s' & -> & Hx & Hk').
      exists (a :: x), s'. simpl. rewrite Ha, Hx. rewrite adv_cons in Hk'. auto.
Qed.

Lemma run_sound r p0 : forall s st st',
  run r p0 s st = Some st' -> sem r p0 s st st'.
Proof.
  induction r as [|a r IH]; intros s st st' H; simpl in H.
  - inversion H; reflexivity.
  - destruct a; simpl.
    + destruct s as [|b s]; [discriminate|].
      destruct (in_cls c b) eqn:Hb; [|discriminate].
      exists b, s. auto.
    + destruct s as [|b s]; [right; auto|].
      destruct (in_cls c b) eqn:Hb; [|right; auto].
      apply orelse_some in H. destruct H as [H | [_ H]].
      * left. exists b, s. auto.
      * right. auto.
    + apply greedy_inv in H. destruct H as (x & s' & -> & Hx & Hk).
      exists x, s'. auto.
    + destruct s as [|b s]; [discriminate|].
      destruct (in_cls c b) eqn:Hb; [|discriminate].
      apply greedy_inv in H. destruct H as (x & s' & -> & Hx & Hk).
      exists (b :: x), s'. simpl. rewrite Hb, Hx. rewrite adv_cons in Hk.
      repeat split; auto. discriminate.
    + apply lazy_inv in H. destruct H as (x & s' & -> & Hx & Hk).
      exists x, s'. auto.
    + auto.
    + auto.
    + destruct p0; [|discriminate].
      destruct (matched st) eqn:Hm; [|discriminate]. auto.
    + destruct s; [|discriminate]. auto.
Qed.

(** Literal characters of a pattern, read declaratively. *)
Lemma sem_chars l r p0 : forall s st st',
  sem (List.map (fun a => One (Chr a)) l ++ r) p0 s st st' ->
  exists s', s = l ++ s' /\ sem r p0 s' (adv l st) st'.
Proof.
  induction l as [|b l IH]; intros s st st' H; simpl in H.
  - exists s. rewrite adv_nil. auto.
  - destruct H as (a & s1 & -> & Ha & H). apply N.eqb_eq in Ha. subst a.
    apply IH in H. destruct H as (s' & -> & H).
    exists s'. rewrite adv_cons in H. auto.
Qed.

Lemma sem_lit str r p0 s st st' :
  sem (lit str ++ r) p0 s st st' ->
  exists s', s = js str ++ s' /\ sem r p0 s' (adv (js str) st) st'.
Proof. apply sem_chars. Qed.

(** *** More input never turns a match into a failure *)

Lemma greedy_of_k c k s st st1 :
  k s st = Some st1 -> exists st2, greedy c k s st = Some st2.
Proof.
  intros H. destruct s as [|a s]; simpl; eauto.
  destruct (in_cls c a); eauto.
  destruct (greedy c k s (adv [a] st)); simpl; eauto.
Qed.

Lemma greedy_ext c k : extends k -> extends (greedy c k).
Proof.
  intros Hk s t. induction s as [|a s IH]; intros st st1 H; simpl in H.
  - apply (Hk [] t) in H. destruct H as [st2 H]. eapply greedy_of_k; eauto.
  - simpl. destruct (in_cls c a) eqn:Ha.
    + apply orelse_some in H. destruct H as [H | [_ H]].
      * apply IH in H. destruct H as [st2 H]. rewrite H. simpl; eauto.
      * apply (Hk _ t) in H. destruct H as [st2 H]. simpl in H. rewrite H.
        destruct (greedy c k (s ++ t) (adv [a] st)); simpl; eauto.
    + apply (Hk _ t) in H. exact H.
Qed.

Lemma lazy_ext c k : extends k -> extends (lazy c k).
Proof.
  intros Hk s t. induction s as [|a s IH]; intros st st1 H; simpl in H.
  - destruct (k [] st) eqn:H0; [|discriminate].
    apply (Hk [] t) in H0. destruct H0 as [st2 H0]. simpl in H0.
    destruct t; simpl; rewrite H0; eauto.
  - simpl. destruct (k (a :: s) st) eqn:H0.
    + apply (Hk _ t) in H0. destruct H0 as [st2 H0]. simpl in H0. rewrite H0. eauto.
    + destruct (in_cls c a) eqn:Ha; [|discriminate].
      apply IH in H. destruct H as [st2 H].
      destruct (k (a :: s ++ t) st); eauto.
Qed.

Lemma run_ext r p0 : anchor_free r = true -> extends (run r p0).
Proof.
  induction r as [|a r IH]; intros Hr; simpl in Hr.
  - intros s t st st1 _. simpl. eauto.
  - apply andb_prop in Hr. destruct Hr as [Ha Hr]. specialize (IH Hr).
    destruct a; try discriminate; intros s t st st1 H; simpl in H |- *.
    + destruct s as [|b s]; [discriminate|]. simpl.
      destruct (in_cls c b); [|discriminate]. eapply IH; eauto.
    + destruct s as [|b s].
      * apply (IH [] t) in H. destruct H as [st2 H]. simpl in H.
        destruct t as [|b t]; simpl; eauto.
        destruct (in_cls c b); eauto.
        rewrite H. destruct (run r p0 t (adv [b] st)); simpl; eauto.
      * simpl. destruct (in_cls c b) eqn:Hb.
        -- apply orelse_some in H. destruct H as [H | [_ H]].
           ++ apply (IH _ t) in H. destruct H as [st2 H]. rewrite H. simpl; eauto.
           ++ apply (IH _ t) in H. destruct H as [st2 H]. simpl in H. rewrite H.
              destruct (run r p0 (s ++ t) (adv [b] st)); simpl; eauto.
        -- apply (IH _ t) in H. exact H.
    + eapply greedy_ext; eauto.
    + destruct s as [|b s]; [discriminate|]. simpl.
      destruct (in_cls c b); [|discriminate]. eapply greedy_ext; eauto.
    + eapply lazy_ext; eauto.
    + eapply IH; eauto.
    + eapply IH; eauto.
Qed.

Lemma ext_none (k : kont) x rest st :
  extends k -> k (x ++ rest) st = None -> k x st = None.
Proof.
  intros Hk H. destruct (k x st) eqn:Hx; auto.
  apply (Hk _ rest) in Hx. destruct Hx as [st2 Hx]. congruence.
Qed.

(** *** A match depends only on the text it consumed *)

Lemma greedy_trunc c k : extends k -> truncates k -> truncates (greedy c k).
Proof.
  intros Hext Hk s. induction s as [|a s IH]; intros st st' H; simpl in H.
  - apply Hk in H. destruct H as (x & rest & Hs & Hm & H).
    symmetry in Hs. apply app_eq_nil in Hs. destruct Hs; subst.
    exists [], []. auto.
  - destruct (in_cls c a) eqn:Ha.
    + destruct (greedy c k s (adv [a] st)) eqn:Hg; simpl in H.
      * inversion H; subst. apply IH in Hg.
        destruct Hg as (x & rest & -> & Hm & Hg).
        exists (a :: x), rest. simpl. rewrite Ha, Hg. simpl in Hm.
        rewrite <- app_assoc in Hm. auto.
      * apply Hk in H. destruct H as (x & rest & Hs & Hm & H).
        exists x, rest. repeat split; auto.
        destruct x as [|b x]; simpl; auto.
        simpl in Hs. inversion Hs; subst. rewrite Ha.
        rewrite (ext_none (greedy c k) x rest _ (greedy_ext c k Hext) Hg). auto.
    + apply Hk in H. destruct H as (x & rest & Hs & Hm & H).
      exists x, rest. repeat split; auto.
      destruct x as [|b x]; simpl; auto.
      simpl in Hs. inversion Hs; subst. rewrite Ha. auto.
Qed.

Lemma lazy_trunc c k : extends k -> truncates k -> truncates (lazy c k).
Proof.
  intros Hext Hk s. induction s as [|a s IH]; intros st st' H; simpl in H.
  - destruct (k [] st) eqn:H0; [|discriminate]. inversion H; subst.
    apply Hk in H0. destruct H0 as (x & rest & Hs & Hm & H0).
    symmetry in Hs. apply app_eq_nil in Hs. destruct Hs; subst.
    exists [], []. simpl. rewrite H0. auto.
  - destruct (k (a :: s) st) eqn:H0.
    + inversion H; subst. apply Hk in H0.
      destruct H0 as (x & rest & Hs & Hm & H0).
      exists x, rest. repeat split; auto.
      destruct x; simpl; rewrite H0; auto.
    + destruct (in_cls c a) eqn:Ha; [|discriminate].
      apply IH in H. destruct H as (x & rest & -> & Hm & H).
      exists (a :: x), rest. simpl.
      rewrite (ext_none k (a :: x) rest st Hext H0), Ha, H.
      simpl in Hm. rewrite <- app_assoc in Hm. auto.
Qed.

Lemma run_trunc r p0 : anchor_free r = true -> truncates (run r p0).
Proof.
  induction r as [|a r IH]; intros Hr; simpl in Hr.
  - intros s st st' H. simpl in H. inversion H; subst.
    exists [], s. rewrite app_nil_r. auto.
  - apply andb_prop in Hr. destruct Hr as [Ha Hr]. specialize (IH Hr).
    pose proof (run_ext r p0 Hr) as Hext.
    destruct a; try discriminate; intros s st st' H; simpl in H.
    + destruct s as [|b s]; [discriminate|].
      destruct (in_cls c b) eqn:Hb; [|discriminate].
      apply IH in H. destruct H as (x & rest & -> & Hm & H).
      exists (b :: x), rest. simpl. rewrite Hb, H.
      simpl in Hm. rewrite <- app_assoc in Hm. auto.
    + assert (Hskip : forall x rest b,
                in_cls c b = true ->
                run r p0 (x ++ rest) (adv [b] st) = None ->
                run r p0 (b :: x) st = Some st' ->
                run (Opt c :: r) p0 (b :: x) st = Some st').
      { intros x rest b Hb Hn Hx. simpl. rewrite Hb.
        rewrite (ext_none (run r p0) x rest _ Hext Hn). exact Hx. }
      destruct s as [|b s].
      * apply IH in H. destruct H as (x & rest & Hs & Hm & H).
        symmetry in Hs. apply app_eq_nil in Hs. destruct Hs; subst.
        exists [], []. auto.
      * destruct (in_cls c b) eqn:Hb.
        -- destruct (run r p0 s (adv [b] st)) eqn:H1; simpl in H.
           ++ inversion H; subst. apply IH in H1.
              destruct H1 as (x & rest & -> & Hm & H1).
              exists (b :: x), rest. simpl. rewrite Hb, H1.
              simpl in Hm. rewrite <- app_assoc in Hm. auto.
           ++ apply IH in H. destruct H as (x & rest & Hs & Hm & H).
              exists x, rest. repeat split; auto.
              destruct x as [|b' x]; simpl; auto.
              simpl in Hs. inversion Hs; subst. eapply Hskip; eauto.
        -- apply IH in H. destruct H as (x & rest & Hs & Hm & H).
           exists x, rest. repeat split; auto.
           destruct x as [|b' x]; simpl; auto.
           simpl in Hs. inversion Hs; subst. rewrite Hb. auto.
    + apply (greedy_trunc c _ Hext IH). exact H.
    + destruct s as [|b s]; [discriminate|].
      destruct (in_cls c b) eqn:Hb; [|discriminate].
      apply (greedy_trunc c _ Hext IH) in H.
      destruct H as (x & rest & -> & Hm & H).
      exists (b :: x), rest. simpl. rewrite Hb, H.
      simpl in Hm. rewrite <- app_assoc in Hm. auto.
    + apply (lazy_trunc c _ Hext IH). exact H.
    + apply IH in H. exact H.
    + apply IH in H. exact H.
Qed.

(** *** Capture groups do not change what is matched *)

Lemma ends_orelse x y :
  ends (orelse x y) = match ends x with Some e => Some e | None => ends y end.
Proof. destruct x; reflexivity. Qed.

Lemma adv_matched x st1 st2 :
  matched st1 = matched st2 -> matched (adv x st1) = matched (adv x st2).
Proof. intros H; simpl; now rewrite H. Qed.

Lemma greedy_ends c k1 k2 : same_ends k1 k2 -> same_ends (greedy c k1) (greedy c k2).
Proof.
  intros Hk s. induction s as [|a s IH]; intros st1 st2 Hm; simpl.
  - now apply Hk.
  - destruct (in_cls c a).
    + rewrite !ends_orelse.
      rewrite (IH (adv [a] st1) (adv [a] st2) (adv_matched _ _ _ Hm)).
      rewrite (Hk (a :: s) st1 st2 Hm). reflexivity.
    + now apply Hk.
Qed.

Lemma lazy_ends c k1 k2 : same_ends k1 k2 -> same_ends (lazy c k1) (lazy c k2).
Proof.
  intros Hk s. induction s as [|a s IH]; intros st1 st2 Hm; simpl.
  - pose proof (Hk [] st1 st2 Hm) as H0.
    destruct (k1 [] st1), (k2 [] st2); simpl in *; congruence.
  - pose proof (Hk (a :: s) st1 st2 Hm) as H0.
    destruct (k1 (a :: s) st1), (k2 (a :: s) st2); simpl in *; try congruence.
    destruct (in_cls c a); auto.
    apply IH. now apply adv_matched.
Qed.

Lemma run_ungroup r p1 p2 :
  anchor_free r = true -> same_ends (run r p1) (run (ungroup r) p2).
Proof.
  induction r as [|a r IH]; intros Hr; simpl in Hr.
  - intros s st1 st2 Hm. simpl. now rewrite Hm.
  - apply andb_prop in Hr. destruct Hr as [Ha Hr]. specialize (IH Hr).
    destruct a; try discriminate; intros s st1 st2 Hm; simpl.
    + destruct s as [|b s]; auto.
      destruct (in_cls c b); auto. apply IH. now apply adv_matched.
    + destruct s as [|b s]; [now apply IH|].
      destruct (in_cls c b); [|now apply IH].
      rewrite !ends_orelse.
      rewrite (IH s (adv [b] st1) (adv [b] st2) (adv_matched _ _ _ Hm)).
      rewrite (IH (b :: s) st1 st2 Hm). reflexivity.
    + now apply greedy_ends.
    + destruct s as [|b s]; auto.
      destruct (in_cls c b); auto.
      apply greedy_ends; auto. now apply adv_matched.
    + now apply lazy_ends.
    + now apply IH.
    + now apply IH.
Qed.

(** *** Completeness: a declarative match is found by the matcher *)

Lemma greedy_complete c k x s : forall st st',
  forallb (in_cls c) x = true -> k s (adv x st) = Some st' ->
  exists st'', greedy c k (x ++ s) st = Some st''.
Proof.
  induction x as [|b x IH]; intros st st' Hx Hk; simpl in *.
  - rewrite adv_nil in Hk. eapply greedy_of_k; eauto.
  - apply andb_prop in Hx. destruct Hx as [Hb Hx]. rewrite Hb.
    rewrite <- adv_cons in Hk.
    destruct (IH _ _ Hx Hk) as [st'' H]. rewrite H. simpl. eauto.
Qed.

Lemma lazy_complete c k x s : forall st st',
  forallb (in_cls c) x = true -> k s (adv x st) = Some st' ->
  exists st'', lazy c k (x ++ s) st = Some st''.
Proof.
  induction x as [|b x IH]; intros st st' Hx Hk; simpl in *.
  - rewrite adv_nil in Hk. destruct s; simpl; rewrite Hk; eauto.
  - apply andb_prop in Hx. destruct Hx as [Hb Hx]. rewrite Hb.
    rewrite <- adv_cons in Hk.
    destruct (k (b :: x ++ s) st); eauto.
Qed.

Lemma run_complete r p0 : forall s st st',
  sem r p0 s st st' -> exists st'', run r p0 s st = Some st''.
Proof.
  induction r as [|a r IH]; intros s st st' H; simpl in H.
  - simpl. eauto.
  - destruct a; simpl.
    + destruct H as (b & s' & -> & Hb & H). rewrite Hb. eauto.
    + destruct H as [(b & s' & -> & Hb & H) | H].
      * rewrite Hb. apply IH in H. destruct H as [st'' H]. rewrite H. simpl; eauto.
      * apply IH in H. destruct H as [st'' H].
        destruct s as [|b s]; eauto.
        destruct (in_cls c b); eauto.
        rewrite H. destruct (run r p0 s (adv [b] st)); simpl; eauto.
    + destruct H as (x & s' & -> & Hx & H). apply IH in H. destruct H as [st'' H].
      eapply greedy_complete; eauto.
    + destruct H as (x & s' & -> & Hn & Hx & H). apply IH in H. destruct H as [st'' H].
      destruct x as [|b x]; [congruence|]. simpl in *.
      apply andb_prop in Hx. destruct Hx as [Hb Hx]. rewrite Hb.
      rewrite <- adv_cons in H. eapply greedy_complete; eauto.
    + destruct H as (x & s' & -> & Hx & H). apply IH in H. destruct H as [st'' H].
      eapply lazy_complete; eauto.
    + eauto.
    + eauto.
    + destruct H as (-> & Hm & H). rewrite Hm. eauto.
    + destruct H as (-> & H). eauto.
Qed.

Lemma run_none r p0 s st :
  (forall st', ~ sem r p0 s st st') -> run r p0 s st = None.
Proof.
  intros H. destruct (run r p0 s st) eqn:Hr; auto.
  apply run_sound in Hr. now apply H in Hr.
Qed.

(** *** The leftmost search *)

Lemma search_at r s p st :
  run r p s mstate0 = Some st -> search r s p = Some (p, st).
Proof. intros H. destruct s; simpl; now rewrite H. Qed.

Lemma search_some r s : forall p q st,
  search r s p = Some (q, st) ->
  exists pre rest, s = pre ++ rest /\ q = p + length pre
                   /\ run r q rest mstate0 = Some st.
Proof.
  induction s as [|a s IH]; intros p q st H; simpl in H.
  - destruct (run r p [] mstate0) eqn:Hr; [|discriminate].
    inversion H; subst. exists [], []. simpl. rewrite Nat.add_0_r. auto.
  - destruct (run r p (a :: s) mstate0) eqn:Hr.
    + inversion H; subst. exists [], (a :: s). simpl. rewrite Nat.add_0_r. auto.
    + apply IH in H. destruct H as (pre & rest & -> & -> & H).
      exists (a :: pre), rest. simpl. rewrite Nat.add_succ_r. auto.
Qed.

Lemma search_ungroup r s : forall p,
  anchor_free r = true -> search r s p = None -> search (ungroup r) s p = None.
Proof.
  induction s as [|a s IH]; intros p Hr H; simpl in *.
  - pose proof (run_ungroup r p p Hr [] mstate0 mstate0 eq_refl) as He.
    destruct (run r p [] mstate0); [discriminate|].
    destruct (run (ungroup r) p [] mstate0); [discriminate He|reflexivity].
  - pose proof (run_ungroup r p p Hr (a :: s) mstate0 mstate0 eq_refl) as He.
    destruct (run r p (a :: s) mstate0); [discriminate|].
    destruct (run (ungroup r) p (a :: s) mstate0); [discriminate He|].
    now apply IH.
Qed.

Lemma exec_none r s : exec r s = None -> search r s 0 = None.
Proof. unfold exec. destruct (search r s 0) as [[p st]|]; [discriminate|auto]. Qed.

Lemma search_none_exec r s : search r s 0 = None -> exec r s = None.
Proof. unfold exec. now intros ->. Qed.

Lemma app_same_length (x y x' y' : jsstring) :
  x ++ y = x' ++ y' -> length x = length x' -> x = x' /\ y = y'.
Proof.
  revert x'. induction x as [|a x IH]; intros [|a' x'] H Hl; simpl in *;
    try discriminate; auto.
  inversion H; subst. destruct (IH x' H2) as [-> ->]; auto.
Qed.

(** When the leftmost match starts at the end of [pre], it is the match
    found from there. *)
Lemma exec_at_index r pre body st :
  option_map index (exec r (pre ++ body)) = Some (length pre) ->
  run r (length pre) body mstate0 = Some st ->
  exec r (pre ++ body)
  = Some {| index := length pre; groups := matched st :: caps st |}.
Proof.
  unfold exec. intros Hi Hr.
  destruct (search r (pre ++ body) 0) as [[q st']|] eqn:Hs; [|discriminate].
  simpl in Hi. inversion Hi; subst q.
  apply search_some in Hs. destruct Hs as (pre' & rest & Hmsg & Hlen & Hr').
  simpl in Hlen. apply app_same_length in Hmsg; auto.
  destruct Hmsg as [<- <-]. congruence.
Qed.

(** *** Matching forwards: the first alternative tried succeeds *)

Lemma run_chars l r p : forall s st,
  run (List.map (fun a => One (Chr a)) l ++ r) p (l ++ s) st = run r p s (adv l st).
Proof.
  induction l as [|b l IH]; intros s st; simpl.
  - now rewrite adv_nil.
  - rewrite N.eqb_refl, IH, adv_cons. reflexivity.
Qed.

Lemma run_lit str r p s st :
  run (lit str ++ r) p (js str ++ s) st = run r p s (adv (js str) st).
Proof. apply run_chars. Qed.

Lemma run_open r p s st : run (Open :: r) p s st = run r p s (open_group st).
Proof. reflexivity. Qed.

Lemma run_close r p s st : run (Close :: r) p s st = run r p s (close_group st).
Proof. reflexivity. Qed.

Lemma run_bol r s : run (Bol :: r) 0 s mstate0 = run r 0 s mstate0.
Proof. reflexivity. Qed.

Lemma run_one c r p a s st :
  in_cls c a = true -> run (One c :: r) p (a :: s) st = run r p s (adv [a] st).
Proof. intros H. simpl. now rewrite H. Qed.

Lemma run_one_take c r p a s st st' :
  in_cls c a = true -> run r p s (adv [a] st) = Some st' ->
  run (One c :: r) p (a :: s) st = Some st'.
Proof. intros Ha H. now rewrite run_one. Qed.

Lemma run_opt_skip c r p a s st :
  in_cls c a = false -> run (Opt c :: r) p (a :: s) st = run r p (a :: s) st.
Proof. intros H. simpl. now rewrite H. Qed.

Lemma run_opt_pass c r p a s st st' :
  in_cls c a = false -> run r p (a :: s) st = Some st' ->
  run (Opt c :: r) p (a :: s) st = Some st'.
Proof. intros Ha H. now rewrite run_opt_skip. Qed.

Lemma run_opt_take c r p a s st st' :
  in_cls c a = true -> run r p s (adv [a] st) = Some st' ->
  run (Opt c :: r) p (a :: s) st = Some st'.
Proof. intros Ha H. simpl. now rewrite Ha, H. Qed.

Lemma run_lazy c r p s st :
  run (StarLazy c :: r) p s st = lazy c (run r p) s st.
Proof. reflexivity. Qed.

Lemma greedy_max c k x s : forall st st',
  forallb (in_cls c) x = true -> stops c s ->
  k s (adv x st) = Some st' -> greedy c k (x ++ s) st = Some st'.
Proof.
  induction x as [|b x IH]; intros st st' Hx Hs Hk; simpl in *.
  - rewrite adv_nil in Hk. destruct s as [|a s]; simpl; auto.
    simpl in Hs. now rewrite Hs.
  - apply andb_prop in Hx. destruct Hx as [Hb Hx]. rewrite Hb.
    rewrite (IH (adv [b] st) st'); auto. now rewrite adv_cons.
Qed.

Lemma plus_max c r p x s st st' :
  x <> [] -> forallb (in_cls c) x = true -> stops c s ->
  run r p s (adv x st) = Some st' -> run (Plus c :: r) p (x ++ s) st = Some st'.
Proof.
  intros Hn Hx Hs Hk. destruct x as [|b x]; [congruence|].
  simpl in *. apply andb_prop in Hx. destruct Hx as [Hb Hx]. rewrite Hb.
  apply greedy_max; auto. now rewrite adv_cons.
Qed.

Lemma star_max c r p x s st st' :
  forallb (in_cls c) x = true -> stops c s ->
  run r p s (adv x st) = Some st' -> run (Star c :: r) p (x ++ s) st = Some st'.
Proof. intros. simpl. now apply greedy_max. Qed.

Lemma plus_end c r p x st st' :
  x <> [] -> forallb (in_cls c) x = true ->
  run r p [] (adv x st) = Some st' -> run (Plus c :: r) p x st = Some st'.
Proof.
  intros Hn Hx Hk. rewrite <- (app_nil_r x) at 1. apply plus_max; simpl; auto.
Qed.

Lemma star_end c r p x st st' :
  forallb (in_cls c) x = true ->
  run r p [] (adv x st) = Some st' -> run (Star c :: r) p x st = Some st'.
Proof.
  intros Hx Hk. rewrite <- (app_nil_r x) at 1. apply star_max; simpl; auto.
Qed.

Lemma lazy_skip c k x s : forall st st',
  forallb (in_cls c) x = true ->
  (forall x1 x2, x = x1 ++ x2 -> x2 <> [] -> k (x2 ++ s) (adv x1 st) = None) ->
  k s (adv x st) = Some st' ->
  lazy c k (x ++ s) st = Some st'.
Proof.
  induction x as [|b x IH]; intros st st' Hx Hf Hk; simpl in *.
  - rewrite adv_nil in Hk. destruct s; simpl; now rewrite Hk.
  - apply andb_prop in Hx. destruct Hx as [Hb Hx].
    pose proof (Hf [] (b :: x) eq_refl) as H0. rewrite adv_nil in H0.
    simpl in H0. rewrite H0 by discriminate. rewrite Hb.
    apply IH; auto.
    + intros x1 x2 -> Hn. rewrite adv_cons. apply (Hf (b :: x1) x2); auto.
    + now rewrite adv_cons.
Qed.

(** *** Classes of code units, strings and numbers *)

Lemma forallb_any x : forallb (in_cls Any) x = true.
Proof. induction x; simpl; auto. Qed.

Lemma digit_is_dot a : is_digit a = true -> in_cls Dot a = true.
Proof.
  unfold is_digit, in_cls, is_line_terminator. intros H.
  apply andb_prop in H. destruct H as [H1 H2].
  apply N.leb_le in H1. apply N.leb_le in H2.
  repeat match goal with
         | |- context [(a =? ?n)%N] =>
             destruct (N.eqb_spec a n); [lia|]
         end.
  reflexivity.
Qed.

Lemma digits_are_dots x :
  forallb is_digit x = true -> forallb (in_cls Dot) x = true.
Proof.
  induction x as [|a x IH]; cbn [forallb]; auto. intros H.
  apply andb_prop in H. destruct H as [Ha H].
  rewrite (digit_is_dot _ Ha), IH; auto.
Qed.

Lemma nonspace_is_dot a : in_cls NonSpace a = true -> in_cls Dot a = true.
Proof.
  unfold in_cls, is_space, is_line_terminator. intros H.
  apply negb_true_iff in H.
  repeat match goal with
         | |- context [(a =? ?n)%N] =>
             destruct (N.eqb_spec a n);
             [subst; simpl in H; discriminate|]
         end.
  reflexivity.
Qed.

Lemma nonspaces_are_dots x :
  forallb (in_cls NonSpace) x = true -> forallb (in_cls Dot) x = true.
Proof.
  induction x as [|a x IH]; cbn [forallb]; auto. intros H.
  apply andb_prop in H. destruct H as [Ha H].
  rewrite (nonspace_is_dot _ Ha), IH; auto.
Qed.

Lemma dot_not_break a :
  in_cls Dot a = true -> (a =? 10)%N = false /\ (a =? 13)%N = false.
Proof.
  unfold in_cls, is_line_terminator. intros H. apply negb_true_iff in H.
  destruct (a =? 10)%N, (a =? 13)%N; simpl in H; try discriminate; auto.
Qed.

Lemma stops_space_nonspace x rest :
  x <> [] -> forallb (in_cls NonSpace) x = true -> stops Space (x ++ rest).
Proof.
  intros Hn Hx. destruct x as [|a x]; [congruence|]. simpl in *.
  apply andb_prop in Hx. destruct Hx as [Ha _].
  now apply negb_true_iff in Ha.
Qed.

Lemma colon_not_digits (y n : jsstring) :
  forallb (in_cls Digit) (y ++ js ":" ++ n) = false.
Proof. rewrite forallb_app. simpl. apply andb_false_r. Qed.

(** The first code unit outside a class is where it is. *)
Lemma first_stop_unique c : forall u u' a a' (v v' : jsstring),
  u ++ a :: v = u' ++ a' :: v' ->
  forallb (in_cls c) u = true -> forallb (in_cls c) u' = true ->
  in_cls c a = false -> in_cls c a' = false ->
  u = u' /\ a = a' /\ v = v'.
Proof.
  induction u as [|b u IH]; intros [|b' u'] a a' v v' E Hu Hu' Ha Ha';
    simpl in *; inversion E; subst.
  - auto.
  - apply andb_prop in Hu'. destruct Hu'. congruence.
  - apply andb_prop in Hu. destruct Hu. congruence.
  - apply andb_prop in Hu. apply andb_prop in Hu'.
    destruct Hu as [_ Hu], Hu' as [_ Hu'].
    destruct (IH u' a a' v v' H1 Hu Hu' Ha Ha') as (-> & -> & ->). auto.
Qed.

Lemma skipn_length_app (x y : jsstring) : skipn (length x) (x ++ y) = y.
Proof. induction x; simpl; auto. Qed.

Lemma decimal_nonneg x :
  forallb is_digit x = true -> (0 <= decimal x)%Z.
Proof.
  unfold decimal.
  assert (H : forall acc, (0 <= acc)%Z -> forallb is_digit x = true ->
                          (0 <= fold_left (fun acc d => acc * 10 + (Z.of_N d - 48)) x acc)%Z).
  { induction x as [|d x IH]; intros acc Hacc Hx; simpl in *; auto.
    apply andb_prop in Hx. destruct Hx as [Hd Hx].
    apply IH; auto. unfold is_digit in Hd.
    apply andb_prop in Hd. destruct Hd as [Hd _].
    apply N.leb_le in Hd. lia. }
  apply H. lia.
Qed.

(** *** Numbers *)

(** Below 2^53 the double is the integer. *)
Lemma to_double_exact z : (z < 2 ^ 53)%Z -> to_double z = Fin z.
Proof.
  intros H. unfold to_double.
  destruct (Z.ltb_spec z (2 ^ 53)); [reflexivity|lia].
Qed.

Lemma to_double_at_least c z :
  (c <= z)%Z -> (c <= 0)%Z -> at_least c (to_double z).
Proof.
  intros Hz Hc. unfold to_double.
  destruct (Z.ltb_spec z (2 ^ 53)) as [_|Hbig]; [exact Hz|].
  cbv zeta.
  set (e := (Z.log2 z - 52)%Z).
  set (q := (z / 2 ^ e)%Z).
  set (up := (_ || _)%bool).
  destruct (_ <? 2 ^ 1024)%Z; [|exact I].
  simpl.
  assert (H2 : (0 < 2 ^ e)%Z).
  { apply Z.pow_pos_nonneg; [lia|]. unfold e.
    assert (53 <= Z.log2 z)%Z; [|lia].
    change 53%Z with (Z.log2 (2 ^ 53)). now apply Z.log2_le_mono. }
  assert (Hq : (0 <= q)%Z) by (apply Z.div_pos; lia).
  destruct up; nia.
Qed.

(** The line is the number read minus one as long as the number read is
    below 2^53. *)
Lemma line_number_exact digits :
  (decimal digits < 2 ^ 53)%Z -> line_number digits = Fin (decimal digits - 1).
Proof.
  intros H. unfold line_number, to_number. rewrite (to_double_exact _ H).
  simpl. apply to_double_exact. lia.
Qed.

Lemma line_number_at_least digits :
  forallb is_digit digits = true -> at_least (-1) (line_number digits).
Proof.
  intros H. pose proof (decimal_nonneg digits H) as H0.
  unfold line_number, to_number.
  pose proof (to_double_at_least 0 (decimal digits) H0 (Z.le_refl 0)) as H1.
  destruct (to_double (decimal digits)) as [z|]; simpl in *; [|exact I].
  apply to_double_at_least; lia.
Qed.

(** * The patterns of the source *)

(** *** Reading them declaratively *)

(** Take apart a declarative match [H] of a concrete pattern, substituting
    the pieces of the input. *)
Ltac sem_inv H :=
  repeat first
    [ apply sem_lit in H; destruct H as (? & -> & H)
    | progress cbn [sem app] in H
    | match type of H with
      | exists _, _ => destruct H as [? H]
      | _ = _ /\ _ => let E := fresh "E" in destruct H as [E H]
      | _ <> _ /\ _ => let E := fresh "N" in destruct H as [E H]
      | _ \/ _ => destruct H as [H | H]
      end ].

(** From [H], a successful [exec], to the declarative match [Hr] of the
    pattern at the index found. *)
Ltac exec_inv H Hr :=
  unfold exec in H;
  match type of H with
  | match search ?r ?s 0 with _ => _ end = Some _ =>
      let Hs := fresh "Hs" in
      let q := fresh "q" in
      let st := fresh "st" in
      destruct (search r s 0) as [[q st]|] eqn:Hs; [|discriminate H];
      inversion H; subst; clear H;
      apply search_some in Hs;
      destruct Hs as (? & ? & -> & -> & Hr);
      apply run_sound in Hr
  end.

(** The digits of a group are digits. *)
Ltac digits_hyp :=
  match goal with
  | H : forallb (in_cls Digit) _ = true |- _ => exact H
  end.

(** As [sem_inv], keeping the equations: for an input that is not a
    variable. *)
Ltac sem_eqs H :=
  repeat first
    [ apply sem_lit in H;
      let E := fresh "E" in destruct H as (? & E & H)
    | progress cbn [sem app] in H
    | match type of H with
      | exists _, _ => destruct H as [? H]
      | _ = _ /\ _ => let E := fresh "E" in destruct H as [E H]
      | _ <> _ /\ _ => let E := fresh "N" in destruct H as [E H]
      | _ \/ _ => destruct H as [H | H]
      end ].

(** A code unit matched as a carriage return or a line feed is not matched
    by the dot. *)
Ltac break_char :=
  match goal with
  | H : in_cls (Chr _) ?b = true |- in_cls Dot ?b = false =>
      apply N.eqb_eq in H; subst; reflexivity
  end.

Lemma missing_digits msg m :
  exec re_missing msg = Some m -> forallb is_digit (grp m 2) = true.
Proof.
  intros H. exec_inv H Hr. unfold re_missing in Hr. sem_inv Hr.
  subst. digits_hyp.
Qed.

Lemma used_at_digits l m :
  exec re_used_at l = Some m -> forallb is_digit (grp m 2) = true.
Proof.
  intros H. exec_inv H Hr. unfold re_used_at in Hr. sem_inv Hr.
  subst. digits_hyp.
Qed.

Lemma generic_first_digits text m :
  exec re_generic_first text = Some m -> forallb is_digit (grp m 2) = true.
Proof.
  intros H. exec_inv H Hr. unfold re_generic_first in Hr.
  sem_inv Hr; subst; digits_hyp.
Qed.

Lemma generic_single_digits text m :
  exec re_generic_single text = Some m -> forallb is_digit (grp m 2) = true.
Proof.
  intros H. exec_inv H Hr. unfold re_generic_single in Hr.
  sem_inv Hr; subst; digits_hyp.
Qed.

(** A match of the generic pattern is not empty. *)
Lemma generic_nonempty p s st :
  run re_generic p s mstate0 = Some st -> 0 < length (matched st).
Proof.
  intros Hr. apply run_sound in Hr. unfold re_generic in Hr.
  sem_inv Hr; subst; simpl; rewrite !length_app; simpl; lia.
Qed.

(** A match of the generic pattern holds at least fifteen code units. *)
Lemma generic_min_length p s st :
  run re_generic p s mstate0 = Some st -> 15 <= length (matched st).
Proof.
  intros Hr. apply run_sound in Hr. unfold re_generic in Hr.
  sem_inv Hr; subst; simpl; rewrite !length_app; simpl;
    rewrite ?length_app; simpl;
    match goal with
    | N : ?x <> [] |- _ => destruct x; [congruence|simpl; lia]
    end.
Qed.

Lemma generic_short text :
  length text < 15 -> exec re_generic text = None.
Proof.
  intros Hl. apply search_none_exec.
  destruct (search re_generic text 0) as [[q st]|] eqn:Hs; auto.
  apply search_some in Hs. destruct Hs as (pre & rest & -> & _ & Hr).
  pose proof (generic_min_length _ _ _ Hr) as Hm.
  apply (run_trunc re_generic) in Hr; [|reflexivity].
  destruct Hr as (x & rest' & -> & Hx & _). simpl in Hx. rewrite Hx in Hm.
  rewrite !length_app in Hl. lia.
Qed.

(** *** The banner *)

(** The banner line, when it opens the text, is what [replace] removes. *)
Lemma sorry_banner b rest :
  forallb (in_cls Dot) b = true ->
  replace_empty re_sorry (js "===SORRY" ++ b ++ 10%N :: rest) = rest.
Proof.
  intros Hb. unfold replace_empty.
  assert (H : run re_sorry 0 (js "===SORRY" ++ b ++ 10%N :: rest) mstate0
              = Some (adv [10%N] (adv b (adv (js "===SORRY") mstate0)))).
  { unfold re_sorry. rewrite run_lit.
    apply star_max; auto; reflexivity. }
  rewrite (search_at _ _ _ _ H).
  cbn [firstn app Nat.add matched adv mstate0].
  replace (js "===SORRY" ++ b ++ 10%N :: rest)
    with (((js "===SORRY" ++ b) ++ [10%N]) ++ rest)
    by (rewrite <- !app_assoc; reflexivity).
  apply skipn_length_app.
Qed.

Lemma no_banner msg :
  exec re_sorry msg = None -> replace_empty re_sorry msg = msg.
Proof. intros H. apply exec_none in H. unfold replace_empty. now rewrite H. Qed.

(** *** The missing-library pattern on a text of its shape *)

Lemma missing_run p M N c P :
  M <> [] -> forallb (in_cls NonSpace) M = true ->
  N <> [] -> forallb is_digit N = true ->
  (c = 10 \/ c = 13)%N -> P <> [] ->
  exists st,
    run re_missing p
      (js "Could not find " ++ M ++ js " at line " ++ N ++ js " in:" ++ c :: P)
      mstate0 = Some st
    /\ caps st = [M; N; P].
Proof.
  intros HM1 HM2 HN1 HN2 Hc HP.
  eexists. split.
  - unfold re_missing. rewrite run_lit. cbn [app]. rewrite run_open.
    apply plus_max; auto. { reflexivity. }
    rewrite run_close, run_lit. cbn [app]. rewrite run_open.
    apply plus_max; auto. { reflexivity. }
    rewrite run_close, run_lit. cbn [app].
    rewrite run_one by (destruct Hc; subst; reflexivity).
    rewrite run_open.
    apply plus_end; auto. { apply forallb_any. }
    rewrite run_close. reflexivity.
  - reflexivity.
Qed.

(** *** The patterns of the list headers *)

Lemma header_run what plural p body :
  body <> [] ->
  exists st,
    run (re_header what) p (list_header what plural ++ body) mstate0 = Some st
    /\ caps st = [body].
Proof.
  intros Hb.
  assert (Hend : forall st,
             run [Opt (Chr 13%N); One (Chr 10%N); Open; Plus Any; Close] p
               (10%N :: body) st
             = Some (close_group (adv body (open_group (adv [10%N] st))))).
  { intros st. apply run_opt_pass; [reflexivity|].
    apply run_one_take; [reflexivity|].
    rewrite run_open. apply plus_end; auto. apply forallb_any. }
  unfold re_header, list_header, plural_s. rewrite <- !app_assoc.
  destruct plural; eexists; split.
  - rewrite run_lit. cbn [app].
    apply run_opt_take; [reflexivity|].
    rewrite run_lit. cbn [app]. apply Hend.
  - reflexivity.
  - rewrite run_lit. cbn [app].
    change (js ":" ++ 10%N :: body) with (58%N :: 10%N :: body).
    apply run_opt_pass; [reflexivity|].
    change (58%N :: 10%N :: body) with (js ":" ++ 10%N :: body).
    rewrite run_lit. cbn [app]. apply Hend.
  - reflexivity.
Qed.

(** *** The pattern of a list line on an entry *)

Lemma entry_exec e :
  entry_ok e -> exec re_used_at (entry_line e) = Some (entry_match e).
Proof.
  intros (Hi1 & Hi2 & _ & Hn1 & Hn2 & Hd1 & Hd2 & Ha1 & Ha2).
  assert (H : run re_used_at 0 (entry_line e) mstate0
              = Some {| matched := entry_line e; cur := e_advice e;
                        caps := [e_name e; e_digits e; e_advice e] |}).
  { unfold re_used_at, entry_line. cbn [app]. rewrite run_bol.
    apply plus_max; auto. { now apply stops_space_nonspace. }
    rewrite run_open. apply plus_max; auto. { reflexivity. }
    rewrite run_close, run_lit. cbn [app]. rewrite run_open.
    apply plus_max; auto.
    rewrite run_close, run_open. apply star_end; auto.
    rewrite run_close. cbn [run].
    unfold close_group, open_group, adv, mstate0. cbn [matched cur caps app].
    repeat (rewrite <- app_assoc; cbn [app]). reflexivity. }
  unfold exec. rewrite (search_at _ _ _ _ H). reflexivity.
Qed.

Lemma entry_line_dots e : entry_ok e -> forallb (in_cls Dot) (entry_line e) = true.
Proof.
  intros (_ & _ & Hi & _ & Hn & _ & Hd & Ha & _). unfold entry_line.
  rewrite !forallb_app, Hi, (nonspaces_are_dots _ Hn),
    (digits_are_dots _ Hd), Ha. reflexivity.
Qed.

(** *** The generic patterns on a block *)

Lemma block_then_eq f file n c rest :
  generic_block f file n c ++ rest = block_then f file n c rest.
Proof.
  unfold generic_block, block_then.
  repeat (rewrite <- app_assoc; cbn [app]). reflexivity.
Qed.

Lemma digits_reach_break y n t d b v :
  forallb (in_cls Dot) y = true -> forallb is_digit n = true ->
  forallb (in_cls Digit) d = true -> in_cls Dot b = false ->
  y ++ js ":" ++ n ++ 10%N :: t = d ++ b :: v -> False.
Proof.
  intros Hy Hn Hd Hb E.
  replace (y ++ js ":" ++ n ++ 10%N :: t)
    with ((y ++ js ":" ++ n) ++ 10%N :: t) in E
    by (rewrite <- !app_assoc; reflexivity).
  apply (first_stop_unique Dot) in E; auto.
  - destruct E as (E & _ & _). rewrite <- E in Hd.
    rewrite colon_not_digits in Hd. discriminate.
  - rewrite !forallb_app, Hy, (digits_are_dots _ Hn). reflexivity.
  - apply digits_are_dots. exact Hd.
Qed.

Lemma after_file_fails tl p x2 n t st :
  x2 <> [] -> forallb (in_cls Dot) x2 = true -> forallb is_digit n = true ->
  run (after_file tl) p (x2 ++ js ":" ++ n ++ 10%N :: t) st = None.
Proof.
  intros Hn Hx Hd. apply run_none. intros st' H.
  destruct x2 as [|a y]; [congruence|].
  simpl in Hx. apply andb_prop in Hx. destruct Hx as [_ Hy].
  unfold after_file in H. sem_eqs H; subst; inversion E as [[Ea E']];
    eapply (digits_reach_break y n t) in E'; eauto.
  - apply N.eqb_eq in E3. subst. reflexivity.
  - apply N.eqb_eq in E3. subst. reflexivity.
Qed.

(** The pattern of [parse_generic_single] on a block followed by a line
    break or by nothing. *)
Lemma generic_single_run p f file n c rest :
  forallb (in_cls Dot) f = true -> forallb (in_cls Dot) file = true ->
  n <> [] -> forallb is_digit n = true ->
  forallb (in_cls Dot) c = true -> stops Dot rest ->
  exists st,
    run re_generic_single p (block_then f file n c rest) mstate0 = Some st
    /\ matched st = generic_block f file n c
    /\ caps st = [f; n; c].
Proof.
  intros Hf Hfile Hn1 Hn2 Hc Hrest.
  eexists. split; [|split].
  - unfold re_generic_single, block_then. cbn [app]. rewrite run_open.
    apply star_max; auto. { reflexivity. }
    rewrite run_close, run_opt_skip by reflexivity.
    rewrite run_one by reflexivity.
    rewrite run_lit. cbn [app]. rewrite run_lazy.
    apply lazy_skip; auto.
    { intros x1 x2 -> Hx2. rewrite forallb_app in Hfile.
      apply andb_prop in Hfile. destruct Hfile as [_ Hx].
      apply (after_file_fails [Open; Star Dot; Close] p x2 n _ _ Hx2 Hx Hn2). }
    rewrite run_lit. cbn [app]. rewrite run_open.
    apply plus_max; auto. { reflexivity. }
    rewrite run_close, run_opt_skip by reflexivity.
    rewrite run_one by reflexivity.
    rewrite run_lit. cbn [app]. rewrite run_open.
    apply star_max; auto.
    rewrite run_close. reflexivity.
  - unfold generic_block. cbn [matched close_group adv open_group mstate0].
    repeat (rewrite <- app_assoc; cbn [app]). reflexivity.
  - reflexivity.
Qed.

(** The pattern of [parseGenerics] on a text that starts with a block. *)
Lemma generic_first_run p f file n c rest :
  forallb (in_cls Dot) f = true -> forallb (in_cls Dot) file = true ->
  n <> [] -> forallb is_digit n = true ->
  forallb (in_cls Dot) c = true -> stops Dot rest ->
  exists st,
    run re_generic_first p (block_then f file n c rest) mstate0 = Some st
    /\ caps st = [f; n].
Proof.
  intros Hf Hfile Hn1 Hn2 Hc Hrest.
  eexists. split.
  - unfold re_generic_first, block_then. cbn [app]. rewrite run_open.
    apply star_max; auto. { reflexivity. }
    rewrite run_close, run_opt_skip by reflexivity.
    rewrite run_one by reflexivity.
    rewrite run_lit. cbn [app]. rewrite run_lazy.
    apply lazy_skip; auto.
    { intros x1 x2 -> Hx2. rewrite forallb_app in Hfile.
      apply andb_prop in Hfile. destruct Hfile as [_ Hx].
      apply (after_file_fails [Star Dot] p x2 n _ _ Hx2 Hx Hn2). }
    rewrite run_lit. cbn [app]. rewrite run_open.
    apply plus_max; auto. { reflexivity. }
    rewrite run_close, run_opt_skip by reflexivity.
    rewrite run_one by reflexivity.
    rewrite run_lit. cbn [app].
    apply star_max; auto. reflexivity.
  - reflexivity.
Qed.

Lemma block_first_break f file n c rest x6 x9 b v :
  forallb (in_cls Dot) f = true -> forallb (in_cls Dot) x6 = true ->
  forallb (in_cls Digit) x9 = true -> in_cls Dot b = false ->
  block_then f file n c rest = js "at " ++ x6 ++ js ":" ++ x9 ++ b :: v ->
  b = 10%N
  /\ v = js "at " ++ file ++ js ":" ++ n ++ 10%N :: js "------> " ++ c ++ rest.
Proof.
  intros Hf H6 H9 Hb E. unfold block_then in E.
  replace (js "at " ++ x6 ++ js ":" ++ x9 ++ b :: v)
    with ((js "at " ++ x6 ++ js ":" ++ x9) ++ b :: v) in E
    by (repeat (rewrite <- app_assoc; cbn [app]); reflexivity).
  apply (first_stop_unique Dot) in E; auto.
  - destruct E as (_ & E1 & E2). auto.
  - rewrite !forallb_app, H6, (digits_are_dots _ H9). reflexivity.
Qed.

Lemma generic_fails_at_break p f file n c rest :
  forallb (in_cls Dot) f = true ->
  run re_generic p (10%N :: block_then f file n c rest) mstate0 = None.
Proof.
  intros Hf. apply run_none. intros st' H.
  unfold re_generic in H. sem_eqs H; subst;
    (destruct x as [|a x];
     [|simpl in E0; inversion E; subst; discriminate]);
    simpl in E; inversion E as [[Ea E']]; subst;
    try discriminate;
    eapply block_first_break in E'; eauto; try break_char;
    destruct E' as [E1 E']; subst; discriminate.
Qed.

(** * The parser functions *)

Lemma emitted_error_at x :
  forallb is_digit x = true -> forall msg, emitted (error_at (line_number x) msg).
Proof.
  intros Hx msg. exists (line_number x), msg. split; auto.
  now apply line_number_at_least.
Qed.

Lemma emitted_full_line d : emitted d -> full_line d.
Proof. intros (l & m & -> & _). repeat split. Qed.

Lemma emitted_compiler_error d : emitted d -> compiler_error d.
Proof. intros (l & m & -> & H). repeat split. exact H. Qed.

(** [parse_undeclared] only appends to the array, and what it appends does
    not depend on what the array held. *)
Lemma undeclared_lines_frame type ls :
  exists batch, Forall emitted batch /\
    forall diagnostics, undeclared_lines type ls diagnostics = diagnostics ++ batch.
Proof.
  induction ls as [|l ls IH]; simpl.
  - exists []. split; auto. intros; now rewrite app_nil_r.
  - destruct (exec re_used_at l) as [m2|] eqn:Hm.
    + destruct IH as (batch & Hb & IH).
      eexists (_ :: batch). split.
      * constructor; auto. apply emitted_error_at. eapply used_at_digits; eauto.
      * intros d. rewrite IH. unfold push. rewrite <- app_assoc. reflexivity.
    + exists []. split; auto. intros; now rewrite app_nil_r.
Qed.


Lemma missing_libs_frame msg m :
  exec re_missing msg = Some m ->
  exists d, emitted d /\ forall diagnostics, missing_libs m diagnostics = diagnostics ++ [d].
Proof.
  intros H. eexists. split; [|intros; reflexivity].
  apply emitted_error_at. eapply missing_digits; eauto.
Qed.

(** [parse_generic_single] is only given text that its pattern matches, so
    that it never reads a group of [null]. *)
Lemma parse_generic_single_total text reea :
  exec re_generic text = Some reea ->
  0 < length (grp reea 0) <= length text /\
  exists d, emitted d /\
    forall diagnostics,
      ServerTs.parse_generic_single (grp reea 0) diagnostics = Ok (diagnostics ++ [d]).
Proof.
  unfold exec. intros H.
  destruct (search re_generic text 0) as [[q st]|] eqn:Hs; [|discriminate].
  inversion H; subst; clear H. unfold grp; simpl.
  apply search_some in Hs. destruct Hs as (pre & rest & -> & -> & Hr).
  pose proof (generic_nonempty _ _ _ Hr) as Hlen.
  apply (run_trunc re_generic) in Hr; [|reflexivity].
  destruct Hr as (x & rest' & -> & Hm & Hr). simpl in Hm. rewrite Hm in *.
  split. { rewrite !length_app. lia. }
  pose proof (run_ungroup re_generic_single 0 (0 + length pre) eq_refl
                x mstate0 mstate0 eq_refl) as He.
  change (ungroup re_generic_single) with re_generic in He.
  rewrite Hr in He. unfold ends in He.
  destruct (run re_generic_single 0 x mstate0) as [st2|] eqn:H2;
    simpl in He; [|discriminate He].
  apply search_at in H2.
  assert (Hx : exec re_generic_single x
               = Some {| index := 0; groups := matched st2 :: caps st2 |}).
  { unfold exec. now rewrite H2. }
  unfold ServerTs.parse_generic_single. rewrite Hx.
  eexists. split; [|intros; reflexivity].
  apply emitted_error_at. eapply generic_single_digits; eauto.
Qed.

(** The loop of [parse_generics] ends within [length text] rounds. *)
Lemma generics_loop_total : forall fuel text,
  length text <= fuel ->
  exists batch, Forall emitted batch /\
    forall diagnostics,
      ServerTs.generics_loop fuel text diagnostics = Ok (diagnostics ++ batch).
Proof.
  induction fuel as [|fuel IH]; intros text Hf.
  - simpl. destruct (exec re_generic text) as [reea|] eqn:He.
    + apply parse_generic_single_total in He. lia.
    + exists []. split; auto. intros; now rewrite app_nil_r.
  - simpl. destruct (exec re_generic text) as [reea|] eqn:He.
    + apply parse_generic_single_total in He.
      destruct He as (Hlen & d & Hd & Hs).
      destruct (IH (slice text (length (grp reea 0)))) as (batch & Hb & Hl).
      { unfold slice. rewrite length_skipn. lia. }
      exists (d :: batch). split; [constructor; auto|].
      intros diags. rewrite Hs. simpl. rewrite Hl, <- app_assoc. reflexivity.
    + exists []. split; auto. intros; now rewrite app_nil_r.
Qed.

Lemma parse_generics_total msg :
  exists batch, Forall emitted batch /\
    forall diagnostics,
      ServerTs.parse_generics msg diagnostics = Ok (diagnostics ++ batch).
Proof. unfold ServerTs.parse_generics. apply generics_loop_total. lia. Qed.

Lemma parseGenerics_frame msg :
  exists d, emitted d /\
    forall diagnostics, Packaged.parseGenerics msg diagnostics = diagnostics ++ [d].
Proof.
  unfold Packaged.parseGenerics.
  destruct (exec re_generic_first (replace_empty re_sorry msg)) as [m|] eqn:He.
  - eexists. split; [|intros; reflexivity].
    apply emitted_error_at. eapply generic_first_digits; eauto.
  - eexists. split; [|intros; reflexivity].
    eexists _, _. split; [reflexivity|simpl; lia].
Qed.

(** The extractor of server.ts always returns: it neither throws nor loops,
    it only appends, and what it appends is determined by the text alone. *)
Lemma server_parseErrorMessage_total msg :
  exists batch, Forall emitted batch /\
    forall diagnostics,
      ServerTs.parseErrorMessage msg diagnostics = Ok (diagnostics ++ batch).
Proof.
  unfold ServerTs.parseErrorMessage, ServerTs.parse_missing_libs,
    ServerTs.parse_undeclared.
  destruct (exec re_missing msg) as [m|] eqn:Hm.
  - destruct (missing_libs_frame _ _ Hm) as (d & Hd & H).
    exists [d]. split; auto. intros. now rewrite H.
  - assert (H1 : exists b1, Forall emitted b1 /\ forall diagnostics,
               match exec re_names msg with
               | Some m => undeclared_lines (js "name") (split_lines (grp m 1)) diagnostics
               | None => diagnostics
               end = diagnostics ++ b1).
    { destruct (exec re_names msg).
      - apply undeclared_lines_frame.
      - exists []. split; auto. intros; now rewrite app_nil_r. }
    destruct H1 as (b1 & Hb1 & H1).
    destruct (exec re_routines msg) as [m|].
    + destruct (undeclared_lines_frame (js "routine") (split_lines (grp m 1)))
        as (b2 & Hb2 & H2).
      exists (b1 ++ b2). split; [apply Forall_app; auto|].
      intros. now rewrite H2, H1, app_assoc.
    + destruct (parse_generics_total msg) as (b2 & Hb2 & H2).
      exists (b1 ++ b2). split; [apply Forall_app; auto|].
      intros. now rewrite H2, H1, app_assoc.
Qed.

Lemma packaged_parseErrorMessage_frame msg :
  exists batch, Forall emitted batch /\
    forall diagnostics,
      Packaged.parseErrorMessage msg diagnostics = diagnostics ++ batch.
Proof.
  unfold Packaged.parseErrorMessage, Packaged.parseMissingLibs,
    Packaged.parseUndeclared.
  destruct (exec re_missing msg) as [m|] eqn:Hm.
  - destruct (missing_libs_frame _ _ Hm) as (d & Hd & H).
    exists [d]. split; auto.
  - assert (H1 : exists b1, Forall emitted b1 /\ forall diagnostics,
               match exec re_names msg with
               | Some m => undeclared_lines (js "name") (split_lines (grp m 1)) diagnostics
               | None => diagnostics
               end = diagnostics ++ b1).
    { destruct (exec re_names msg).
      - apply undeclared_lines_frame.
      - exists []. split; auto. intros; now rewrite app_nil_r. }
    destruct H1 as (b1 & Hb1 & H1).
    destruct (exec re_routines msg) as [m|].
    + destruct (undeclared_lines_frame (js "routine") (split_lines (grp m 1)))
        as (b2 & Hb2 & H2).
      exists (b1 ++ b2). split; [apply Forall_app; auto|].
      intros. now rewrite H2, H1, app_assoc.
    + destruct (parseGenerics_frame msg) as (d & Hd & H2).
      exists (b1 ++ [d]). split; [apply Forall_app; auto|].
      intros. now rewrite H2, H1, app_assoc.
Qed.

(** *** Two generic blocks in a row *)

Section TwoBlocks.

Variables f file n c : jsstring.
Hypothesis Hf : forallb (in_cls Dot) f = true.
Hypothesis Hfile : forallb (in_cls Dot) file = true.
Hypothesis Hn1 : n <> [].
Hypothesis Hn2 : forallb is_digit n = true.
Hypothesis Hc : forallb (in_cls Dot) c = true.

Lemma generic_run_block p rest :
  stops Dot rest ->
  exists st,
    run re_generic p (block_then f file n c rest) mstate0 = Some st
    /\ matched st = generic_block f file n c.
Proof.
  intros Hrest.
  destruct (generic_single_run p f file n c rest) as (st & Hr & Hm & _); auto.
  pose proof (run_ungroup re_generic_single p p eq_refl
                (block_then f file n c rest) mstate0 mstate0 eq_refl) as He.
  change (ungroup re_generic_single) with re_generic in He.
  rewrite Hr in He. unfold ends in He.
  destruct (run re_generic p (block_then f file n c rest) mstate0) as [st2|];
    simpl in He; [|discriminate He].
  exists st2. split; auto. congruence.
Qed.

Lemma parse_generic_single_block diagnostics :
  ServerTs.parse_generic_single (generic_block f file n c) diagnostics
  = Ok (diagnostics ++ [error_at (line_number n) f]).
Proof.
  destruct (generic_single_run 0 f file n c []) as (st & Hr & Hm & Hcaps);
    auto; [exact I|].
  rewrite <- block_then_eq, app_nil_r in Hr.
  unfold ServerTs.parse_generic_single, exec.
  rewrite (search_at _ _ _ _ Hr). unfold grp. simpl. rewrite Hcaps. reflexivity.
Qed.

Lemma exec_generic_first_block rest :
  stops Dot rest ->
  exists m, exec re_generic (generic_block f file n c ++ rest) = Some m
            /\ grp m 0 = generic_block f file n c.
Proof.
  intros Hrest. destruct (generic_run_block 0 rest Hrest) as (st & Hr & Hm).
  rewrite block_then_eq. unfold exec. rewrite (search_at _ _ _ _ Hr).
  eexists. split; [reflexivity|]. exact Hm.
Qed.

Lemma exec_generic_after_break :
  exists m, exec re_generic (10%N :: generic_block f file n c) = Some m
            /\ grp m 0 = generic_block f file n c.
Proof.
  destruct (generic_run_block 1 [] I) as (st & Hr & Hm).
  replace (10%N :: generic_block f file n c)
    with (10%N :: block_then f file n c [])
    by (now rewrite <- block_then_eq, app_nil_r).
  unfold exec. cbn [search].
  rewrite (generic_fails_at_break 0 f file n c [] Hf).
  rewrite (search_at _ _ _ _ Hr).
  eexists. split; [reflexivity|]. exact Hm.
Qed.

End TwoBlocks.

(** *** The list of undeclared names *)

Lemma undeclared_lines_app type ls diagnostics :
  undeclared_lines type ls diagnostics = diagnostics ++ undeclared_lines type ls [].
Proof.
  destruct (undeclared_lines_frame type ls) as (batch & _ & H).
  now rewrite (H diagnostics), (H []).
Qed.

Lemma undeclared_lines_prefix type entries ms rest :
  Forall2 (fun l m2 => exec re_used_at l = Some m2) entries ms ->
  list_ends rest ->
  forall diagnostics,
    undeclared_lines type (entries ++ rest) diagnostics
    = diagnostics ++ List.map (undeclared_entry type) ms.
Proof.
  intros H Hrest. induction H as [|l m2 entries ms Hl H IH]; intros d; simpl.
  - rewrite app_nil_r. destruct rest as [|stop rest]; simpl; auto.
    simpl in Hrest. now rewrite Hrest.
  - rewrite Hl, IH. unfold push. rewrite <- app_assoc. reflexivity.
Qed.

Lemma split_lines_aux_line l rest : forall cur,
  forallb (in_cls Dot) l = true ->
  split_lines_aux cur (l ++ 10%N :: rest)
  = (rev cur ++ l) :: split_lines_aux [] rest.
Proof.
  induction l as [|a l IH]; intros cur Hl; simpl in *.
  - now rewrite app_nil_r.
  - apply andb_prop in Hl. destruct Hl as [Ha Hl].
    destruct (dot_not_break a Ha) as [H10 H13]. rewrite H10, H13.
    cbn [andb].
    assert (E : split_lines_aux (a :: cur) (l ++ 10%N :: rest)
                = (rev cur ++ a :: l) :: split_lines_aux [] rest).
    { rewrite IH by auto. simpl. now rewrite <- app_assoc. }
    destruct (l ++ 10%N :: rest); exact E.
Qed.

Lemma split_lines_list es rest :
  Forall entry_ok es ->
  split_lines (list_text es ++ rest)
  = List.map entry_line es ++ split_lines rest.
Proof.
  unfold split_lines, list_text. induction 1 as [|e es He Hes IH]; simpl; auto.
  rewrite <- !app_assoc. cbn [app].
  rewrite split_lines_aux_line by now apply entry_line_dots.
  simpl. now rewrite IH.
Qed.

Lemma header_line_stops what plural rest :
  forallb (in_cls Dot) (js what) = true ->
  exec re_used_at (js what ++ plural_s plural ++ js ":") = None ->
  list_ends (split_lines (list_header what plural ++ rest)).
Proof.
  intros Hw Hx. unfold split_lines, list_header.
  replace ((js what ++ plural_s plural ++ js ":" ++ [10%N]) ++ rest)
    with ((js what ++ plural_s plural ++ js ":") ++ 10%N :: rest)
    by (repeat (rewrite <- app_assoc; cbn [app]); reflexivity).
  rewrite split_lines_aux_line.
  - exact Hx.
  - rewrite !forallb_app, Hw. destruct plural; reflexivity.
Qed.

(** A list of well-formed entries, one per line, followed by text whose first
    line is not an entry, yields the diagnostics of the entries, in order:
    each on the line it names minus one, with the message made of the type,
    the name, " is not declared" and the advice. *)
Theorem undeclared_list type es rest :
  Forall entry_ok es -> list_ends (split_lines rest) ->
  ServerTs.parse_undeclared type (list_text es ++ rest) []
  = List.map (entry_diagnostic type) es
  /\ Packaged.parseUndeclared type (list_text es ++ rest) []
     = List.map (entry_diagnostic type) es.
Proof.
  intros Hes Hrest.
  unfold ServerTs.parse_undeclared, Packaged.parseUndeclared.
  rewrite (split_lines_list es rest Hes).
  rewrite (undeclared_lines_prefix type (List.map entry_line es)
             (List.map entry_match es) (split_lines rest)); auto.
  - simpl. rewrite map_map. auto.
  - clear Hrest. induction Hes as [|e es He Hes IH]; simpl; constructor; auto.
    now apply entry_exec.
Qed.

(** * The claims *)

(** C1. On the text "Undeclared names:", "  foo used at line 5",
    "  bar used at line 9 (did you mean 'baz'?)", the extractor of server.ts
    produces exactly two diagnostics: line 4 with "name foo is not declared"
    and line 8 with "name bar is not declared (did you mean 'baz'?)".  The
    packaged copy falls through to [parseGenerics] and appends a third
    diagnostic, on line 0, holding the whole text. *)
Theorem C1_undeclared_names_example :
  ServerTs.parseErrorMessage undeclared_names_text []
  = Ok [error_at 4 (js "name foo is not declared");
        error_at 8 (js "name bar is not declared (did you mean 'baz'?)")]
  /\ Packaged.parseErrorMessage undeclared_names_text []
     = [error_at 4 (js "name foo is not declared");
        error_at 8 (js "name bar is not declared (did you mean 'baz'?)");
        error_at 0 undeclared_names_text].
Proof. split; vm_compute; reflexivity. Qed.

(** C2. On a text of two generic blocks, [parse_generics] of server.ts
    returns the two diagnostics in order, on lines 11 and 19, while
    [parseGenerics] of the packaged copy returns one diagnostic only, for the
    first block. *)
Theorem C2_two_blocks_example :
  ServerTs.parseErrorMessage two_blocks_text []
  = Ok [error_at 11 (js "Variable '$x' is not declared");
        error_at 19 (js "Two terms in a row")]
  /\ Packaged.parseErrorMessage two_blocks_text []
     = [error_at 11 (js "Variable '$x' is not declared")].
Proof. split; vm_compute; reflexivity. Qed.

(** For every text of two generic blocks whose findings, file names and
    pointer lines hold no line break, server.ts returns the two diagnostics in
    order, each on its own line with its own finding. *)
Theorem server_two_blocks msg f1 file1 n1 c1 f2 file2 n2 c2 :
  replace_empty re_sorry msg
  = generic_block f1 file1 n1 c1 ++ 10%N :: generic_block f2 file2 n2 c2 ->
  exec re_missing msg = None ->
  exec re_names msg = None ->
  exec re_routines msg = None ->
  forallb (in_cls Dot) f1 = true -> forallb (in_cls Dot) file1 = true ->
  n1 <> [] -> forallb is_digit n1 = true -> forallb (in_cls Dot) c1 = true ->
  forallb (in_cls Dot) f2 = true -> forallb (in_cls Dot) file2 = true ->
  n2 <> [] -> forallb is_digit n2 = true -> forallb (in_cls Dot) c2 = true ->
  ServerTs.parseErrorMessage msg []
  = Ok [error_at (line_number n1) f1; error_at (line_number n2) f2].
Proof.
  intros Htext H1 H2 H3 Hf1 Hp1 Hn1 Hd1 Hc1 Hf2 Hp2 Hn2 Hd2 Hc2.
  unfold ServerTs.parseErrorMessage, ServerTs.parse_generics.
  rewrite H1, H2, H3, Htext.
  assert (Hlen : 2 <= length (generic_block f1 file1 n1 c1
                                ++ 10%N :: generic_block f2 file2 n2 c2)).
  { unfold generic_block. rewrite !length_app. simpl. lia. }
  set (b1 := generic_block f1 file1 n1 c1) in *.
  set (b2 := generic_block f2 file2 n2 c2) in *.
  destruct (length (b1 ++ 10%N :: b2)) as [|[|fuel]]; try lia.
  destruct (exec_generic_first_block f1 file1 n1 c1 Hf1 Hp1 Hn1 Hd1 Hc1
              (10%N :: b2)) as (m1 & Hm1 & Hg1); [reflexivity|].
  destruct (exec_generic_after_break f2 file2 n2 c2 Hf2 Hp2 Hn2 Hd2 Hc2)
    as (m2 & Hm2 & Hg2).
  cbn [ServerTs.generics_loop]. fold b1 in Hm1, Hg1. rewrite Hm1, Hg1.
  unfold b1 at 1. rewrite parse_generic_single_block by auto.
  cbn [bind]. unfold slice. fold b1. rewrite skipn_length_app.
  fold b2 in Hm2, Hg2. rewrite Hm2, Hg2.
  unfold b2 at 1. rewrite parse_generic_single_block by auto.
  cbn [bind]. fold b2.
  assert (Hshort : forall b : jsstring,
             exec re_generic (skipn (length b) (10%N :: b)) = None).
  { intros b. apply generic_short. rewrite length_skipn.
    change (length (10%N :: b)) with (S (length b)). lia. }
  destruct fuel; simpl; rewrite Hshort; reflexivity.
Qed.

(** On the same texts the packaged copy reports the first block only. *)
Theorem packaged_two_blocks msg f1 file1 n1 c1 b2 :
  replace_empty re_sorry msg = generic_block f1 file1 n1 c1 ++ 10%N :: b2 ->
  exec re_missing msg = None ->
  exec re_names msg = None ->
  exec re_routines msg = None ->
  forallb (in_cls Dot) f1 = true -> forallb (in_cls Dot) file1 = true ->
  n1 <> [] -> forallb is_digit n1 = true -> forallb (in_cls Dot) c1 = true ->
  Packaged.parseErrorMessage msg [] = [error_at (line_number n1) f1].
Proof.
  intros Htext H1 H2 H3 Hf1 Hp1 Hn1 Hd1 Hc1.
  unfold Packaged.parseErrorMessage, Packaged.parseGenerics.
  rewrite H1, H2, H3, Htext, block_then_eq.
  destruct (generic_first_run 0 f1 file1 n1 c1 (10%N :: b2))
    as (st & Hr & Hcaps); auto; [reflexivity|].
  unfold exec. rewrite (search_at _ _ _ _ Hr).
  unfold grp. simpl. rewrite Hcaps. reflexivity.
Qed.

(** The two theorems at the text of two blocks used above. *)
Example two_blocks_instance :
  ServerTs.parseErrorMessage two_blocks_text []
  = Ok [error_at (line_number (js "12")) (js "Variable '$x' is not declared");
        error_at (line_number (js "20")) (js "Two terms in a row")]
  /\ Packaged.parseErrorMessage two_blocks_text []
     = [error_at (line_number (js "12")) (js "Variable '$x' is not declared")].
Proof.
  split.
  - apply (server_two_blocks two_blocks_text
             (js "Variable '$x' is not declared") (js "/tmp/f.p6") (js "12")
             (js "my $y = $x;")
             (js "Two terms in a row") (js "/tmp/f.p6") (js "20") (js "say 1 2"));
      try (vm_compute; reflexivity); discriminate.
  - apply (packaged_two_blocks two_blocks_text
             (js "Variable '$x' is not declared") (js "/tmp/f.p6") (js "12")
             (js "my $y = $x;")
             (generic_block (js "Two terms in a row") (js "/tmp/f.p6") (js "20")
                (js "say 1 2")));
      try (vm_compute; reflexivity); discriminate.
Qed.

(** The loop of server.ts cuts [single.length] code units off the front of
    the text, although the match may start further on: with a finding of two
    lines the second block is reported twice. *)
Lemma server_long_finding_repeats :
  ServerTs.parseErrorMessage long_finding_text []
  = Ok [error_at 11 (js "Variable '$x' is not declared");
        error_at 19 (js "Missing block");
        error_at 19 (js "Missing block")].
Proof. vm_compute; reflexivity. Qed.

(** C3. On a text of none of the four shapes, the packaged copy returns one
    diagnostic on line 0 whose message is the text without its banner line,
    while server.ts returns an empty batch. *)
Theorem C3_free_text_example :
  Packaged.parseErrorMessage free_text []
  = [error_at 0 (js "Something went wrong")]
  /\ ServerTs.parseErrorMessage free_text [] = Ok [].
Proof. split; vm_compute; reflexivity. Qed.

(** For every text of none of the four shapes the packaged copy returns the
    one fallback diagnostic. *)
Lemma no_shape_packaged msg :
  exec re_missing msg = None ->
  exec re_names msg = None ->
  exec re_routines msg = None ->
  exec re_generic_first (replace_empty re_sorry msg) = None ->
  Packaged.parseErrorMessage msg [] = [error_at 0 (replace_empty re_sorry msg)].
Proof.
  intros H1 H2 H3 H4. unfold Packaged.parseErrorMessage, Packaged.parseGenerics.
  now rewrite H1, H2, H3, H4.
Qed.

(** For every such text server.ts returns an empty batch. *)
Lemma no_shape_server msg :
  exec re_missing msg = None ->
  exec re_names msg = None ->
  exec re_routines msg = None ->
  exec re_generic_first (replace_empty re_sorry msg) = None ->
  ServerTs.parseErrorMessage msg [] = Ok [].
Proof.
  intros H1 H2 H3 H4. unfold ServerTs.parseErrorMessage, ServerTs.parse_generics.
  rewrite H1, H2, H3.
  apply exec_none in H4. apply search_ungroup in H4; [|reflexivity].
  change (ungroup re_generic_first) with re_generic in H4.
  apply search_none_exec in H4.
  destruct (length (replace_empty re_sorry msg)); simpl; now rewrite H4.
Qed.

(** The two lemmas at the free text used above, whose banner line is the
    one [replace] removes. *)
Example free_text_instance :
  replace_empty re_sorry free_text = js "Something went wrong"
  /\ Packaged.parseErrorMessage free_text []
     = [error_at 0 (replace_empty re_sorry free_text)]
  /\ ServerTs.parseErrorMessage free_text [] = Ok [].
Proof.
  split; [|split].
  - apply (sorry_banner (js "!=== Error while compiling /tmp/f.p6")
             (js "Something went wrong")). reflexivity.
  - apply no_shape_packaged; vm_compute; reflexivity.
  - apply no_shape_server; vm_compute; reflexivity.
Qed.

(** C4, as stated, fails from line 2^53 + 1 on: the number read is a double,
    2^53 + 1 is read as 2^53, and the diagnostic is on line 2^53 - 1, two
    lines above the line reported and not one. *)
Lemma C4_large_line_counterexample :
  ServerTs.parseErrorMessage large_line_text []
  = Ok [error_at 9007199254740991
          (js "Could not find Foo in:" ++ 10%N :: js "    /home/u/.perl6")]
  /\ Packaged.parseErrorMessage large_line_text []
     = [error_at 9007199254740991
          (js "Could not find Foo in:" ++ 10%N :: js "    /home/u/.perl6")]
  /\ (decimal (js "9007199254740993") - 1 = 9007199254740992)%Z.
Proof. repeat split; vm_compute; reflexivity. Qed.

(** C4, amended. A text whose first occurrence of the missing-library shape
    reads "Could not find M at line N in:", a line break, and the paths P,
    the number N being below 2^53, yields exactly one diagnostic, on line
    N-1, with the message "Could not find M in:", a line feed, P; nothing
    else is emitted. *)
Theorem C4_missing_library pre M N c P :
  let msg := pre ++ js "Could not find " ++ M ++ js " at line " ++ N
                 ++ js " in:" ++ c :: P in
  option_map index (exec re_missing msg) = Some (length pre) ->
  M <> [] -> forallb (in_cls NonSpace) M = true ->
  N <> [] -> forallb is_digit N = true -> (decimal N < 2 ^ 53)%Z ->
  (c = 10 \/ c = 13)%N -> P <> [] ->
  ServerTs.parseErrorMessage msg []
  = Ok [error_at (decimal N - 1)
          (js "Could not find " ++ M ++ js " in:" ++ 10%N :: P)]
  /\ Packaged.parseErrorMessage msg []
     = [error_at (decimal N - 1)
          (js "Could not find " ++ M ++ js " in:" ++ 10%N :: P)].
Proof.
  intros msg Hi HM1 HM2 HN1 HN2 Hexact Hc HP.
  rewrite <- (line_number_exact N Hexact).
  destruct (missing_run (length pre) M N c P) as (st & Hr & Hcaps); auto.
  pose proof (exec_at_index re_missing pre _ st Hi Hr) as Hm.
  unfold ServerTs.parseErrorMessage, Packaged.parseErrorMessage.
  fold msg in Hm. rewrite Hm.
  unfold ServerTs.parse_missing_libs, Packaged.parseMissingLibs, missing_libs, grp.
  cbn [groups nth]. rewrite Hcaps. split; reflexivity.
Qed.

Lemma C4_missing_library_witness :
  ServerTs.parseErrorMessage
    (missing_lib_prefix ++ js "Could not find " ++ js "Foo::Bar"
       ++ js " at line " ++ js "3" ++ js " in:" ++ 10%N :: missing_lib_paths) []
  = Ok [error_at 2 (js "Could not find " ++ js "Foo::Bar" ++ js " in:"
                       ++ 10%N :: missing_lib_paths)]
  /\ Packaged.parseErrorMessage
       (missing_lib_prefix ++ js "Could not find " ++ js "Foo::Bar"
          ++ js " at line " ++ js "3" ++ js " in:" ++ 10%N :: missing_lib_paths) []
     = [error_at 2 (js "Could not find " ++ js "Foo::Bar" ++ js " in:"
                       ++ 10%N :: missing_lib_paths)].
Proof.
  apply (C4_missing_library missing_lib_prefix (js "Foo::Bar") (js "3") 10%N
           missing_lib_paths).
  - vm_compute; reflexivity.
  - discriminate.
  - reflexivity.
  - discriminate.
  - reflexivity.
  - vm_compute; reflexivity.
  - left; reflexivity.
  - discriminate.
Defined.

(** C5, as stated, fails: a reported line number 0 gives a diagnostic on
    line -1. *)
Lemma C5_line_zero_counterexample :
  exists d, In d (Packaged.parseErrorMessage line_zero_text [])
            /\ ServerTs.parseErrorMessage line_zero_text [] = Ok [d]
            /\ line (start (range d)) = Fin (-1).
Proof.
  eexists. split; [|split].
  - vm_compute. left. reflexivity.
  - vm_compute. reflexivity.
  - vm_compute. reflexivity.
Qed.

(** C5, amended. For every input, both copies return a batch in which every
    diagnostic has severity Error, source "perl6" and a line number of at
    least -1. *)
Theorem C5_severity_source_line msg :
  (exists batch, ServerTs.parseErrorMessage msg [] = Ok batch
                 /\ Forall compiler_error batch)
  /\ Forall compiler_error (Packaged.parseErrorMessage msg []).
Proof.
  split.
  - destruct (server_parseErrorMessage_total msg) as (batch & Hb & H).
    exists batch. split; [apply (H [])|].
    eapply Forall_impl; [|exact Hb]. apply emitted_compiler_error.
  - destruct (packaged_parseErrorMessage_frame msg) as (batch & Hb & H).
    rewrite (H []). simpl.
    eapply Forall_impl; [|exact Hb]. apply emitted_compiler_error.
Qed.




(** The text of a list of names followed by a list of routines, each of
    well-formed entries, yields the diagnostics of the names, in order, then
    those of the routines, in order. *)
Theorem names_then_routines pre plural1 es1 plural2 es2 tail :
  let body2 := list_text es2 ++ tail in
  let body1 := list_text es1 ++ list_header "Undeclared routine" plural2 ++ body2 in
  let msg := pre ++ list_header "Undeclared name" plural1 ++ body1 in
  exec re_missing msg = None ->
  option_map index (exec re_names msg) = Some (length pre) ->
  option_map index (exec re_routines msg)
  = Some (length (pre ++ list_header "Undeclared name" plural1 ++ list_text es1)) ->
  Forall entry_ok es1 -> Forall entry_ok es2 ->
  body2 <> [] -> list_ends (split_lines tail) ->
  ServerTs.parseErrorMessage msg []
  = Ok (List.map (entry_diagnostic (js "name")) es1
        ++ List.map (entry_diagnostic (js "routine")) es2)
  /\ Packaged.parseErrorMessage msg []
     = List.map (entry_diagnostic (js "name")) es1
       ++ List.map (entry_diagnostic (js "routine")) es2.
Proof.
  intros body2 body1 msg H0 H1 H2 He1 He2 Hb2 Htail.
  assert (Hb1 : body1 <> []).
  { unfold body1, list_header, plural_s. intros E. apply app_eq_nil in E.
    destruct E as [_ E]. destruct plural2; discriminate. }
  destruct (header_run "Undeclared name" plural1 (length pre) body1 Hb1)
    as (st1 & Hr1 & Hc1).
  pose proof (exec_at_index re_names pre _ st1 H1 Hr1) as Hm1.
  set (pre2 := pre ++ list_header "Undeclared name" plural1 ++ list_text es1) in *.
  assert (Emsg : msg = pre2 ++ list_header "Undeclared routine" plural2 ++ body2).
  { unfold msg, pre2, body1. now rewrite <- !app_assoc. }
  destruct (header_run "Undeclared routine" plural2 (length pre2) body2 Hb2)
    as (st2 & Hr2 & Hc2).
  rewrite Emsg in H2.
  pose proof (exec_at_index re_routines pre2 _ st2 H2 Hr2) as Hm2.
  rewrite <- Emsg in Hm2.
  assert (Hstop : list_ends
                    (split_lines (list_header "Undeclared routine" plural2 ++ body2))).
  { apply header_line_stops; [reflexivity|]. destruct plural2; vm_compute; reflexivity. }
  destruct (undeclared_list (js "name") es1 _ He1 Hstop) as [Hn1 Hn2].
  destruct (undeclared_list (js "routine") es2 tail He2 Htail) as [Hq1 Hq2].
  fold body2 in Hq1, Hq2. fold body1 in Hn1, Hn2.
  unfold ServerTs.parseErrorMessage, Packaged.parseErrorMessage.
  fold msg in Hm1. rewrite H0, Hm1, Hm2.
  unfold grp. cbn [groups nth]. rewrite Hc1, Hc2.
  cbn [nth].
  unfold ServerTs.parse_undeclared, Packaged.parseUndeclared in *.
  rewrite (undeclared_lines_app (js "routine")), Hn1, Hq1. auto.
Qed.

(** The theorem at the text of two lists used above. *)
Example names_then_routines_instance :
  ServerTs.parseErrorMessage names_and_routines_text []
  = Ok [error_at (line_number (js "1")) (js "name Foo is not declared");
        error_at (line_number (js "2"))
          (js "routine bar is not declared. Did you mean 'VAR', 'bag'?")].
Proof.
  apply (names_then_routines
           (js ("===SORRY!=== Error while compiling /tmp/f.p6" ++ LF)%string)
           false
           [{| e_indent := js "    "; e_name := js "Foo"; e_digits := js "1";
               e_advice := [] |}]
           false
           [{| e_indent := js "    "; e_name := js "bar"; e_digits := js "2";
               e_advice := js ". Did you mean 'VAR', 'bag'?" |}]
           []).
  - vm_compute; reflexivity.
  - vm_compute; reflexivity.
  - vm_compute; reflexivity.
  - repeat constructor; discriminate.
  - repeat constructor; discriminate.
  - discriminate.
  - vm_compute; reflexivity.
Qed.

(** C7. The generic block "Variable '$x' is not declared",
    "at /tmp/f.p6:12", "------> my $y = $x;" yields exactly one diagnostic,
    on line 11, whose message is the finding alone. *)
Theorem C7_generic_block_example :
  ServerTs.parseErrorMessage generic_block_text []
  = Ok [error_at 11 (js "Variable '$x' is not declared")]
  /\ Packaged.parseErrorMessage generic_block_text []
     = [error_at 11 (js "Variable '$x' is not declared")].
Proof. split; vm_compute; reflexivity. Qed.

(** C8. When the list splits into lines that all match the "used at line"
    pattern, followed by nothing or by a first line that does not match,
    exactly one diagnostic per leading line is emitted, and none for what
    follows, whatever it holds: the batch has as many diagnostics as there
    are leading lines, and the diagnostic of a line is its message on the
    line that the source computes, the number read minus one as doubles. *)
Theorem C8_list_stops_at_first_mismatch type lines entries ms rest :
  split_lines lines = entries ++ rest ->
  Forall2 (fun l m2 => exec re_used_at l = Some m2) entries ms ->
  list_ends rest ->
  ServerTs.parse_undeclared type lines [] = List.map (undeclared_entry type) ms
  /\ Packaged.parseUndeclared type lines [] = List.map (undeclared_entry type) ms
  /\ length (ServerTs.parse_undeclared type lines []) = length entries
  /\ length (Packaged.parseUndeclared type lines []) = length entries.
Proof.
  intros Hs He Hr.
  unfold ServerTs.parse_undeclared, Packaged.parseUndeclared.
  rewrite Hs, (undeclared_lines_prefix type entries ms rest He Hr).
  cbn [app]. rewrite length_map, (Forall2_length He). auto.
Qed.

Lemma C8_list_stops_at_first_mismatch_witness :
  ServerTs.parse_undeclared (js "routine") interrupted_list []
  = [error_at 0 (js "routine foo is not declared")]
  /\ Packaged.parseUndeclared (js "routine") interrupted_list []
     = [error_at 0 (js "routine foo is not declared")]
  /\ length (ServerTs.parse_undeclared (js "routine") interrupted_list []) = 1
  /\ length (Packaged.parseUndeclared (js "routine") interrupted_list []) = 1.
Proof.
  apply (C8_list_stops_at_first_mismatch (js "routine") interrupted_list
           [js "    foo used at line 1"]
           [{| index := 0;
               groups := [js "    foo used at line 1"; js "foo"; js "1"; []] |}]
           [js "oops"; js "    bar used at line 2"; []]).
  - vm_compute; reflexivity.
  - constructor; [vm_compute; reflexivity | constructor].
  - vm_compute; reflexivity.
Defined.

(** *** The extractor over a store of objects *)

Lemma nth_error_fresh {A} (l : list A) x : nth_error (l ++ [x]) (length l) = Some x.
Proof. rewrite nth_error_app2, Nat.sub_diag by lia. reflexivity. Qed.

Lemma nth_error_update {A} (l : list A) a x y :
  nth_error l a = Some y -> nth_error (update l a x) a = Some x.
Proof.
  revert a. induction l as [|z l IH]; intros [|a] H; simpl in *;
    try discriminate; auto.
Qed.

(** [exec] on the object of a literal without flags is [exec] of the
    pattern, whatever the store holds. *)
Lemma literal_exec {B} r s (k : nat -> option RegExpExecArray -> stateful B) h :
  (re <~ new_RegExp r false ;; m <~ RegExp_exec re s ;; k re m) h
  = k (length (regexps h)) (exec r s) (with_RegExp h r false).
Proof.
  unfold sbind, new_RegExp, RegExp_exec, with_RegExp. simpl.
  rewrite nth_error_fresh. reflexivity.
Qed.

(** [replace] with the object of a literal without flags removes the first
    match. *)
Lemma literal_replace {B} r s (k : jsstring -> stateful B) h :
  (re <~ new_RegExp r false ;; text <~ String_replace re s ;; k text) h
  = k (replace_empty r s) (with_RegExp h r false).
Proof.
  unfold sbind at 1 2, new_RegExp, String_replace, with_RegExp. simpl.
  rewrite nth_error_fresh. simpl. unfold sbind at 1. unfold ret at 1.
  unfold sbind at 1, RegExp_exec. simpl. rewrite nth_error_fresh. simpl.
  unfold replace_empty, exec.
  destruct (search r s 0) as [[p st]|]; simpl; [|reflexivity].
  unfold ret. now rewrite Nat.sub_0_r.
Qed.

Lemma holds_with_RegExp h r g a l : holds h a l -> holds (with_RegExp h r g) a l.
Proof. exact (fun H => H). Qed.

Lemma push_holds a d h l :
  holds h a l ->
  exists h', Array_push a d h = Ok (tt, h') /\ holds h' a (push l d).
Proof.
  intros H. unfold Array_push. unfold holds in H. rewrite H.
  eexists. split; [reflexivity|]. unfold holds. simpl.
  now apply (nth_error_update _ _ _ l).
Qed.

Lemma undeclared_lines_agrees type a : forall ls h l,
  holds h a l ->
  agrees (OnObjects.undeclared_lines type ls a h) a
    (Ok (undeclared_lines type ls l)).
Proof.
  induction ls as [|line ls IH]; intros h l H.
  - exists h. auto.
  - cbn [OnObjects.undeclared_lines undeclared_lines]. rewrite literal_exec.
    destruct (exec re_used_at line) as [m2|].
    + destruct (push_holds a
                  (error_at (minus_one (to_number (grp m2 2)))
                     (type ++ js " " ++ grp m2 1 ++ js " is not declared" ++ grp m2 3))
                  (with_RegExp h re_used_at false) l H) as (h' & Hp & H').
      unfold sbind at 1. cbv zeta. rewrite Hp. now apply IH.
    + eexists. split; [reflexivity|]. exact H.
Qed.

Lemma parse_undeclared_agrees type lines a h l :
  holds h a l ->
  agrees (OnObjects.parse_undeclared type lines a h) a
    (Ok (undeclared_lines type (split_lines lines) l)).
Proof.
  intros H. unfold OnObjects.parse_undeclared, String_split.
  unfold sbind at 1 2, new_RegExp, ret.
  apply undeclared_lines_agrees. exact H.
Qed.

Lemma parse_missing_libs_agrees m a h l :
  holds h a l ->
  agrees (OnObjects.parse_missing_libs m a h) a (Ok (missing_libs m l)).
Proof. intros H. now apply push_holds. Qed.

Lemma parse_generic_single_agrees msg a h l :
  holds h a l ->
  agrees (ServerTsOnObjects.parse_generic_single msg a h) a
    (ServerTs.parse_generic_single msg l).
Proof.
  intros H. unfold ServerTsOnObjects.parse_generic_single,
    ServerTs.parse_generic_single.
  rewrite literal_exec. destruct (exec re_generic_single msg) as [m|].
  - now apply push_holds.
  - reflexivity.
Qed.

Lemma generics_loop_agrees a : forall fuel text h l,
  holds h a l ->
  agrees (ServerTsOnObjects.generics_loop fuel text a h) a
    (ServerTs.generics_loop fuel text l).
Proof.
  induction fuel as [|fuel IH]; intros text h l H.
  - cbn [ServerTsOnObjects.generics_loop ServerTs.generics_loop].
    rewrite literal_exec. destruct (exec re_generic text) as [reea|].
    + reflexivity.
    + eexists. split; [reflexivity|]. exact H.
  - cbn [ServerTsOnObjects.generics_loop ServerTs.generics_loop].
    rewrite literal_exec. destruct (exec re_generic text) as [reea|].
    + pose proof (parse_generic_single_agrees (grp reea 0) a
                    (with_RegExp h re_generic false) l H) as Hs.
      unfold sbind at 1. cbv zeta.
      destruct (ServerTs.parse_generic_single (grp reea 0) l) as [l'| |];
        simpl in *.
      * destruct Hs as (h' & -> & H'). now apply IH.
      * now rewrite Hs.
      * now rewrite Hs.
    + eexists. split; [reflexivity|]. exact H.
Qed.

Lemma parse_generics_agrees msg a h l :
  holds h a l ->
  agrees (ServerTsOnObjects.parse_generics msg a h) a
    (ServerTs.parse_generics msg l).
Proof.
  intros H. unfold ServerTsOnObjects.parse_generics, ServerTs.parse_generics.
  rewrite literal_replace. now apply generics_loop_agrees.
Qed.

Lemma parseGenerics_agrees msg a h l :
  holds h a l ->
  agrees (PackagedOnObjects.parseGenerics msg a h) a
    (Ok (Packaged.parseGenerics msg l)).
Proof.
  intros H. unfold PackagedOnObjects.parseGenerics, Packaged.parseGenerics.
  rewrite literal_replace, literal_exec. cbv zeta.
  destruct (exec re_generic_first (replace_empty re_sorry msg)) as [m|];
    now apply push_holds.
Qed.

Lemma server_parseErrorMessage_agrees msg a h l :
  holds h a l ->
  agrees (ServerTsOnObjects.parseErrorMessage msg a h) a
    (ServerTs.parseErrorMessage msg l).
Proof.
  intros H. unfold ServerTsOnObjects.parseErrorMessage, ServerTs.parseErrorMessage.
  rewrite literal_exec. destruct (exec re_missing msg) as [m|].
  - now apply parse_missing_libs_agrees.
  - rewrite literal_exec.
    assert (H1 : holds (with_RegExp (with_RegExp h re_missing false) re_names false) a l)
      by exact H.
    revert H1. generalize (with_RegExp (with_RegExp h re_missing false) re_names false).
    intros h1 H1.
    assert (Hn : agrees
                   (match exec re_names msg with
                    | Some m => OnObjects.parse_undeclared (js "name") (grp m 1) a
                    | None => ret tt
                    end h1) a
                   (Ok match exec re_names msg with
                       | Some m => ServerTs.parse_undeclared (js "name") (grp m 1) l
                       | None => l
                       end)).
    { destruct (exec re_names msg) as [m|].
      - now apply parse_undeclared_agrees.
      - exists h1. auto. }
    destruct Hn as (h2 & Hn & H2).
    unfold sbind at 1. rewrite Hn. rewrite literal_exec.
    destruct (exec re_routines msg) as [m|].
    + apply parse_undeclared_agrees. now apply holds_with_RegExp.
    + apply parse_generics_agrees. now apply holds_with_RegExp.
Qed.

Lemma packaged_parseErrorMessage_agrees msg a h l :
  holds h a l ->
  agrees (PackagedOnObjects.parseErrorMessage msg a h) a
    (Ok (Packaged.parseErrorMessage msg l)).
Proof.
  intros H. unfold PackagedOnObjects.parseErrorMessage, Packaged.parseErrorMessage.
  rewrite literal_exec. destruct (exec re_missing msg) as [m|].
  - now apply parse_missing_libs_agrees.
  - rewrite literal_exec.
    assert (H1 : holds (with_RegExp (with_RegExp h re_missing false) re_names false) a l)
      by exact H.
    revert H1. generalize (with_RegExp (with_RegExp h re_missing false) re_names false).
    intros h1 H1.
    assert (Hn : agrees
                   (match exec re_names msg with
                    | Some m => OnObjects.parse_undeclared (js "name") (grp m 1) a
                    | None => ret tt
                    end h1) a
                   (Ok match exec re_names msg with
                       | Some m => Packaged.parseUndeclared (js "name") (grp m 1) l
                       | None => l
                       end)).
    { destruct (exec re_names msg) as [m|].
      - now apply parse_undeclared_agrees.
      - exists h1. auto. }
    destruct Hn as (h2 & Hn & H2).
    unfold sbind at 1. rewrite Hn. rewrite literal_exec.
    destruct (exec re_routines msg) as [m|].
    + apply parse_undeclared_agrees. now apply holds_with_RegExp.
    + apply parseGenerics_agrees. now apply holds_with_RegExp.
Qed.

(** A run of the extractor of server.ts returns, from any store, the batch
    that the function of the text gives. *)
Lemma server_extract msg batch h :
  ServerTs.parseErrorMessage msg [] = Ok batch ->
  exists h', ServerTsOnObjects.extract msg h = Ok (batch, h').
Proof.
  intros Hb. unfold ServerTsOnObjects.extract, new_Array. unfold sbind at 1.
  pose proof (server_parseErrorMessage_agrees msg (length (arrays h))
                {| regexps := regexps h; arrays := arrays h ++ [[]] |} []
                (nth_error_fresh _ _)) as Ha.
  rewrite Hb in Ha. destruct Ha as (h' & Ha & H').
  unfold sbind. rewrite Ha. unfold Array_elements. unfold holds in H'.
  rewrite H'. eauto.
Qed.

Lemma packaged_extract msg h :
  exists h',
    PackagedOnObjects.extract msg h = Ok (Packaged.parseErrorMessage msg [], h').
Proof.
  unfold PackagedOnObjects.extract, new_Array. unfold sbind at 1.
  destruct (packaged_parseErrorMessage_agrees msg (length (arrays h))
              {| regexps := regexps h; arrays := arrays h ++ [[]] |} []
              (nth_error_fresh _ _)) as (h' & Ha & H').
  unfold sbind. rewrite Ha. unfold Array_elements. unfold holds in H'.
  rewrite H'. eauto.
Qed.

(** The state is there: one RegExp object with the [g] flag, used for two
    calls of [exec] on the same text, matches at the first call and not at
    the second. *)
Example shared_object_with_g_flag :
  (re <~ new_RegExp (lit "at ") true ;;
   m1 <~ RegExp_exec re (js "at ") ;;
   m2 <~ RegExp_exec re (js "at ") ;;
   ret (option_map index m1, option_map index m2))
    {| regexps := []; arrays := [] |}
  = Ok ((Some 0, None),
        {| regexps := [{| pattern := lit "at "; global := true; lastIndex := 0 |}];
           arrays := [] |}).
Proof. vm_compute; reflexivity. Qed.

(** C9. Two runs of the extractor on the same text, one after the other,
    each on a new, empty array, return the same batch, whatever objects the
    store holds before the first run and whatever the first run leaves in
    it: every regular expression of the extractor is a literal, which
    creates its object anew, [exec] is called on objects without the [g]
    flag only, and the array is the only object written.  The batch is the
    one that the function of the text gives.  Both copies. *)
Theorem C9_deterministic msg h :
  exists batch_server batch_packaged h1 h2 h3 h4,
    ServerTsOnObjects.extract msg h = Ok (batch_server, h1)
    /\ ServerTsOnObjects.extract msg h1 = Ok (batch_server, h2)
    /\ PackagedOnObjects.extract msg h = Ok (batch_packaged, h3)
    /\ PackagedOnObjects.extract msg h3 = Ok (batch_packaged, h4)
    /\ ServerTs.parseErrorMessage msg [] = Ok batch_server
    /\ Packaged.parseErrorMessage msg [] = batch_packaged.
Proof.
  destruct (server_parseErrorMessage_total msg) as (bs & _ & Hs).
  specialize (Hs []). simpl in Hs.
  destruct (server_extract msg bs h Hs) as (h1 & E1).
  destruct (server_extract msg bs h1 Hs) as (h2 & E2).
  destruct (packaged_extract msg h) as (h3 & E3).
  destruct (packaged_extract msg h3) as (h4 & E4).
  exists bs, (Packaged.parseErrorMessage msg []), h1, h2, h3, h4.
  repeat split; auto.
Qed.

(** C10. Every diagnostic emitted, from every shape, spans one line from
    character 0 to character 1000. *)
Theorem C10_full_line_range msg :
  (exists batch, ServerTs.parseErrorMessage msg [] = Ok batch
                 /\ Forall full_line batch)
  /\ Forall full_line (Packaged.parseErrorMessage msg []).
Proof.
  split.
  - destruct (server_parseErrorMessage_total msg) as (batch & Hb & H).
    exists batch. split; [apply (H [])|].
    eapply Forall_impl; [|exact Hb]. apply emitted_full_line.
  - destruct (packaged_parseErrorMessage_frame msg) as (batch & Hb & H).
    rewrite (H []). simpl.
    eapply Forall_impl; [|exact Hb]. apply emitted_full_line.
Qed.

(** * The extractor on every text *)

Lemma generic_single_shape text m :
  exec re_generic_single text = Some m ->
  forallb (in_cls Dot) (grp m 1) = true
  /\ grp m 2 <> [] /\ forallb is_digit (grp m 2) = true.
Proof.
  intros H. exec_inv H Hr. unfold re_generic_single in Hr.
  sem_inv Hr; subst; unfold grp; cbn; repeat split; auto.
Qed.

Lemma parse_generic_single_shape text reea :
  exec re_generic text = Some reea ->
  15 <= length (grp reea 0) <= length text /\
  exists d, generic_diagnostic d /\
    forall diagnostics,
      ServerTs.parse_generic_single (grp reea 0) diagnostics = Ok (diagnostics ++ [d]).
Proof.
  unfold exec. intros H.
  destruct (search re_generic text 0) as [[q st]|] eqn:Hs; [|discriminate].
  inversion H; subst; clear H. unfold grp at 1 2 3; cbn [groups nth].
  apply search_some in Hs. destruct Hs as (pre & rest & -> & -> & Hr).
  pose proof (generic_min_length _ _ _ Hr) as Hlen.
  apply (run_trunc re_generic) in Hr; [|reflexivity].
  destruct Hr as (x & rest' & -> & Hm & Hr). simpl in Hm. rewrite Hm in *.
  split. { rewrite !length_app. lia. }
  pose proof (run_ungroup re_generic_single 0 (0 + length pre) eq_refl
                x mstate0 mstate0 eq_refl) as He.
  change (ungroup re_generic_single) with re_generic in He.
  rewrite Hr in He. unfold ends in He.
  destruct (run re_generic_single 0 x mstate0) as [st2|] eqn:H2;
    simpl in He; [|discriminate He].
  apply search_at in H2.
  assert (Hx : exec re_generic_single x
               = Some {| index := 0; groups := matched st2 :: caps st2 |}).
  { unfold exec. now rewrite H2. }
  unfold ServerTs.parse_generic_single. rewrite Hx.
  eexists. split; [|intros; reflexivity].
  destruct (generic_single_shape _ _ Hx) as (H1 & H3 & H4).
  eexists _, _. split; [reflexivity|]. auto.
Qed.

Lemma generics_loop_shape : forall fuel text,
  length text <= fuel ->
  exists batch,
    Forall generic_diagnostic batch
    /\ 15 * length batch <= length text
    /\ forall diagnostics,
         ServerTs.generics_loop fuel text diagnostics = Ok (diagnostics ++ batch).
Proof.
  induction fuel as [|fuel IH]; intros text Hf.
  - simpl. destruct (exec re_generic text) as [reea|] eqn:He.
    + apply parse_generic_single_shape in He. lia.
    + exists []. repeat split; auto; simpl; try lia. intros; now rewrite app_nil_r.
  - simpl. destruct (exec re_generic text) as [reea|] eqn:He.
    + apply parse_generic_single_shape in He.
      destruct He as (Hlen & d & Hd & Hs).
      destruct (IH (slice text (length (grp reea 0)))) as (batch & Hb & Hn & Hl).
      { unfold slice. rewrite length_skipn. lia. }
      exists (d :: batch). split; [constructor; auto|]. split.
      * unfold slice in Hn. rewrite length_skipn in Hn. simpl. lia.
      * intros diags. rewrite Hs. simpl. rewrite Hl, <- app_assoc. reflexivity.
    + exists []. repeat split; auto; simpl; try lia. intros; now rewrite app_nil_r.
Qed.

Lemma replace_empty_length r s : length (replace_empty r s) <= length s.
Proof.
  unfold replace_empty. destruct (search r s 0) as [[p st]|]; auto.
  rewrite length_app, length_firstn, length_skipn. lia.
Qed.

(** X1. [parse_generics] of server.ts returns on every text: nothing is
    thrown, although [parse_generic_single] reads the groups of its match
    unchecked, and the loop ends. It only appends; it appends one diagnostic
    per round, each holding a finding without line break on the line read
    minus one; and a round takes at least 15 code units, so that the batch
    holds at most a fifteenth of the length of the text. *)
Theorem X1_parse_generics_returns msg :
  exists batch,
    (forall diagnostics,
        ServerTs.parse_generics msg diagnostics = Ok (diagnostics ++ batch))
    /\ 15 * length batch <= length msg
    /\ Forall generic_diagnostic batch.
Proof.
  unfold ServerTs.parse_generics.
  destruct (generics_loop_shape (length (replace_empty re_sorry msg))
              (replace_empty re_sorry msg)) as (batch & Hb & Hn & Hl); auto.
  exists batch. repeat split; auto.
  pose proof (replace_empty_length re_sorry msg). lia.
Qed.

(** X2. A text of none of the list shapes that, its banner line removed, is
    one generic block with a finding of one line, followed by text that holds
    no further block: both copies give the one diagnostic of the block, the
    finding on the line read minus one. *)
Theorem X2_single_block msg f file n c rest :
  replace_empty re_sorry msg = generic_block f file n c ++ rest ->
  no_list_shape msg -> block_ok f file n c ->
  stops Dot rest -> exec re_generic rest = None ->
  ServerTs.parseErrorMessage msg [] = Ok [error_at (line_number n) f]
  /\ Packaged.parseErrorMessage msg [] = [error_at (line_number n) f].
Proof.
  intros Htext (H1 & H2 & H3) (Hf & Hp & Hn & Hd & Hc) Hrest Hnone. split.
  - unfold ServerTs.parseErrorMessage, ServerTs.parse_generics.
    rewrite H1, H2, H3, Htext.
    destruct (exec_generic_first_block f file n c Hf Hp Hn Hd Hc rest Hrest)
      as (m & Hm & Hg).
    assert (Hlen : 1 <= length (generic_block f file n c ++ rest)).
    { unfold generic_block. rewrite !length_app. simpl. lia. }
    destruct (length (generic_block f file n c ++ rest)) as [|fuel]; [lia|].
    cbn [ServerTs.generics_loop]. rewrite Hm, Hg.
    rewrite parse_generic_single_block by auto.
    cbn [bind]. unfold slice. rewrite skipn_length_app.
    destruct fuel; simpl; rewrite Hnone; reflexivity.
  - unfold Packaged.parseErrorMessage, Packaged.parseGenerics.
    rewrite H1, H2, H3, Htext, block_then_eq.
    destruct (generic_first_run 0 f file n c rest) as (st & Hr & Hcaps); auto.
    unfold exec. rewrite (search_at _ _ _ _ Hr).
    unfold grp. simpl. rewrite Hcaps. reflexivity.
Qed.

(** X3. A text of none of the list shapes that, its banner line removed, is
    two generic blocks with findings of one line, one after the other:
    server.ts gives the diagnostics of both, in order; the packaged copy, which
    applies its pattern once, gives that of the first block only. *)
Theorem X3_two_blocks msg f1 file1 n1 c1 f2 file2 n2 c2 :
  replace_empty re_sorry msg
  = generic_block f1 file1 n1 c1 ++ 10%N :: generic_block f2 file2 n2 c2 ->
  no_list_shape msg -> block_ok f1 file1 n1 c1 -> block_ok f2 file2 n2 c2 ->
  ServerTs.parseErrorMessage msg []
  = Ok [error_at (line_number n1) f1; error_at (line_number n2) f2]
  /\ Packaged.parseErrorMessage msg [] = [error_at (line_number n1) f1].
Proof.
  intros Htext (H1 & H2 & H3) (Hf1 & Hp1 & Hn1 & Hd1 & Hc1)
    (Hf2 & Hp2 & Hn2 & Hd2 & Hc2). split.
  - now apply (server_two_blocks msg f1 file1 n1 c1 f2 file2 n2 c2).
  - now apply (packaged_two_blocks msg f1 file1 n1 c1
                 (generic_block f2 file2 n2 c2)).
Qed.

(** X4. A text that none of the patterns matches: the packaged copy gives one
    diagnostic on line 0 that holds the text without its banner line;
    server.ts gives no diagnostic. *)
Theorem X4_no_shape msg :
  no_list_shape msg ->
  exec re_generic_first (replace_empty re_sorry msg) = None ->
  Packaged.parseErrorMessage msg [] = [error_at 0 (replace_empty re_sorry msg)]
  /\ ServerTs.parseErrorMessage msg [] = Ok [].
Proof.
  intros (H1 & H2 & H3) H4. split.
  - now apply no_shape_packaged.
  - now apply no_shape_server.
Qed.

(** X5. Unless the text holds a header of undeclared routines, the packaged
    copy reports at least one diagnostic, whatever the text is. *)
Theorem X5_packaged_reports msg :
  exec re_routines msg = None -> 1 <= length (Packaged.parseErrorMessage msg []).
Proof.
  intros H3. unfold Packaged.parseErrorMessage. rewrite H3.
  destruct (exec re_missing msg) as [m|].
  - unfold Packaged.parseMissingLibs, missing_libs, push. rewrite length_app.
    simpl. lia.
  - destruct (parseGenerics_frame msg) as (d & _ & Hd). rewrite Hd, length_app.
    simpl. lia.
Qed.

(** X6. A header of undeclared routines followed by a line that is not an
    entry, in a text without missing library and without list of names: both
    copies return no diagnostic at all, the generic step not being tried after
    the routines branch. *)
Theorem X6_routines_without_entries pre plural body :
  let msg := pre ++ list_header "Undeclared routine" plural ++ body in
  exec re_missing msg = None -> exec re_names msg = None ->
  option_map index (exec re_routines msg) = Some (length pre) ->
  body <> [] -> list_ends (split_lines body) ->
  ServerTs.parseErrorMessage msg [] = Ok []
  /\ Packaged.parseErrorMessage msg [] = [].
Proof.
  intros msg H1 H2 H3 Hb Hstop.
  destruct (header_run "Undeclared routine" plural (length pre) body Hb)
    as (st & Hr & Hc).
  pose proof (exec_at_index re_routines pre _ st H3 Hr) as Hm. fold msg in Hm.
  unfold ServerTs.parseErrorMessage, Packaged.parseErrorMessage.
  rewrite H1, H2, Hm. unfold grp. cbn [groups nth]. rewrite Hc. cbn [nth].
  unfold ServerTs.parse_undeclared, Packaged.parseUndeclared.
  destruct (split_lines body) as [|stop ls]; simpl; auto.
  simpl in Hstop. rewrite Hstop. auto.
Qed.

Lemma split_lines_aux_crlf l rest : forall cur,
  forallb (in_cls Dot) l = true ->
  split_lines_aux cur (l ++ 13%N :: 10%N :: rest)
  = (rev cur ++ l) :: split_lines_aux [] rest.
Proof.
  induction l as [|a l IH]; intros cur Hl; simpl in *.
  - now rewrite app_nil_r.
  - apply andb_prop in Hl. destruct Hl as [Ha Hl].
    destruct (dot_not_break a Ha) as [H10 H13]. rewrite H10, H13.
    cbn [andb].
    assert (E : split_lines_aux (a :: cur) (l ++ 13%N :: 10%N :: rest)
                = (rev cur ++ a :: l) :: split_lines_aux [] rest).
    { rewrite IH by auto. simpl. now rewrite <- app_assoc. }
    destruct (l ++ 13%N :: 10%N :: rest); exact E.
Qed.

Lemma split_lines_list_with br es rest :
  line_break br -> Forall entry_ok es ->
  split_lines (list_text_with br es ++ rest)
  = List.map entry_line es ++ split_lines rest.
Proof.
  intros Hbr. unfold split_lines, list_text_with.
  induction 1 as [|e es He Hes IH]; simpl; auto.
  rewrite <- !app_assoc.
  destruct Hbr as [-> | ->]; cbn [app].
  - rewrite split_lines_aux_line by now apply entry_line_dots.
    simpl. now rewrite IH.
  - rewrite split_lines_aux_crlf by now apply entry_line_dots.
    simpl. now rewrite IH.
Qed.

Lemma entries_match es :
  Forall entry_ok es ->
  Forall2 (fun l m2 => exec re_used_at l = Some m2)
    (List.map entry_line es) (List.map entry_match es).
Proof.
  induction 1 as [|e es He Hes IH]; simpl; constructor; auto.
  now apply entry_exec.
Qed.

(** X7. [parse_undeclared] on a list of well-formed entries, the lines ending
    in LF or in CR LF alike, followed by a line that is not an entry or by
    nothing: one diagnostic per entry, in the order of the list, after what
    the array held; the same in both copies. *)
Theorem X7_undeclared_list type br es rest diagnostics :
  line_break br -> Forall entry_ok es -> list_ends (split_lines rest) ->
  ServerTs.parse_undeclared type (list_text_with br es ++ rest) diagnostics
  = diagnostics ++ List.map (entry_diagnostic type) es
  /\ Packaged.parseUndeclared type (list_text_with br es ++ rest) diagnostics
     = diagnostics ++ List.map (entry_diagnostic type) es.
Proof.
  intros Hbr Hes Hrest.
  unfold ServerTs.parse_undeclared, Packaged.parseUndeclared.
  rewrite (split_lines_list_with br es rest Hbr Hes).
  rewrite (undeclared_lines_prefix type (List.map entry_line es)
             (List.map entry_match es) (split_lines rest)
             (entries_match es Hes) Hrest).
  rewrite map_map. auto.
Qed.

(** X8. A list of undeclared names in a text with no list of routines and no
    generic block: server.ts gives the diagnostics of the entries; the
    packaged copy, whose names branch does not return, gives them followed by
    a diagnostic on line 0 that holds the whole text without its banner
    line. *)
Theorem X8_names_only pre plural es rest :
  let msg := pre ++ list_header "Undeclared name" plural ++ list_text es ++ rest in
  exec re_missing msg = None -> exec re_routines msg = None ->
  option_map index (exec re_names msg) = Some (length pre) ->
  exec re_generic_first (replace_empty re_sorry msg) = None ->
  Forall entry_ok es -> list_text es ++ rest <> [] ->
  list_ends (split_lines rest) ->
  ServerTs.parseErrorMessage msg []
  = Ok (List.map (entry_diagnostic (js "name")) es)
  /\ Packaged.parseErrorMessage msg []
     = List.map (entry_diagnostic (js "name")) es
       ++ [error_at 0 (replace_empty re_sorry msg)].
Proof.
  intros msg H1 H3 H2 H4 Hes Hb Hrest.
  destruct (header_run "Undeclared name" plural (length pre) _ Hb)
    as (st & Hr & Hc).
  pose proof (exec_at_index re_names pre _ st H2 Hr) as Hm. fold msg in Hm.
  destruct (undeclared_list (js "name") es rest Hes Hrest) as [Hn1 Hn2].
  unfold ServerTs.parseErrorMessage, Packaged.parseErrorMessage.
  rewrite H1, H3, Hm. unfold grp. cbn [groups nth]. rewrite Hc. cbn [nth].
  rewrite Hn1, Hn2. split.
  - unfold ServerTs.parse_generics.
    apply exec_none in H4. apply search_ungroup in H4; [|reflexivity].
    change (ungroup re_generic_first) with re_generic in H4.
    apply search_none_exec in H4.
    destruct (length (replace_empty re_sorry msg)); simpl; now rewrite H4.
  - unfold Packaged.parseGenerics. rewrite H4. reflexivity.
Qed.

Lemma X2_single_block_witness :
  ServerTs.parseErrorMessage
    (missing_lib_prefix ++ generic_block_text ++ js (LF ++ "    expecting any of:")) []
  = Ok [error_at (line_number (js "12")) (js "Variable '$x' is not declared")]
  /\ Packaged.parseErrorMessage
       (missing_lib_prefix ++ generic_block_text ++ js (LF ++ "    expecting any of:")) []
     = [error_at (line_number (js "12")) (js "Variable '$x' is not declared")].
Proof.
  apply (X2_single_block _ (js "Variable '$x' is not declared") (js "/tmp/f.p6")
           (js "12") (js "my $y = $x;") (js (LF ++ "    expecting any of:"))).
  - vm_compute; reflexivity.
  - repeat split; vm_compute; reflexivity.
  - repeat split; try discriminate; vm_compute; reflexivity.
  - vm_compute; reflexivity.
  - vm_compute; reflexivity.
Defined.

Lemma X3_two_blocks_witness :
  ServerTs.parseErrorMessage two_blocks_text []
  = Ok [error_at (line_number (js "12")) (js "Variable '$x' is not declared");
        error_at (line_number (js "20")) (js "Two terms in a row")]
  /\ Packaged.parseErrorMessage two_blocks_text []
     = [error_at (line_number (js "12")) (js "Variable '$x' is not declared")].
Proof.
  apply (X3_two_blocks two_blocks_text
           (js "Variable '$x' is not declared") (js "/tmp/f.p6") (js "12")
           (js "my $y = $x;")
           (js "Two terms in a row") (js "/tmp/f.p6") (js "20") (js "say 1 2")).
  - vm_compute; reflexivity.
  - repeat split; vm_compute; reflexivity.
  - repeat split; try discriminate; vm_compute; reflexivity.
  - repeat split; try discriminate; vm_compute; reflexivity.
Defined.

Lemma X4_no_shape_witness :
  Packaged.parseErrorMessage free_text [] = [error_at 0 (replace_empty re_sorry free_text)]
  /\ ServerTs.parseErrorMessage free_text [] = Ok [].
Proof.
  apply (X4_no_shape free_text).
  - repeat split; vm_compute; reflexivity.
  - vm_compute; reflexivity.
Defined.

Lemma X5_packaged_reports_witness :
  1 <= length (Packaged.parseErrorMessage free_text []).
Proof.
  apply (X5_packaged_reports free_text). vm_compute; reflexivity.
Defined.

Lemma X6_routines_without_entries_witness :
  ServerTs.parseErrorMessage
    (missing_lib_prefix ++ list_header "Undeclared routine" true ++ js "oops") []
  = Ok []
  /\ Packaged.parseErrorMessage
       (missing_lib_prefix ++ list_header "Undeclared routine" true ++ js "oops") []
     = [].
Proof.
  apply (X6_routines_without_entries missing_lib_prefix true (js "oops")).
  - vm_compute; reflexivity.
  - vm_compute; reflexivity.
  - vm_compute; reflexivity.
  - discriminate.
  - vm_compute; reflexivity.
Defined.

Lemma X7_undeclared_list_witness :
  ServerTs.parse_undeclared (js "routine")
    (list_text_with [13%N; 10%N] [foo_entry; bar_entry] ++ js "oops") []
  = [] ++ List.map (entry_diagnostic (js "routine")) [foo_entry; bar_entry]
  /\ Packaged.parseUndeclared (js "routine")
       (list_text_with [13%N; 10%N] [foo_entry; bar_entry] ++ js "oops") []
     = [] ++ List.map (entry_diagnostic (js "routine")) [foo_entry; bar_entry].
Proof.
  apply (X7_undeclared_list (js "routine") [13%N; 10%N] [foo_entry; bar_entry]
           (js "oops") []).
  - right; reflexivity.
  - repeat constructor; discriminate.
  - vm_compute; reflexivity.
Defined.

Lemma X8_names_only_witness :
  ServerTs.parseErrorMessage
    (missing_lib_prefix ++ list_header "Undeclared name" true
       ++ list_text [foo_entry; bar_entry] ++ []) []
  = Ok (List.map (entry_diagnostic (js "name")) [foo_entry; bar_entry])
  /\ Packaged.parseErrorMessage
       (missing_lib_prefix ++ list_header "Undeclared name" true
          ++ list_text [foo_entry; bar_entry] ++ []) []
     = List.map (entry_diagnostic (js "name")) [foo_entry; bar_entry]
       ++ [error_at 0
             (replace_empty re_sorry
                (missing_lib_prefix ++ list_header "Undeclared name" true
                   ++ list_text [foo_entry; bar_entry] ++ []))].
Proof.
  apply (X8_names_only missing_lib_prefix true [foo_entry; bar_entry] []).
  - vm_compute; reflexivity.
  - vm_compute; reflexivity.
  - vm_compute; reflexivity.
  - vm_compute; reflexivity.
  - repeat constructor; discriminate.
  - discriminate.
  - vm_compute; reflexivity.
Defined.

(** X9. On every text the two copies append the same diagnostics for the
    missing library and for the two lists. They differ only in what the
    generic step adds, and that step is taken only when neither the
    missing-library pattern nor the routines pattern matches: the packaged
    copy then adds exactly one diagnostic, server.ts one for each round of its
    loop. *)
Theorem X9_copies_differ_in_generic msg :
  exists lists server_generic packaged_generic,
    (forall diagnostics,
        ServerTs.parseErrorMessage msg diagnostics
        = Ok (diagnostics ++ lists ++ server_generic))
    /\ (forall diagnostics,
           Packaged.parseErrorMessage msg diagnostics
           = diagnostics ++ lists ++ packaged_generic)
    /\ match exec re_missing msg, exec re_routines msg with
       | None, None =>
           length packaged_generic = 1
           /\ Forall generic_diagnostic server_generic
       | _, _ => server_generic = [] /\ packaged_generic = []
       end.
Proof.
  unfold ServerTs.parseErrorMessage, Packaged.parseErrorMessage,
    ServerTs.parse_missing_libs, Packaged.parseMissingLibs,
    ServerTs.parse_undeclared, Packaged.parseUndeclared.
  destruct (exec re_missing msg) as [m|] eqn:Hm.
  - destruct (missing_libs_frame _ _ Hm) as (d & _ & H).
    exists [d], [], []. repeat split; intros; rewrite H; reflexivity.
  - assert (H1 : exists b1, forall diagnostics,
               match exec re_names msg with
               | Some m => undeclared_lines (js "name") (split_lines (grp m 1)) diagnostics
               | None => diagnostics
               end = diagnostics ++ b1).
    { destruct (exec re_names msg) as [m|].
      - destruct (undeclared_lines_frame (js "name") (split_lines (grp m 1)))
          as (b & _ & H). now exists b.
      - exists []. intros. now rewrite app_nil_r. }
    destruct H1 as (b1 & H1).
    destruct (exec re_routines msg) as [m|].
    + destruct (undeclared_lines_frame (js "routine") (split_lines (grp m 1)))
        as (b2 & _ & H2).
      exists (b1 ++ b2), [], []. repeat split; intros;
        rewrite H2, H1, app_nil_r, app_assoc; reflexivity.
    + unfold ServerTs.parse_generics.
      destruct (generics_loop_shape (length (replace_empty re_sorry msg))
                  (replace_empty re_sorry msg) (le_n _)) as (bs & Hs & _ & Hbs).
      destruct (parseGenerics_frame msg) as (d & _ & Hd).
      exists b1, bs, [d]. repeat split; auto; intros.
      * now rewrite Hbs, H1, app_assoc.
      * now rewrite Hd, H1, app_assoc.
Qed.

(** *** A block after a line: the slice of the loop of server.ts *)

Lemma generic_fails_in_line p l f file n c rest :
  forallb (in_cls Dot) l = true -> forallb (in_cls Dot) f = true ->
  run re_generic p (l ++ 10%N :: block_then f file n c rest) mstate0 = None.
Proof.
  intros Hl Hf. apply run_none. intros st' H.
  unfold re_generic in H. sem_eqs H; subst;
    apply (first_stop_unique Dot) in E; auto; try reflexivity; try break_char;
    destruct E as (El & Eb & E'); subst;
    try (vm_compute in E2; discriminate E2);
    eapply block_first_break in E'; eauto; try break_char;
    destruct E' as [E1 E']; subst; try discriminate.
Qed.

Lemma line_feeds_app a b : line_feeds (a ++ b) = line_feeds a + line_feeds b.
Proof. apply count_occ_app. Qed.

Lemma line_feeds_feed s : line_feeds (10%N :: s) = S (line_feeds s).
Proof. unfold line_feeds. now rewrite count_occ_cons_eq. Qed.

Lemma line_feeds_cons a s : line_feeds s <= line_feeds (a :: s).
Proof.
  unfold line_feeds. simpl. destruct (N.eq_dec a 10); lia.
Qed.

Lemma line_feeds_dots l : forallb (in_cls Dot) l = true -> line_feeds l = 0.
Proof.
  induction l as [|a l IH]; simpl; auto. intros H.
  apply andb_prop in H. destruct H as [Ha Hl].
  unfold line_feeds in *. simpl. destruct (N.eq_dec a 10) as [->|]; auto.
  discriminate Ha.
Qed.

Lemma line_feeds_skipn k : forall s, line_feeds (skipn k s) <= line_feeds s.
Proof.
  induction k as [|k IH]; intros [|a s]; simpl; auto.
  pose proof (IH s). pose proof (line_feeds_cons a s). lia.
Qed.

Lemma line_feeds_step a s :
  line_feeds (a :: s) = (if N.eq_dec a 10%N then 1 else 0) + line_feeds s.
Proof. unfold line_feeds. simpl. destruct (N.eq_dec a 10); reflexivity. Qed.

(** A match of the loop pattern holds two line feeds. *)
Lemma generic_two_feeds p s st :
  run re_generic p s mstate0 = Some st -> 2 <= line_feeds s.
Proof.
  intros Hr. apply run_sound in Hr. unfold re_generic in Hr.
  sem_inv Hr; subst;
    repeat match goal with
           | H : in_cls (Chr 10%N) ?b = true |- _ => apply N.eqb_eq in H; subst b
           end;
    repeat (rewrite ?line_feeds_app, ?line_feeds_step; cbn [app]);
    repeat destruct (N.eq_dec _ _); try congruence; lia.
Qed.

Lemma few_feeds_no_match s : line_feeds s < 2 -> exec re_generic s = None.
Proof.
  intros Hs. apply search_none_exec.
  destruct (search re_generic s 0) as [[q st]|] eqn:E; auto.
  apply search_some in E. destruct E as (pre & rest & -> & _ & Hr).
  apply generic_two_feeds in Hr. rewrite line_feeds_app in Hs. lia.
Qed.

Lemma forallb_skipn {A} (g : A -> bool) k : forall l,
  forallb g l = true -> forallb g (skipn k l) = true.
Proof.
  induction k as [|k IH]; intros [|a l] H; simpl in *; auto.
  apply andb_prop in H. destruct H. auto.
Qed.

Lemma skipn_app_le {A} k (x y : list A) :
  k <= length x -> skipn k (x ++ y) = skipn k x ++ y.
Proof.
  intros H. rewrite skipn_app. replace (k - length x) with 0 by lia. reflexivity.
Qed.

Lemma skipn_app_ge {A} k (x y : list A) :
  length x <= k -> skipn k (x ++ y) = skipn (k - length x) y.
Proof.
  intros H. rewrite skipn_app, skipn_all2 by lia. reflexivity.
Qed.

Section BlockAfterLine.

Variables f file n c : jsstring.
Hypothesis Hf : forallb (in_cls Dot) f = true.
Hypothesis Hfile : forallb (in_cls Dot) file = true.
Hypothesis Hn1 : n <> [].
Hypothesis Hn2 : forallb is_digit n = true.
Hypothesis Hc : forallb (in_cls Dot) c = true.

Lemma search_after_line : forall l p,
  forallb (in_cls Dot) l = true ->
  exists st,
    search re_generic (l ++ 10%N :: generic_block f file n c) p
    = Some (p + S (length l), st)
    /\ matched st = generic_block f file n c.
Proof.
  induction l as [|a l IH]; intros p Hl.
  - destruct (generic_run_block f file n c Hf Hfile Hn1 Hn2 Hc (S p) [] I)
      as (st & Hr & Hm).
    exists st. split; auto.
    replace (generic_block f file n c) with (block_then f file n c [])
      by (now rewrite <- block_then_eq, app_nil_r).
    pose proof (generic_fails_in_line p [] f file n c [] eq_refl Hf) as Hfail.
    cbn [app] in Hfail. cbn [app search]. rewrite Hfail.
    rewrite (search_at _ _ _ _ Hr). f_equal. f_equal. simpl. lia.
  - simpl in Hl. apply andb_prop in Hl. destruct Hl as [Ha Hl].
    destruct (IH (S p) Hl) as (st & Hs & Hm).
    exists st. split; auto.
    assert (Hfail : run re_generic p
                      ((a :: l) ++ 10%N :: block_then f file n c []) mstate0 = None).
    { apply generic_fails_in_line; auto. simpl. now rewrite Ha, Hl. }
    rewrite <- block_then_eq, app_nil_r in Hfail.
    cbn [app] in Hfail. cbn [app search]. rewrite Hfail, Hs.
    f_equal. f_equal. simpl. lia.
Qed.

Lemma exec_after_line l :
  forallb (in_cls Dot) l = true ->
  exists m, exec re_generic (l ++ 10%N :: generic_block f file n c) = Some m
            /\ grp m 0 = generic_block f file n c.
Proof.
  intros Hl. destruct (search_after_line l 0 Hl) as (st & Hs & Hm).
  unfold exec. rewrite Hs. eexists. split; [reflexivity|]. exact Hm.
Qed.

Lemma block_length :
  length (generic_block f file n c)
  = length f + S (length (js "at " ++ file ++ js ":" ++ n
                          ++ 10%N :: js "------> " ++ c)).
Proof. unfold generic_block. rewrite length_app. reflexivity. Qed.

Lemma block_feeds_after_finding k :
  length f < k -> exec re_generic (skipn k (generic_block f file n c)) = None.
Proof.
  intros Hk. apply few_feeds_no_match.
  unfold generic_block. rewrite skipn_app_ge by lia.
  destruct (k - length f) as [|j] eqn:E; [lia|]. cbn [skipn].
  eapply Nat.le_lt_trans; [apply line_feeds_skipn|].
  rewrite !line_feeds_app, line_feeds_feed, !line_feeds_app.
  rewrite (line_feeds_dots file Hfile), (line_feeds_dots n (digits_are_dots _ Hn2)),
    (line_feeds_dots c Hc).
  vm_compute. lia.
Qed.

Lemma exec_block_after pre :
  line_before pre ->
  exists m, exec re_generic (pre ++ generic_block f file n c) = Some m
            /\ grp m 0 = generic_block f file n c.
Proof.
  intros [->|(l & Hl & ->)].
  - destruct (exec_generic_first_block f file n c Hf Hfile Hn1 Hn2 Hc [] I)
      as (m & Hm & Hg).
    rewrite app_nil_r in Hm. exists m. auto.
  - rewrite <- app_assoc. cbn [app]. now apply exec_after_line.
Qed.

Lemma line_before_skipn pre k :
  line_before pre -> k <= length pre -> line_before (skipn k pre).
Proof.
  intros [->|(l & Hl & ->)] Hk.
  - left. now destruct k.
  - rewrite length_app in Hk. simpl in Hk.
    destruct (Nat.eq_dec k (S (length l))) as [->|Hne].
    + left. apply skipn_all2. rewrite length_app. simpl. lia.
    + right. exists (skipn k l). split; [now apply forallb_skipn|].
      apply skipn_app_le. lia.
Qed.

Lemma loop_round fuel text diagnostics m :
  exec re_generic text = Some m -> grp m 0 = generic_block f file n c ->
  ServerTs.generics_loop (S fuel) text diagnostics
  = ServerTs.generics_loop fuel (skipn (length (generic_block f file n c)) text)
      (diagnostics ++ [error_at (line_number n) f]).
Proof.
  intros Hm Hg. cbn [ServerTs.generics_loop]. rewrite Hm, Hg.
  rewrite parse_generic_single_block by auto. reflexivity.
Qed.

Lemma loop_end fuel diagnostics :
  ServerTs.generics_loop fuel [] diagnostics = Ok diagnostics.
Proof.
  destruct fuel; reflexivity.
Qed.

End BlockAfterLine.

Lemma loop_after_line f file n c :
  block_ok f file n c ->
  forall q pre r fuel diagnostics,
    line_before pre ->
    length pre = q * length (generic_block f file n c) + r ->
    r < length (generic_block f file n c) ->
    length (pre ++ generic_block f file n c) <= fuel ->
    ServerTs.generics_loop fuel (pre ++ generic_block f file n c) diagnostics
    = Ok (diagnostics ++ repeat (error_at (line_number n) f) (S q)
            ++ (if r =? 0 then []
                else cut_report f n (length (generic_block f file n c) - r))).
Proof.
  intros (Hf & Hfile & Hn1 & Hn2 & Hc).
  pose proof (block_length f file n c) as HL.
  set (L := length (generic_block f file n c)) in *.
  induction q as [|q IH]; intros pre r fuel diagnostics Hpre Hlen Hr Hfuel.
  - simpl in Hlen. rewrite length_app in Hfuel. fold L in Hfuel.
    destruct fuel as [|fuel]; [lia|].
    destruct (exec_block_after f file n c Hf Hfile Hn1 Hn2 Hc pre Hpre) as (m & Hm & Hg).
    rewrite (loop_round f file n c Hf Hfile Hn1 Hn2 Hc fuel _ _ m Hm Hg). fold L.
    rewrite skipn_app_ge by lia. rewrite Hlen. cbn [repeat app].
    destruct (Nat.eqb_spec r 0) as [->|Hr0].
    + rewrite Nat.sub_0_r. unfold L. rewrite skipn_all. rewrite loop_end.
      reflexivity.
    + unfold cut_report. destruct (Nat.leb_spec (L - r) (length f)) as [Hcut|Hcut].
      * unfold generic_block at 1. rewrite skipn_app_le by exact Hcut.
        fold (generic_block (skipn (L - r) f) file n c).
        destruct (exec_generic_first_block (skipn (L - r) f) file n c
                    (forallb_skipn _ _ _ Hf) Hfile Hn1 Hn2 Hc [] I)
          as (m' & Hm' & Hg').
        rewrite app_nil_r in Hm'.
        destruct fuel as [|fuel]; [lia|].
        rewrite (loop_round (skipn (L - r) f) file n c (forallb_skipn _ _ _ Hf)
                   Hfile Hn1 Hn2 Hc fuel _ _ m' Hm' Hg').
        rewrite skipn_all, loop_end, <- app_assoc. reflexivity.
      * unfold L. destruct fuel as [|fuel]; cbn [ServerTs.generics_loop];
          rewrite (block_feeds_after_finding f file n c Hfile Hn2 Hc) by (fold L; lia);
          reflexivity.
  - rewrite length_app in Hfuel. fold L in Hfuel.
    destruct fuel as [|fuel]; [lia|].
    destruct (exec_block_after f file n c Hf Hfile Hn1 Hn2 Hc pre Hpre) as (m & Hm & Hg).
    rewrite (loop_round f file n c Hf Hfile Hn1 Hn2 Hc fuel _ _ m Hm Hg). fold L.
    simpl in Hlen.
    rewrite skipn_app_le by lia.
    rewrite (IH (skipn L pre) r fuel); auto.
    + rewrite <- app_assoc. reflexivity.
    + apply line_before_skipn; auto. lia.
    + rewrite length_skipn. lia.
    + rewrite length_app, length_skipn. fold L. lia.
Qed.

Lemma generic_first_fails_in_line p l f file n c rest :
  forallb (in_cls Dot) l = true -> forallb (in_cls Dot) f = true ->
  run re_generic_first p (l ++ 10%N :: block_then f file n c rest) mstate0 = None.
Proof.
  intros Hl Hf.
  pose proof (run_ungroup re_generic_first p p eq_refl
                (l ++ 10%N :: block_then f file n c rest) mstate0 mstate0 eq_refl)
    as He.
  change (ungroup re_generic_first) with re_generic in He.
  rewrite (generic_fails_in_line p l f file n c rest Hl Hf) in He.
  destruct (run re_generic_first p _ mstate0); [discriminate He|reflexivity].
Qed.

Lemma search_first_after_line f file n c :
  block_ok f file n c ->
  forall l p,
    forallb (in_cls Dot) l = true ->
    exists st,
      search re_generic_first (l ++ 10%N :: generic_block f file n c) p
      = Some (p + S (length l), st)
      /\ caps st = [f; n].
Proof.
  intros (Hf & Hfile & Hn1 & Hn2 & Hc).
  induction l as [|a l IH]; intros p Hl.
  - destruct (generic_first_run (S p) f file n c [] Hf Hfile Hn1 Hn2 Hc I)
      as (st & Hr & Hm).
    exists st. split; auto.
    replace (generic_block f file n c) with (block_then f file n c [])
      by (now rewrite <- block_then_eq, app_nil_r).
    pose proof (generic_first_fails_in_line p [] f file n c [] eq_refl Hf) as Hfail.
    cbn [app] in Hfail. cbn [app search]. rewrite Hfail.
    rewrite (search_at _ _ _ _ Hr). f_equal. f_equal. simpl. lia.
  - simpl in Hl. apply andb_prop in Hl. destruct Hl as [Ha Hl].
    destruct (IH (S p) Hl) as (st & Hs & Hm).
    exists st. split; auto.
    assert (Hfail : run re_generic_first p
                      ((a :: l) ++ 10%N :: block_then f file n c []) mstate0 = None).
    { apply generic_first_fails_in_line; auto. simpl. now rewrite Ha, Hl. }
    rewrite <- block_then_eq, app_nil_r in Hfail.
    cbn [app] in Hfail. cbn [app search]. rewrite Hfail, Hs.
    f_equal. f_equal. simpl. lia.
Qed.

(** X10. A text of none of the list shapes that, its banner line removed, is
    one line followed by a generic block. The loop of server.ts slices its
    text by the length of the match and leaves out the index of the match, so
    that the block is found again as long as a line feed stands before it:
    the line and its line feed being q times as long as the block and r code
    units more, the block is reported q + 1 times, and once more, with what
    is left of its finding, when the last slice cut the block within the
    finding. The packaged copy reports the block once. *)
Theorem X10_block_after_line (msg l f file n c : jsstring) q r :
  replace_empty re_sorry msg = l ++ 10%N :: generic_block f file n c ->
  no_list_shape msg -> forallb (in_cls Dot) l = true -> block_ok f file n c ->
  S (length l) = q * length (generic_block f file n c) + r ->
  r < length (generic_block f file n c) ->
  ServerTs.parseErrorMessage msg []
  = Ok (repeat (error_at (line_number n) f) (S q)
        ++ (if r =? 0 then []
            else cut_report f n (length (generic_block f file n c) - r)))
  /\ Packaged.parseErrorMessage msg [] = [error_at (line_number n) f].
Proof.
  intros Htext (H1 & H2 & H3) Hl Hb Hlen Hr. split.
  - unfold ServerTs.parseErrorMessage, ServerTs.parse_generics.
    rewrite H1, H2, H3, Htext.
    replace (l ++ 10%N :: generic_block f file n c)
      with ((l ++ [10%N]) ++ generic_block f file n c)
      by (now rewrite <- app_assoc).
    rewrite (loop_after_line f file n c Hb q (l ++ [10%N]) r); auto.
    + right. exists l. auto.
    + rewrite length_app. simpl. lia.
  - unfold Packaged.parseErrorMessage, Packaged.parseGenerics.
    rewrite H1, H2, H3, Htext.
    destruct (search_first_after_line f file n c Hb l 0 Hl) as (st & Hs & Hcaps).
    unfold exec. rewrite Hs. unfold grp. simpl. rewrite Hcaps. reflexivity.
Qed.

Lemma X10_block_after_line_witness :
  ServerTs.parseErrorMessage (expression_line ++ 10%N :: generic_block_text) []
  = Ok [error_at 11 (js "Variable '$x' is not declared"); error_at 11 (js "d")]
  /\ Packaged.parseErrorMessage (expression_line ++ 10%N :: generic_block_text) []
     = [error_at 11 (js "Variable '$x' is not declared")].
Proof.
  apply (X10_block_after_line (expression_line ++ 10%N :: generic_block_text)
           expression_line (js "Variable '$x' is not declared") (js "/tmp/f.p6")
           (js "12") (js "my $y = $x;") 0 37).
  - vm_compute; reflexivity.
  - repeat split; vm_compute; reflexivity.
  - vm_compute; reflexivity.
  - repeat split; try discriminate; vm_compute; reflexivity.
  - vm_compute; reflexivity.
  - vm_compute; lia.
Defined.

(** * The server around the extractor *)

(** ** Temporary files *)

Lemma same_path_refl a : same_path a a = true.
Proof. unfold same_path. destruct (list_eq_dec N.eq_dec a a); congruence. Qed.

Lemma same_path_neq a b : a <> b -> same_path a b = false.
Proof. unfold same_path. destruct (list_eq_dec N.eq_dec a b); congruence. Qed.

Lemma without_absent path fs : existsSync path fs = false -> without path fs = fs.
Proof.
  unfold existsSync, without. induction fs as [|e fs IH]; simpl; auto.
  intros H. apply orb_false_elim in H. destruct H as [He H].
  rewrite He. simpl. now rewrite IH.
Qed.

Lemma exists_without_same path fs : existsSync path (without path fs) = false.
Proof.
  unfold existsSync, without. induction fs as [|e fs IH]; simpl; auto.
  destruct (same_path (fst e) path) eqn:He; simpl; auto. now rewrite He.
Qed.

Lemma exists_without_other a b fs :
  a <> b -> existsSync a (without b fs) = existsSync a fs.
Proof.
  intros Hab. unfold existsSync, without.
  induction fs as [|e fs IH]; simpl; auto.
  destruct (same_path (fst e) b) eqn:Heb; simpl.
  - unfold same_path in Heb. destruct (list_eq_dec N.eq_dec (fst e) b); [|discriminate].
    rewrite (same_path_neq (fst e) a) by congruence. simpl. exact IH.
  - now rewrite IH.
Qed.

Lemma without_comm a b fs : without a (without b fs) = without b (without a fs).
Proof.
  unfold without. induction fs as [|e fs IH]; simpl; auto.
  destruct (same_path (fst e) a) eqn:Ha, (same_path (fst e) b) eqn:Hb;
    simpl; rewrite ?Ha, ?Hb; simpl; now rewrite ?IH.
Qed.

Lemma without_idem path fs : without path (without path fs) = without path fs.
Proof. apply without_absent, exists_without_same. Qed.

Lemma exists_written path data fs : existsSync path (writeFileSync path data fs) = true.
Proof. unfold writeFileSync, existsSync. simpl. now rewrite same_path_refl. Qed.

Lemma without_written path data fs :
  without path (writeFileSync path data fs) = without path fs.
Proof.
  unfold writeFileSync. unfold without at 1. simpl. rewrite same_path_refl. simpl.
  apply without_idem.
Qed.

(** Writing a file and unlinking it leaves the files that were there. *)
Lemma unlink_written path data fs :
  unlinkSync path (writeFileSync path data fs) = Some (without path fs).
Proof.
  unfold unlinkSync. now rewrite exists_written, without_written.
Qed.

Lemma exists_written_other a b data fs :
  a <> b -> existsSync a (writeFileSync b data fs) = existsSync a fs.
Proof.
  intros Hab. unfold writeFileSync, existsSync at 1. simpl.
  rewrite (same_path_neq b a) by congruence. simpl.
  now apply exists_without_other.
Qed.

Lemma without_written_other a b data fs :
  a <> b ->
  without a (writeFileSync b data fs) = writeFileSync b data (without a fs).
Proof.
  intros Hab. unfold writeFileSync. unfold without at 1. simpl.
  rewrite (same_path_neq b a) by congruence. simpl.
  fold (without a (without b fs)). now rewrite without_comm.
Qed.


Lemma exists_app path a b :
  existsSync path (a ++ b) = existsSync path a || existsSync path b.
Proof. unfold existsSync. apply existsb_app. Qed.

Lemma without_app path a b : without path (a ++ b) = without path a ++ without path b.
Proof. unfold without. apply filter_app. Qed.

Lemma same_path_eq a b : same_path a b = true -> a = b.
Proof. unfold same_path. destruct (list_eq_dec N.eq_dec a b); congruence. Qed.

Lemma exists_names path (entries : file_system) :
  existsSync path entries = true <-> In path (List.map fst entries).
Proof.
  unfold existsSync. rewrite existsb_exists, in_map_iff. split.
  - intros (e & He & Hp). exists e. split; auto. now apply same_path_eq.
  - intros (e & Hp & He). exists e. split; auto. rewrite Hp. apply same_path_refl.
Qed.

Lemma names_without path (entries : file_system) :
  List.map fst (without path entries)
  = filter (fun t => negb (same_path t path)) (List.map fst entries).
Proof.
  unfold without. induction entries as [|e es IH]; simpl; auto.
  destruct (same_path (fst e) path); simpl; now rewrite IH.
Qed.

Lemma names_remove p out :
  List.map p_tmpfile (remove_pending p out)
  = filter (fun t => negb (same_path t (p_tmpfile p))) (List.map p_tmpfile out).
Proof.
  unfold remove_pending. induction out as [|q out IH]; simpl; auto.
  destruct (same_path (p_tmpfile q) (p_tmpfile p)); simpl; now rewrite IH.
Qed.

Lemma Forall_filter_keep {A} (P : A -> Prop) f (l : list A) :
  Forall P l -> Forall P (filter f l).
Proof.
  induction 1 as [|a l Ha Hl IH]; simpl; auto. destruct (f a); auto.
Qed.

Lemma temporaries_none fs : temporaries fs [] fs.
Proof. exists []. repeat split; simpl; auto. constructor. Qed.

Lemma temporaries_write base out fs d t :
  temporaries base out fs ->
  existsSync t base = false -> ~ In t (List.map p_tmpfile out) ->
  temporaries base (pending_of d t :: out) (writeFileSync t (getText d) fs).
Proof.
  intros (entries & -> & Hn & Hd & Hb) Ht Hout.
  assert (Hfresh : existsSync t (entries ++ base) = false).
  { rewrite exists_app, Ht, orb_false_r.
    destruct (existsSync t entries) eqn:E; auto.
    apply exists_names in E. rewrite Hn in E. contradiction. }
  exists ((t, getText d) :: entries). unfold writeFileSync.
  rewrite (without_absent _ _ Hfresh). simpl. rewrite Hn.
  repeat split; auto; constructor; auto.
Qed.

Lemma temporaries_unlink base out fs p :
  temporaries base out fs -> In p out ->
  unlinkSync (p_tmpfile p) fs = Some (without (p_tmpfile p) fs)
  /\ temporaries base (remove_pending p out) (without (p_tmpfile p) fs).
Proof.
  intros (entries & -> & Hn & Hd & Hb) Hp.
  assert (Hin : In (p_tmpfile p) (List.map p_tmpfile out)) by now apply in_map.
  split.
  - unfold unlinkSync. rewrite exists_app.
    replace (existsSync (p_tmpfile p) entries) with true; auto.
    symmetry. apply exists_names. now rewrite Hn.
  - exists (without (p_tmpfile p) entries). rewrite without_app.
    rewrite (without_absent (p_tmpfile p) base).
    2:{ rewrite Forall_forall in Hb. now apply Hb. }
    rewrite names_without, names_remove, Hn.
    repeat split; auto.
    + now apply NoDup_filter.
    + now apply Forall_filter_keep.
Qed.

(** ** The handlers *)

(** What the callback of server.ts does when its file is there. *)
Lemma server_callback_done p error stdout stderr w :
  unlinkSync (p_tmpfile p) (files w) = Some (without (p_tmpfile p) (files w)) ->
  ServerTsRun.callback p error stdout stderr w
  = Done (sendDiagnostics (p_uri p) (server_reported error stderr)
            (set_files (without (p_tmpfile p) (files w)) w)).
Proof.
  intros He. unfold ServerTsRun.callback, server_reported. rewrite He.
  destruct (failed_with_output error stderr); auto.
  destruct (server_parseErrorMessage_total stderr) as (batch & Hf & Hb).
  now rewrite (Hb []).
Qed.

Lemma server_session : forall evs base out w,
  temporaries base out (files w) -> scheduled base out evs ->
  exists w',
    ServerTsRun.run_events evs w = Done w'
    /\ temporaries base (outstanding out evs) (files w')
    /\ sent w' = sent w ++ notifications server_reported evs
    /\ spawned w' = spawned w ++ commands (js "perl6") evs.
Proof.
  induction evs as [|[d t|p error stdout stderr] evs IH]; intros base out w Hfs Hs.
  - exists w. simpl. rewrite !app_nil_r. auto.
  - destruct Hs as (Ht & Hout & Hs). cbn [ServerTsRun.run_events].
    destruct (IH base (pending_of d t :: out)
                (fst (ServerTsRun.validateTextDocument d t w))) as (w' & Hr & Hf & Hn & Hc);
      auto.
    { simpl. now apply temporaries_write. }
    exists w'. simpl in *. rewrite Hc, <- app_assoc. auto.
  - destruct Hs as (Hp & Hs). cbn [ServerTsRun.run_events].
    destruct (temporaries_unlink _ _ _ _ Hfs Hp) as (Hu & Hfs').
    rewrite (server_callback_done _ _ _ _ _ Hu).
    destruct (IH base (remove_pending p out)
                (sendDiagnostics (p_uri p) (server_reported error stderr)
                   (set_files (without (p_tmpfile p) (files w)) w)))
      as (w' & Hr & Hf & Hn & Hc); auto.
    exists w'. simpl in *. rewrite Hn, <- app_assoc. auto.
Qed.

(** X11. server.ts over a session. For any sequence of content changes and
    ends of compiler processes in which each temporary name is fresh and each
    process ends once, after it was started: no handler throws ([unlinkSync]
    finds its file and the extractor returns); the files left are those of
    the start together with one temporary file per validation still under
    way, hence those of the start once every process has ended; one
    notification is sent per process ended, in the order in which the
    processes end, not in the order of the changes, and it holds what the
    extractor gives for the output of that process; one compile command is
    started per change. *)
Theorem X11_server_session_completes evs w :
  scheduled (files w) [] evs ->
  exists w',
    ServerTsRun.run_events evs w = Done w'
    /\ temporaries (files w) (outstanding [] evs) (files w')
    /\ (outstanding [] evs = [] -> files w' = files w)
    /\ sent w' = sent w ++ notifications server_reported evs
    /\ spawned w' = spawned w ++ commands (js "perl6") evs.
Proof.
  intros Hs.
  destruct (server_session evs (files w) [] w (temporaries_none _) Hs)
    as (w' & Hr & Hf & Hn & Hc).
  exists w'. repeat split; auto.
  intros Ho. rewrite Ho in Hf. destruct Hf as (entries & -> & He & _).
  now destruct entries.
Qed.

Lemma X11_server_session_completes_witness :
  exists w',
    ServerTsRun.run_events overlapping_runs quiet_world = Done w'
    /\ temporaries (files quiet_world) (outstanding [] overlapping_runs) (files w')
    /\ (outstanding [] overlapping_runs = [] -> files w' = files quiet_world)
    /\ sent w' = sent quiet_world ++ notifications server_reported overlapping_runs
    /\ spawned w' = spawned quiet_world ++ commands (js "perl6") overlapping_runs.
Proof.
  apply (X11_server_session_completes overlapping_runs quiet_world).
  simpl. repeat split; try reflexivity.
  - intros [].
  - intros [H|[]]. discriminate H.
  - left. reflexivity.
  - vm_compute. left. reflexivity.
Defined.

Lemma server_callback_setting n p error stdout stderr w :
  ServerTsRun.callback p error stdout stderr (set_maxNumberOfProblems n w)
  = on_world (set_maxNumberOfProblems n) (ServerTsRun.callback p error stdout stderr w).
Proof.
  unfold ServerTsRun.callback. simpl.
  destruct (unlinkSync (p_tmpfile p) (files w)); auto.
  destruct (failed_with_output error stderr); auto.
  destruct (ServerTs.parseErrorMessage stderr []); auto.
Qed.

(** X12. The setting [maxNumberOfProblems] of server.ts is stored and never
    read: running any events after it was set gives what running them first
    and setting it afterwards gives, exception or not. Nothing caps the
    number of diagnostics sent. *)
Theorem X12_server_setting_not_read n : forall evs w,
  ServerTsRun.run_events evs (set_maxNumberOfProblems n w)
  = on_world (set_maxNumberOfProblems n) (ServerTsRun.run_events evs w).
Proof.
  induction evs as [|[d t|p error stdout stderr] evs IH]; intros w; auto.
  - cbn [ServerTsRun.run_events]. rewrite <- IH. reflexivity.
  - cbn [ServerTsRun.run_events]. rewrite server_callback_setting.
    destruct (ServerTsRun.callback p error stdout stderr w); simpl; auto.
Qed.

Lemma server_validate_all : forall docs w,
  ServerTsRun.run_events (List.map changed docs) w
  = Done (fst (ServerTsRun.validate_all docs w))
  /\ snd (ServerTsRun.validate_all docs w)
     = List.map (fun d => pending_of (fst d) (snd d)) docs.
Proof.
  induction docs as [|[d t] docs IH]; intros w; auto.
  cbn [ServerTsRun.validate_all List.map changed fst snd ServerTsRun.run_events].
  specialize (IH (fst (ServerTsRun.validateTextDocument d t w))).
  unfold ServerTsRun.validateTextDocument in *. cbn [fst snd] in *.
  destruct (ServerTsRun.validate_all docs _) as [w' ps].
  destruct IH as [H1 H2]. simpl in *. now rewrite H1, H2.
Qed.

Lemma or_100_not_0 setting : or_100 setting <> 0%Z.
Proof.
  unfold or_100. destruct setting as [n|]; [|discriminate].
  destruct (n =? 0)%Z eqn:E; [discriminate|]. now apply Z.eqb_neq.
Qed.

(** X13. A configuration change in server.ts whose settings hold the section
    of the server stores [maxNumberOfProblems], 100 in place of a missing
    setting or of 0, hence never 0, and then validates each open document
    once, in order, as a content change of each would. Without the section
    the handler throws, and nothing is stored or validated. *)
Theorem X13_server_configuration setting docs w :
  ServerTsRun.onDidChangeConfiguration (Some setting) docs w
  = (ServerTsRun.run_events (List.map changed docs)
       (set_maxNumberOfProblems (or_100 setting) w),
     List.map (fun d => pending_of (fst d) (snd d)) docs)
  /\ or_100 setting <> 0%Z
  /\ ServerTsRun.onDidChangeConfiguration None docs w = (Threw SettingsTypeError w, []).
Proof.
  split; [|split; [apply or_100_not_0|reflexivity]].
  unfold ServerTsRun.onDidChangeConfiguration. fold (or_100 setting).
  destruct (server_validate_all docs (set_maxNumberOfProblems (or_100 setting) w))
    as [H1 H2].
  rewrite H1.
  destruct (ServerTsRun.validate_all docs _) as [w' ps]. simpl in *.
  now rewrite H2.
Qed.

Section Libraries.

Variable fsPath : jsstring -> jsstring.
Variable stringify : list Diagnostic -> jsstring.

Lemma packaged_callback_done p error stdout stderr w :
  unlinkSync (p_tmpfile p) (files w) = Some (without (p_tmpfile p) (files w)) ->
  exists w',
    PackagedRun.callback stringify p error stdout stderr w = Done w'
    /\ files w' = without (p_tmpfile p) (files w)
    /\ sent w' = sent w ++ [(p_uri p, packaged_reported error stderr)]
    /\ spawned w' = spawned w /\ shown w' = shown w
    /\ perl6Path w' = perl6Path w.
Proof.
  intros He. unfold PackagedRun.callback, packaged_reported. rewrite He.
  destruct (failed_with_output error stderr); eexists; split;
    try reflexivity; simpl; auto.
Qed.

Lemma packaged_session : forall evs base out w,
  temporaries base out (files w) -> scheduled base out evs ->
  exists w',
    PackagedRun.run_events fsPath stringify evs w = Done w'
    /\ temporaries base (outstanding out evs) (files w')
    /\ sent w' = sent w ++ notifications packaged_reported evs
    /\ spawned w' = spawned w ++ commands (path_text (perl6Path w)) evs
    /\ shown w' = shown w
    /\ perl6Path w' = perl6Path w.
Proof.
  induction evs as [|[d t|p error stdout stderr] evs IH]; intros base out w Hfs Hs.
  - exists w. simpl. rewrite !app_nil_r. repeat split; auto.
  - destruct Hs as (Ht & Hout & Hs). cbn [PackagedRun.run_events].
    destruct (IH base (pending_of d t :: out)
                (fst (PackagedRun.validateTextDocument fsPath d t w)))
      as (w' & Hr & Hf & Hn & Hc & Hsh & Hp); auto.
    { simpl. now apply temporaries_write. }
    exists w'. simpl in *. rewrite Hc, <- app_assoc. repeat split; auto.
  - destruct Hs as (Hp & Hs). cbn [PackagedRun.run_events].
    destruct (temporaries_unlink _ _ _ _ Hfs Hp) as (Hu & Hfs').
    destruct (packaged_callback_done p error stdout stderr w Hu)
      as (w1 & -> & H1 & H2 & H3 & H4 & H5).
    rewrite <- H1 in Hfs'.
    destruct (IH base (remove_pending p out) w1 Hfs' Hs)
      as (w' & Hr & Hf & Hn & Hc & Hsh & Hpp).
    exists w'. simpl. rewrite Hn, Hc, Hsh, Hpp, H2, H3, H4, H5, <- app_assoc.
    repeat split; auto.
Qed.

(** X14. The packaged copy over a session. Under the same conditions as for
    server.ts no handler throws, the temporary files are removed as the
    processes end, one notification is sent per process ended, in that order,
    with the batch of the packaged extractor; the compile commands are run by
    the interpreter path as it stands, the text undefined before the first
    configuration; and no error message is shown. *)
Theorem X14_packaged_session_completes evs w :
  scheduled (files w) [] evs ->
  exists w',
    PackagedRun.run_events fsPath stringify evs w = Done w'
    /\ temporaries (files w) (outstanding [] evs) (files w')
    /\ (outstanding [] evs = [] -> files w' = files w)
    /\ sent w' = sent w ++ notifications packaged_reported evs
    /\ spawned w' = spawned w ++ commands (path_text (perl6Path w)) evs
    /\ shown w' = shown w.
Proof.
  intros Hs.
  destruct (packaged_session evs (files w) [] w (temporaries_none _) Hs)
    as (w' & Hr & Hf & Hn & Hc & Hsh & _).
  exists w'. repeat split; auto.
  intros Ho. rewrite Ho in Hf. destruct Hf as (entries & -> & He & _).
  now destruct entries.
Qed.

Lemma packaged_validate_all : forall docs w,
  PackagedRun.run_events fsPath stringify (List.map changed docs) w
  = Done (fst (PackagedRun.validate_all fsPath docs w))
  /\ snd (PackagedRun.validate_all fsPath docs w)
     = List.map (fun d => pending_of (fst d) (snd d)) docs.
Proof.
  induction docs as [|[d t] docs IH]; intros w; auto.
  cbn [PackagedRun.validate_all List.map changed fst snd PackagedRun.run_events].
  specialize (IH (fst (PackagedRun.validateTextDocument fsPath d t w))).
  unfold PackagedRun.validateTextDocument in *. cbn [fst snd] in *.
  destruct (PackagedRun.validate_all fsPath docs _) as [w' ps].
  destruct IH as [H1 H2]. simpl in *. now rewrite H1, H2.
Qed.

Lemma chosen_not_empty path : chosen path <> [].
Proof. destruct path as [[|a p]|]; discriminate. Qed.

Lemma checkExec_chosen path w :
  perl6Path (PackagedRun.checkExec path w) = Some (chosen path)
  /\ spawned (PackagedRun.checkExec path w) = spawned w ++ [chosen path ++ js " -v"]
  /\ files (PackagedRun.checkExec path w) = files w
  /\ sent (PackagedRun.checkExec path w) = sent w
  /\ shown (PackagedRun.checkExec path w) = shown w.
Proof. destruct path as [[|a p]|]; repeat split. Qed.

Lemma packaged_events_app : forall a b w,
  PackagedRun.run_events fsPath stringify (a ++ b) w
  = match PackagedRun.run_events fsPath stringify a w with
    | Done w1 => PackagedRun.run_events fsPath stringify b w1
    | Threw e w1 => Threw e w1
    end.
Proof.
  induction a as [|[d t|p error stdout stderr] a IH]; intros b w; auto.
  - cbn [app PackagedRun.run_events]. apply IH.
  - cbn [app PackagedRun.run_events].
    destruct (PackagedRun.callback stringify p error stdout stderr w); auto.
Qed.

Lemma notifications_changed reported docs evs :
  notifications reported (List.map changed docs ++ evs) = notifications reported evs.
Proof. induction docs as [|[d t] docs IH]; simpl; auto. Qed.

(** X15. A configuration change in the packaged copy whose settings hold the
    section perl6: the interpreter is the configured path, or perl6 when the
    path is missing or empty, hence never empty; its version check is started
    first, then one compile command per open document, in order, and every
    later validation of the session runs the same interpreter; the
    notifications are those of the processes ended; and the only error
    message shown is the output of a version check that failed with
    output. *)
Theorem X15_packaged_configuration path docs evs w error stdout stderr :
  scheduled (files w) [] (List.map changed docs ++ evs) ->
  exists w1 w',
    PackagedRun.onDidChangeConfiguration fsPath (Some path) docs w
    = (Done w1, List.map (fun d => pending_of (fst d) (snd d)) docs)
    /\ PackagedRun.run_events fsPath stringify evs w1 = Done w'
    /\ chosen path <> []
    /\ spawned w'
       = spawned w ++ (chosen path ++ js " -v")
           :: commands (chosen path) (List.map changed docs ++ evs)
    /\ sent w' = sent w ++ notifications packaged_reported evs
    /\ shown (PackagedRun.checkExec_callback error stdout stderr w')
       = shown w ++ (if failed_with_output error stderr then [stderr] else []).
Proof.
  intros Hs.
  destruct (checkExec_chosen path w) as (Hp & Hc & Hf & Hn & Hsh).
  rewrite <- Hf in Hs.
  destruct (packaged_session _ _ [] _ (temporaries_none _) Hs)
    as (w' & Hr & _ & Hsent & Hsp & Hshown & _).
  destruct (packaged_validate_all docs (PackagedRun.checkExec path w)) as [H1 H2].
  rewrite packaged_events_app, H1 in Hr.
  exists (fst (PackagedRun.validate_all fsPath docs (PackagedRun.checkExec path w))), w'.
  split; [|split; [exact Hr|split; [apply chosen_not_empty|split; [|split]]]].
  - unfold PackagedRun.onDidChangeConfiguration.
    destruct (PackagedRun.validate_all fsPath docs _) as [w1 ps]. simpl in *.
    now rewrite H2.
  - rewrite Hsp, Hc, Hp, <- app_assoc. reflexivity.
  - rewrite Hsent, Hn, notifications_changed. reflexivity.
  - unfold PackagedRun.checkExec_callback.
    destruct (failed_with_output error stderr); simpl;
      rewrite Hshown, Hsh, ?app_nil_r; reflexivity.
Qed.

End Libraries.

Lemma X14_packaged_session_completes_witness :
  exists w',
    PackagedRun.run_events local_path no_text overlapping_runs quiet_world = Done w'
    /\ temporaries (files quiet_world) (outstanding [] overlapping_runs) (files w')
    /\ (outstanding [] overlapping_runs = [] -> files w' = files quiet_world)
    /\ sent w' = sent quiet_world ++ notifications packaged_reported overlapping_runs
    /\ spawned w'
       = spawned quiet_world ++ commands (path_text (perl6Path quiet_world)) overlapping_runs
    /\ shown w' = shown quiet_world.
Proof.
  apply (X14_packaged_session_completes local_path no_text overlapping_runs
           quiet_world).
  simpl. repeat split; try reflexivity.
  - intros [].
  - intros [H|[]]. discriminate H.
  - left. reflexivity.
  - vm_compute. left. reflexivity.
Defined.

Lemma X15_packaged_configuration_witness :
  exists w1 w',
    PackagedRun.onDidChangeConfiguration local_path (Some (Some []))
      [(first_text, first_tmp)] quiet_world
    = (Done w1,
       List.map (fun d => pending_of (fst d) (snd d)) [(first_text, first_tmp)])
    /\ PackagedRun.run_events local_path no_text
         [ProcessEnded (pending_of first_text first_tmp) true [] free_text] w1
       = Done w'
    /\ chosen (Some []) <> []
    /\ spawned w'
       = spawned quiet_world ++ (chosen (Some []) ++ js " -v")
           :: commands (chosen (Some []))
                (List.map changed [(first_text, first_tmp)]
                 ++ [ProcessEnded (pending_of first_text first_tmp) true [] free_text])
    /\ sent w'
       = sent quiet_world
         ++ notifications packaged_reported
              [ProcessEnded (pending_of first_text first_tmp) true [] free_text]
    /\ shown (PackagedRun.checkExec_callback true [] (js "perl6: not found") w')
       = shown quiet_world
         ++ (if failed_with_output true (js "perl6: not found")
             then [js "perl6: not found"] else []).
Proof.
  apply (X15_packaged_configuration local_path no_text (Some [])
           [(first_text, first_tmp)]
           [ProcessEnded (pending_of first_text first_tmp) true [] free_text]
           quiet_world true [] (js "perl6: not found")).
  simpl. repeat split; try reflexivity.
  - intros [].
  - left. reflexivity.
Defined.

(** ** Completion *)

(** X16. [onCompletionResolve] changes neither label, kind nor data of an
    item, and resolving an item twice is resolving it once. *)
Theorem X16_resolve_idempotent item :
  onCompletionResolve (onCompletionResolve item) = onCompletionResolve item
  /\ label (onCompletionResolve item) = label item
  /\ kind (onCompletionResolve item) = kind item
  /\ data (onCompletionResolve item) = data item.
Proof.
  unfold onCompletionResolve.
  destruct (data_is 1 item) eqn:H1; [|destruct (data_is 2 item) eqn:H2].
  - unfold data_is in *. simpl. rewrite H1. auto.
  - unfold data_is in *. simpl. rewrite H1, H2. auto.
  - rewrite H1, H2. auto.
Qed.

(** X17. Every item that [onCompletion] offers, at whatever position,
    resolves to its own label followed by " details" and by
    " documentation": the two handlers agree on what the data 1 and 2 stand
    for. *)
Theorem X17_offered_items_resolve position item :
  In item (onCompletion position) ->
  detail (onCompletionResolve item) = Some (label item ++ js " details")
  /\ documentation (onCompletionResolve item)
     = Some (label item ++ js " documentation").
Proof.
  intros [<-|[<-|[]]]; split; reflexivity.
Qed.

Lemma X17_offered_items_resolve_witness :
  detail (onCompletionResolve
            {| label := js "JavaScript"; kind := CompletionItemKind.Text;
               data := Num 2; detail := None; documentation := None |})
  = Some (js "JavaScript" ++ js " details")
  /\ documentation
       (onCompletionResolve
          {| label := js "JavaScript"; kind := CompletionItemKind.Text;
             data := Num 2; detail := None; documentation := None |})
     = Some (js "JavaScript" ++ js " documentation").
Proof.
  apply (X17_offered_items_resolve (js "file:///home/u/a.p6", (0%Z, 0%Z))
           {| label := js "JavaScript"; kind := CompletionItemKind.Text;
              data := Num 2; detail := None; documentation := None |}).
  simpl. right. left. reflexivity.
Defined.
